(** * Rolling statistics of the correlation panel: a shallow embedding

    The numeric engine of the panel lives in [src/utils/correlation.ts]:
    [slidingCorrelation], [smoothSeries], [performLinearRegression] and
    [computeCointegrationZScore].  This file embeds the four functions and
    proves the properties the specification states about them.

    A JavaScript [number] is an IEEE 754 binary64 value, which is exactly
    Rocq's primitive [float].  The functions are written once, over an
    interface of the arithmetic they use ([JsNumber]); the instance
    [Float64] is the program as it runs.  A second instance, [Exact], reads
    the same code over the real numbers: it is the arithmetic the
    specification reasons in, and is used to state what holds of the
    formulas when no rounding takes place.

    Array indices and lengths are integral doubles far below 2^53; they are
    modelled as [nat] and [Z].  A normalised window or radius is an integral
    double, [NaN] or an infinity ([integral]).  The one loop whose counter can
    stop advancing, the offset loop of [smoothSeries], has an [outcome]: it
    returns, or it never exits. *)

From Stdlib Require Import ZArith List Bool Lia Floats Reals Lra Psatz.
From Stdlib Require String.
Import ListNotations.
Import String.StringSyntax.

Set Implicit Arguments.

(** ** Integral numbers: what [Math.floor] returns *)

Inductive integral : Type :=
| I_nan
| I_neginf
| I_posinf
| I_fin (z : Z).

(** [Math.max(a, b)] on integral numbers: [NaN] is contagious. *)
Definition Math_max (a b : integral) : integral :=
  match a, b with
  | I_nan, _ | _, I_nan => I_nan
  | I_posinf, _ | _, I_posinf => I_posinf
  | I_neginf, y => y
  | x, I_neginf => x
  | I_fin x, I_fin y => I_fin (Z.max x y)
  end.

(** [a < b]: every comparison with [NaN] is false. *)
Definition int_ltb (a b : integral) : bool :=
  match a, b with
  | I_nan, _ | _, I_nan => false
  | _, I_neginf => false
  | I_neginf, _ => true
  | I_posinf, _ => false
  | I_fin _, I_posinf => true
  | I_fin x, I_fin y => (x <? y)%Z
  end.

(** [a === b]. *)
Definition int_eqb (a b : integral) : bool :=
  match a, b with
  | I_neginf, I_neginf | I_posinf, I_posinf => true
  | I_fin x, I_fin y => (x =? y)%Z
  | _, _ => false
  end.

(** [a - b]. *)
Definition int_sub (a b : integral) : integral :=
  match a, b with
  | I_nan, _ | _, I_nan => I_nan
  | I_posinf, I_posinf | I_neginf, I_neginf => I_nan
  | I_posinf, _ | _, I_neginf => I_posinf
  | I_neginf, _ | _, I_posinf => I_neginf
  | I_fin x, I_fin y => I_fin (x - y)
  end.

Definition of_index (i : nat) : integral := I_fin (Z.of_nat i).

(** ** Arrays *)

(** The start index [Array.prototype.slice] derives from its first argument
    ([ToIntegerOrInfinity], then clamping; a negative start counts from the
    end). *)
Definition slice_start (len : nat) (start : integral) : nat :=
  match start with
  | I_nan | I_neginf => 0
  | I_posinf => len
  | I_fin z =>
      if (z <? 0)%Z then Z.to_nat (Z.max (Z.of_nat len + z) 0)
      else Nat.min (Z.to_nat z) len
  end.

(** [arr.slice(start, stop)] for an index [stop]. *)
Definition Array_slice {T} (arr : list T) (start : integral) (stop : nat) : list T :=
  let k := slice_start (length arr) start in
  let final := Nat.min stop (length arr) in
  firstn (final - k) (skipn k arr).

(** [arr.reduce((acc, x, idx) => f acc x idx, init)], from index [idx]. *)
Fixpoint reduce_from {T Acc} (f : Acc -> T -> nat -> Acc) (arr : list T)
  (idx : nat) (acc : Acc) : Acc :=
  match arr with
  | [] => acc
  | x :: rest => reduce_from f rest (S idx) (f acc x idx)
  end.

Definition Array_reduce_idx {T Acc} (f : Acc -> T -> nat -> Acc) (arr : list T)
  (init : Acc) : Acc :=
  reduce_from f arr 0 init.

(** [arr.reduce((acc, x) => f acc x, init)]. *)
Definition Array_reduce {T Acc} (f : Acc -> T -> Acc) (arr : list T) (init : Acc) : Acc :=
  fold_left f arr init.

(** ** The arithmetic of a JavaScript number *)

Class JsNumber (num : Type) : Type := {
  num_zero : num;                      (* the literal 0 *)
  num_nan : num;                       (* what [undefined] coerces to *)
  num_add : num -> num -> num;
  num_sub : num -> num -> num;
  num_mul : num -> num -> num;
  num_div : num -> num -> num;
  Math_sqrt : num -> num;
  num_eqb : num -> num -> bool;        (* [===] *)
  Number_isFinite : num -> bool;
  Math_floor : num -> integral;
  of_integral : integral -> num        (* an integral number, as a number *)
}.

Declare Scope js_scope.
Delimit Scope js_scope with js.
Infix "+" := num_add : js_scope.
Infix "-" := num_sub : js_scope.
Infix "*" := num_mul : js_scope.
Infix "/" := num_div : js_scope.
Infix "===" := num_eqb (at level 70, no associativity) : js_scope.

(** The outcome of a call: it returns a value, or its loop never exits. *)
Inductive outcome (T : Type) : Type :=
| Returns (result : T)
| Loops.
Arguments Loops {T}.

Definition outcome_bind {T U} (o : outcome T) (k : T -> outcome U) : outcome U :=
  match o with
  | Returns x => k x
  | Loops => Loops
  end.

(** [arr.map((x, idx) => f idx x)] from index [idx], where a call of [f] may
    fail to return. *)
Fixpoint map_from {T U} (f : nat -> T -> outcome U) (arr : list T) (idx : nat)
  : outcome (list U) :=
  match arr with
  | [] => Returns []
  | x :: rest =>
      outcome_bind (f idx x) (fun y =>
      outcome_bind (map_from f rest (S idx)) (fun ys => Returns (y :: ys)))
  end.

Definition Array_map_idx {T U} (f : nat -> T -> outcome U) (arr : list T)
  : outcome (list U) :=
  map_from f arr 0.

(** A double counts exactly only below 2^53: [x + 1] is [x] again from there. *)
Definition max_safe_count : Z := 2 ^ 53.

(** The radii on which the loop over [offset] exits. *)
Definition loopExits (windowRadius : integral) : bool :=
  match windowRadius with
  | I_posinf => false
  | I_fin r => (r <? max_safe_count)%Z
  | _ => true
  end.

Section Engine.

Context {num : Type} {JN : JsNumber num}.
Local Open Scope js_scope.

(** [Math.pow(x, 2)]: the square.  [Math.pow] is no IEEE operation; the
    [pow] of fdlibm, which the engines run, returns the product [x * x] for an
    exponent of 2. *)
Definition Math_pow2 (x : num) : num := x * x.

(** *** slidingCorrelation *)

(** Lines 19-39 of the loop body: the Pearson coefficient of two slices. *)
Definition windowCorrelation (sliceA sliceB : list num) (safeWindow : num) : option num :=
  let meanA := Array_reduce (fun a b => a + b) sliceA num_zero / safeWindow in
  let meanB := Array_reduce (fun a b => a + b) sliceB num_zero / safeWindow in
  let cov :=
    Array_reduce_idx
      (fun acc aVal idx => acc + (aVal - meanA) * (nth idx sliceB num_nan - meanB))
      sliceA num_zero / safeWindow in
  let stdA :=
    Math_sqrt (Array_reduce (fun acc aVal => acc + Math_pow2 (aVal - meanA)) sliceA num_zero
               / safeWindow) in
  let stdB :=
    Math_sqrt (Array_reduce (fun acc bVal => acc + Math_pow2 (bVal - meanB)) sliceB num_zero
               / safeWindow) in
  if (stdA === num_zero) || (stdB === num_zero) then None
  else Some (cov / (stdA * stdB)).

(** [Math.max(Math.floor(window), 1)]. *)
Definition correlationWindow (window : num) : integral :=
  Math_max (Math_floor window) (I_fin 1).

(** One iteration of the loop over [i]. *)
Definition correlationAt (seriesA seriesB : list num) (safeWindow : integral) (i : nat)
  : option num :=
  if int_ltb (of_index i) safeWindow then None
  else
    let sliceA := Array_slice seriesA (int_sub (of_index i) safeWindow) i in
    let sliceB := Array_slice seriesB (int_sub (of_index i) safeWindow) i in
    windowCorrelation sliceA sliceB (of_integral safeWindow).

Definition slidingCorrelation (seriesA seriesB : list num) (window : num)
  : list (option num) :=
  let safeWindow := correlationWindow window in
  let length := Nat.min (length seriesA) (length seriesB) in
  map (correlationAt seriesA seriesB safeWindow) (seq 0 length).

(** *** smoothSeries *)

(** [Math.max(Math.floor(radius), 0)]. *)
Definition smoothingRadius (radius : num) : integral :=
  Math_max (Math_floor radius) (I_fin 0).

(** The body of the loop over [offset] (lines 60-71); the state is
    [(sum, count)]. *)
Definition smoothStep (values : list (option num)) (idx : nat) (st : num * nat)
  (offset : Z) : num * nat :=
  let neighborIndex := (Z.of_nat idx + offset)%Z in
  if (neighborIndex <? 0)%Z || (neighborIndex >=? Z.of_nat (length values))%Z then st
  else
    match nth (Z.to_nat neighborIndex) values None with
    | None => st
    | Some neighborValue =>
        if negb (Number_isFinite neighborValue) then st
        else (fst st + neighborValue, S (snd st))
    end.

(** The offsets [-r, -r+1, ..., r]. *)
Definition offsets (r : Z) : list Z :=
  map (fun k => (Z.of_nat k - r)%Z) (seq 0 (Z.to_nat (2 * r + 1))).

(** [for (let offset = -windowRadius; offset <= windowRadius; offset++)].
    With [NaN] the test [NaN <= NaN] fails at once.  The counter is a double:
    from 2^53 on [offset++] leaves it unchanged, so a radius of 2^53 or more
    (or [Infinity]) never drives it past [windowRadius]. *)
Definition smoothLoop (values : list (option num)) (idx : nat) (windowRadius : integral)
  : outcome (num * nat) :=
  match windowRadius with
  | I_nan | I_neginf => Returns (num_zero, 0)
  | I_posinf => Loops
  | I_fin r =>
      if (r <? max_safe_count)%Z
      then Returns (fold_left (smoothStep values idx) (offsets r) (num_zero, 0))
      else Loops
  end.

(** The callback of [values.map]. *)
Definition smoothAt (values : list (option num)) (windowRadius : integral) (idx : nat)
  (value : option num) : outcome (option num) :=
  match value with
  | None => Returns None
  | Some _ =>
      outcome_bind (smoothLoop values idx windowRadius) (fun st =>
      Returns (if (0 <? snd st)%nat
               then Some (fst st / of_integral (of_index (snd st)))
               else None))
  end.

Definition smoothSeries (values : list (option num)) (radius : num)
  : outcome (list (option num)) :=
  let windowRadius := smoothingRadius radius in
  if int_eqb windowRadius (I_fin 0) then Returns values
  else Array_map_idx (smoothAt values windowRadius) values.

(** *** performLinearRegression *)

Record regression : Type := {
  alpha : num;
  beta : num;
  valid : bool
}.

(** [typeof value === 'number'] holds of every element of a [number[]]. *)
Definition isFiniteNumber (value : num) : bool := Number_isFinite value.

(** The loop of lines 84-91 over the overlapping prefix. *)
Fixpoint collectPairs (seriesA seriesB : list num) : list (num * num) :=
  match seriesA, seriesB with
  | a :: restA, b :: restB =>
      if negb (isFiniteNumber a) || negb (isFiniteNumber b)
      then collectPairs restA restB
      else (a, b) :: collectPairs restA restB
  | _, _ => []
  end.

Record sums : Type := {
  sumX : num;
  sumY : num;
  sumXY : num;
  sumXX : num
}.

(** The body of the loop of lines 103-108; a pair is [(a, b)]. *)
Definition addPair (s : sums) (pair : num * num) : sums :=
  {| sumX := sumX s + snd pair;
     sumY := sumY s + fst pair;
     sumXY := sumXY s + fst pair * snd pair;
     sumXX := sumXX s + snd pair * snd pair |}.

Definition pairSums (pairs : list (num * num)) : sums :=
  fold_left addPair pairs
    {| sumX := num_zero; sumY := num_zero; sumXY := num_zero; sumXX := num_zero |}.

Definition regressionDenominator (pairs : list (num * num)) : num :=
  let n := of_integral (of_index (length pairs)) in
  let s := pairSums pairs in
  n * sumXX s - sumX s * sumX s.

Definition performLinearRegression (seriesA seriesB : list num) : regression :=
  let pairs := collectPairs seriesA seriesB in
  if (length pairs <? 2)%nat
  then {| alpha := num_zero; beta := num_zero; valid := false |}
  else
    let n := of_integral (of_index (length pairs)) in
    let s := pairSums pairs in
    let denominator := regressionDenominator pairs in
    if denominator === num_zero
    then {| alpha := sumY s / n; beta := num_zero; valid := true |}
    else
      let beta := (n * sumXY s - sumX s * sumY s) / denominator in
      let alpha := (sumY s - beta * sumX s) / n in
      {| alpha := alpha; beta := beta; valid := true |}.

(** *** computeCointegrationZScore *)

(** Lines 138-143: the residual at one index of the overlap. *)
Definition residualAt (reg : regression) (a b : num) : option num :=
  if negb (isFiniteNumber a) || negb (isFiniteNumber b) then None
  else Some (a - (alpha reg + beta reg * b)).

Fixpoint residualsOf (reg : regression) (seriesA seriesB : list num) : list (option num) :=
  match seriesA, seriesB with
  | a :: restA, b :: restB => residualAt reg a b :: residualsOf reg restA restB
  | _, _ => []
  end.

(** [Math.max(Math.floor(window), 2)]. *)
Definition zscoreWindow (window : num) : integral :=
  Math_max (Math_floor window) (I_fin 2).

(** The indices [for (let idx = start; idx <= i; idx++)] visits; [start] is
    [Math.max(0, ...)], never negative, and [NaN <= i] is false. *)
Definition windowIndices (start : integral) (i : nat) : list nat :=
  match start with
  | I_fin s => seq (Z.to_nat s) (S i - Z.to_nat s)
  | _ => []
  end.

(** Lines 157-164: the defined, finite residuals of the window. *)
Fixpoint collectResiduals (residuals : list (option num)) (indices : list nat) : list num :=
  match indices with
  | [] => []
  | idx :: rest =>
      match nth idx residuals None with
      | None => collectResiduals residuals rest
      | Some value =>
          if negb (Number_isFinite value) then collectResiduals residuals rest
          else value :: collectResiduals residuals rest
      end
  end.

(** Lines 166-180: the z-score of [currentResidual] within [slice]. *)
Definition zscoreOf (currentResidual : num) (slice : list num) : option num :=
  if (length slice <? 2)%nat then None
  else
    let len := of_integral (of_index (length slice)) in
    let mean := Array_reduce (fun acc val => acc + val) slice num_zero / len in
    let variance :=
      Array_reduce (fun acc val => acc + Math_pow2 (val - mean)) slice num_zero / len in
    let std := Math_sqrt variance in
    if negb (Number_isFinite std) || (std === num_zero) then None
    else Some ((currentResidual - mean) / std).

(** One iteration of the loop of lines 149-181. *)
Definition zscoreAt (residuals : list (option num)) (safeWindow : integral) (i : nat)
  : option num :=
  match nth i residuals None with
  | None => None
  | Some currentResidual =>
      if int_ltb (of_index i) (int_sub safeWindow (I_fin 1)) then None
      else
        let start :=
          Math_max (I_fin 0) (int_sub (of_index i) (int_sub safeWindow (I_fin 1))) in
        zscoreOf currentResidual (collectResiduals residuals (windowIndices start i))
  end.

Definition computeCointegrationZScore (seriesA seriesB : list num) (window : num)
  : list (option num) :=
  let length := Nat.min (length seriesA) (length seriesB) in
  let residuals := repeat (@None num) length in
  if (length =? 0)%nat then residuals
  else
    let regression := performLinearRegression seriesA seriesB in
    if negb (valid regression) then residuals
    else
      let residuals := residualsOf regression seriesA seriesB in
      let safeWindow := zscoreWindow window in
      map (zscoreAt residuals safeWindow) (seq 0 length).

End Engine.

Arguments regression : clear implicits.
Arguments sums : clear implicits.

(** ** IEEE 754 binary64: the numbers of the running program *)

(** [Math.floor] of a double, read off its sign, mantissa and exponent:
    the value is [± m * 2^e], and [Z.shiftl] by a negative amount is the
    division that rounds towards minus infinity. *)
Definition float_floor (x : float) : integral :=
  match Prim2SF x with
  | S754_nan => I_nan
  | S754_infinity true => I_neginf
  | S754_infinity false => I_posinf
  | S754_zero _ => I_fin 0
  | S754_finite s m e => I_fin (Z.shiftl (if s then Z.neg m else Z.pos m) e)
  end.

(** The double nearest to an integer (exact below 2^53): the conversion
    primitive where the integer fits a 63-bit word, the rounding of the
    specification beyond. *)
Definition float_of_Z (z : Z) : float :=
  if (0 <=? z)%Z && (z <? 2 ^ 63)%Z then PrimFloat.of_uint63 (Uint63.of_Z z)
  else if (- 2 ^ 63 <? z)%Z && (z <? 0)%Z
       then PrimFloat.opp (PrimFloat.of_uint63 (Uint63.of_Z (- z)))
       else SF2Prim (binary_normalize prec emax z 0 false).

Definition float_of_integral (x : integral) : float :=
  match x with
  | I_nan => PrimFloat.nan
  | I_neginf => PrimFloat.neg_infinity
  | I_posinf => PrimFloat.infinity
  | I_fin z => float_of_Z z
  end.

#[export] Instance Float64 : JsNumber float := {
  num_zero := PrimFloat.zero;
  num_nan := PrimFloat.nan;
  num_add := PrimFloat.add;
  num_sub := PrimFloat.sub;
  num_mul := PrimFloat.mul;
  num_div := PrimFloat.div;
  Math_sqrt := PrimFloat.sqrt;
  num_eqb := PrimFloat.eqb;
  Number_isFinite := PrimFloat.is_finite;
  Math_floor := float_floor;
  of_integral := float_of_integral
}.

(** ** Exact arithmetic: the same code over the real numbers *)

Definition real_eqb (x y : R) : bool := if Req_dec_T x y then true else false.

(** Over the reals there is neither [NaN] nor an infinity: [num_nan] and the
    images of the non-finite integrals are never reached, every number is
    finite, and [Math.floor] is the integer part. *)
Definition real_of_integral (x : integral) : R :=
  match x with
  | I_fin z => IZR z
  | _ => 0%R
  end.

#[export] Instance Exact : JsNumber R := {
  num_zero := 0%R;
  num_nan := 0%R;
  num_add := Rplus;
  num_sub := Rminus;
  num_mul := Rmult;
  num_div := Rdiv;
  Math_sqrt := sqrt;
  num_eqb := real_eqb;
  Number_isFinite := fun _ => true;
  Math_floor := fun x => I_fin (Int_part x);
  of_integral := real_of_integral
}.

(** * The panel: CorrelationPanel.tsx

    The panel calls the engine and draws its output.  Its helpers work on
    doubles ([Math.min], [Math.max], comparisons), so they are embedded over
    [float] directly.  What the embedding leaves to a parameter is the text of
    a number ([Number_toString]): the helpers only concatenate it. *)

Delimit Scope string_scope with string.

(** ** [Math.min], [Math.max] and [clamp] *)

Definition float_is_neg_zero (x : float) : bool :=
  PrimFloat.is_zero x && PrimFloat.get_sign x.

Definition float_is_pos_zero (x : float) : bool :=
  PrimFloat.is_zero x && negb (PrimFloat.get_sign x).

(** The loop of [Math.min(...coerced)]: a [NaN] anywhere gives [NaN], [-0]
    replaces [+0], a number below the lowest so far replaces it. *)
Fixpoint Math_min_from (lowest : float) (coerced : list float) : float :=
  match coerced with
  | [] => lowest
  | number :: rest =>
      if PrimFloat.is_nan number then PrimFloat.nan
      else if (float_is_neg_zero number && float_is_pos_zero lowest)
              || PrimFloat.ltb number lowest
           then Math_min_from number rest
           else Math_min_from lowest rest
  end.

(** The loop of [Math.max(...coerced)]. *)
Fixpoint Math_max_from (highest : float) (coerced : list float) : float :=
  match coerced with
  | [] => highest
  | number :: rest =>
      if PrimFloat.is_nan number then PrimFloat.nan
      else if (float_is_pos_zero number && float_is_neg_zero highest)
              || PrimFloat.ltb highest number
           then Math_max_from number rest
           else Math_max_from highest rest
  end.

Definition Math_min_of (coerced : list float) : float :=
  Math_min_from PrimFloat.infinity coerced.

Definition Math_max_of (coerced : list float) : float :=
  Math_max_from PrimFloat.neg_infinity coerced.

(** [const clamp = (value, min, max) => Math.min(Math.max(value, min), max)]. *)
Definition clamp (value min max : float) : float :=
  Math_min_of [Math_max_of [value; min]; max].

(** ** The range of a series, and the zoom *)




(** [timestamps.length ? 1 / Math.max(timestamps.length, 1) : 0.001]. *)
Definition minViewSpan (timestamps_length : nat) : float :=
  if (timestamps_length =? 0)%nat then 0.001%float
  else (1 / float_of_integral (Math_max (of_index timestamps_length) (I_fin 1)))%float.

(** [applyZoom]: the view range it passes to [setViewRange], from the one in
    the state. *)
Definition applyZoom (timestamps_length : nat) (viewRange : float * float)
  (zoomFactor : float) : float * float :=
  let minViewSpan := minViewSpan timestamps_length in
  let currentSpan := Math_max_of [(snd viewRange - fst viewRange)%float; minViewSpan] in
  let newSpan := clamp (currentSpan * zoomFactor)%float minViewSpan 1%float in
  let center := ((fst viewRange + snd viewRange) / 2)%float in
  let newStart := (center - newSpan / 2)%float in
  let newEnd := (center + newSpan / 2)%float in
  let shifted :=
    if PrimFloat.ltb newStart 0%float
    then (0%float, Math_min_of [1%float; (newEnd - newStart)%float])
    else (newStart, newEnd) in
  if PrimFloat.ltb 1%float (snd shifted)
  then (Math_max_of [0%float; (fst shifted - (snd shifted - 1))%float], 1%float)
  else shifted.

(** ** The path of the correlation trace *)

Section CorrelationPath.

(** The text of a number inside a template literal. *)
Variable Number_toString : float -> String.string.

(** The text one finite value adds to the path (lines 587-589). *)
Definition pathPoint (denom chartWidth plotHeight : float) (hasOpenSegment : bool)
  (value : float) (idx : nat) : String.string :=
  let x := (float_of_integral (of_index idx) / denom * chartWidth)%float in
  let y := ((1 - (value + 1) / 2) * plotHeight)%float in
  String.append (if hasOpenSegment then " L " else "M ")%string
    (String.append (Number_toString x)
       (String.append " "%string (Number_toString y))).

(** The callback of [values.forEach]; the state is [(path, hasOpenSegment)]. *)
Definition pathStep (denom chartWidth plotHeight : float) (st : String.string * bool)
  (value : option float) (idx : nat) : String.string * bool :=
  match value with
  | None => (fst st, false)
  | Some v =>
      if negb (PrimFloat.is_finite v) then (fst st, false)
      else (String.append (fst st)
              (pathPoint denom chartWidth plotHeight (snd st) v idx), true)
  end.

(** [Math.max(values.length - 1, 1)]. *)
Definition pathDenominator (values : list (option float)) : float :=
  float_of_integral (Math_max (int_sub (of_index (length values)) (I_fin 1)) (I_fin 1)).

Definition buildCorrelationPath (values : list (option float)) (chartWidth plotHeight : float)
  : String.string :=
  if (length values =? 0)%nat then String.EmptyString
  else
    fst (Array_reduce_idx (pathStep (pathDenominator values) chartWidth plotHeight) values
           (String.EmptyString, false)).

End CorrelationPath.

(** ** The trace the panel draws *)

(** [options.windowSize || 30]: [undefined] ([None]), [0] and [NaN] select
    the default. *)
Definition panelWindow (windowSize : option float) : float :=
  match windowSize with
  | None => 30%float
  | Some w => if PrimFloat.is_nan w || PrimFloat.is_zero w then 30%float else w
  end.

(** [Math.max(1, Math.floor(window / 8))]. *)
Definition panelSmoothingRadius (window : float) : float :=
  float_of_integral (Math_max (I_fin 1) (float_floor (window / 8)%float)).

(** Lines 668-671: the trace the panel draws. *)
Definition panelCorrelation (windowSize : option float) (seriesA seriesB : list float)
  : outcome (list (option float)) :=
  let window := panelWindow windowSize in
  let rawCorrelation := slidingCorrelation seriesA seriesB window in
  let smoothingRadius := panelSmoothingRadius window in
  smoothSeries rawCorrelation smoothingRadius.

(** [normalize]: the height at which a value of a series is drawn. *)
Definition normalize (v min max h : float) : float :=
  if PrimFloat.eqb max min then (h / 2)%float
  else ((1 - (v - min) / (max - min)) * h)%float.

(** ** The ticks of the time axis *)

(** [Math.round] of a double: the nearest integer, a tie going up. *)
Definition float_round (x : float) : integral :=
  match Prim2SF x with
  | S754_nan => I_nan
  | S754_infinity true => I_neginf
  | S754_infinity false => I_posinf
  | S754_zero _ => I_fin 0
  | S754_finite s m e =>
      let mantissa := if s then Z.neg m else Z.pos m in
      if (0 <=? e)%Z then I_fin (Z.shiftl mantissa e)
      else I_fin (Z.shiftl (2 * mantissa + Z.shiftl 1 (- e)) (e - 1))
  end.

(** [Math.min(a, b)] on integral numbers: [NaN] is contagious. *)
Definition Math_min (a b : integral) : integral :=
  match a, b with
  | I_nan, _ | _, I_nan => I_nan
  | I_neginf, _ | _, I_neginf => I_neginf
  | I_posinf, y => y
  | x, I_posinf => x
  | I_fin x, I_fin y => I_fin (Z.min x y)
  end.

(** [values[index]]: [undefined] outside the array. *)
Definition Array_get {T} (values : list T) (index : integral) : option T :=
  match index with
  | I_fin z => if (z <? 0)%Z then None else nth_error values (Z.to_nat z)
  | _ => None
  end.

Record axisTick : Type := {
  tick_x : float;
  tick_label : String.string
}.

Section AxisTicks.

(** The values of the time field, and the text [formatTimestamp] gives one
    ([undefined] is [None]): a date in the format of the locale, which the
    embedding leaves to a parameter. *)
Variable T : Type.
Variable formatTimestamp : option T -> String.string.

(** The callback of [Array.from] (lines 520-527). *)
Definition axisTickAt (values : list T) (safeWidth : float) (count lastIndex idx : nat)
  : axisTick :=
  let ratio := (float_of_integral (of_index idx) / float_of_integral (of_index (count - 1)))%float in
  let targetIndex :=
    Math_min (of_index lastIndex)
      (float_round (ratio * float_of_integral (of_index lastIndex))%float) in
  {| tick_x := (ratio * safeWidth)%float;
     tick_label := formatTimestamp (Array_get values targetIndex) |}.

Definition buildAxisTicks (values : list T) (totalWidth : float) : list axisTick :=
  if (length values =? 0)%nat then []
  else
    let safeWidth := Math_max_of [totalWidth; 1%float] in
    let count := Nat.min 5 (length values) in
    if (count <=? 1)%nat
    then [{| tick_x := 0%float; tick_label := formatTimestamp (Array_get values (I_fin 0)) |}]
    else
      let lastIndex := length values - 1 in
      map (axisTickAt values safeWidth count lastIndex) (seq 0 count).

End AxisTicks.

(** * Vocabulary of the properties *)

(** The [w] elements of [arr] at the indices [i - w, ..., i - 1]. *)
Definition trailingWindow {T} (d : T) (arr : list T) (i w : nat) : list T :=
  map (fun k => nth k arr d) (seq (i - w) w).


(** A JavaScript array holds fewer than 2^32 elements. *)
Definition arrayLength (n : nat) : Prop := (Z.of_nat n < 2 ^ 32)%Z.

Section Vocabulary.

Context {num : Type} {JN : JsNumber num}.
Local Open Scope js_scope.

(** The index positions of the overlap at which both series hold a finite
    number. *)
Definition finitePairCount (seriesA seriesB : list num) : nat :=
  length (filter (fun p => Number_isFinite (fst p) && Number_isFinite (snd p))
            (combine seriesA seriesB)).

(** A finite number lies within [r] positions of index [i]. *)
Definition finiteNear (values : list (option num)) (i : nat) (r : Z) : Prop :=
  exists (j : nat) (w : num),
    (Z.abs (Z.of_nat j - Z.of_nat i) <= r)%Z
    /\ nth_error values j = Some (Some w)
    /\ Number_isFinite w = true.


End Vocabulary.



(** Classes of doubles, read on their specification. *)
Definition SFfinite (x : spec_float) : bool :=
  match x with
  | S754_zero _ | S754_finite _ _ _ => true
  | _ => false
  end.

Definition SFis_zero (x : spec_float) : bool :=
  match x with
  | S754_zero _ => true
  | _ => false
  end.

(** A double that is neither a zero nor [NaN], of sign [s]. *)
Definition SFsigned (s : bool) (x : spec_float) : Prop :=
  match x with
  | S754_finite s' _ _ | S754_infinity s' => s' = s
  | _ => False
  end.

(** [x === 0]: [x] is one of the two zeros. *)
Definition float_is_zero (x : float) : Prop := PrimFloat.eqb x PrimFloat.zero = true.

(** ** The order of the doubles *)

(** A key whose lexicographic order is the order of the doubles that are not
    [NaN]: the sign class, then the exponent, then the mantissa. *)
Definition SFkey (x : spec_float) : Z * (Z * Z) :=
  match x with
  | S754_zero _ | S754_nan => (0, (0, 0))
  | S754_infinity s => (if s then -2 else 2, (0, 0))
  | S754_finite s m e => if s then (-1, (- e, Z.neg m)) else (1, (e, Z.pos m))
  end%Z.

Definition key_lt (k1 k2 : Z * (Z * Z)) : Prop :=
  (fst k1 < fst k2
   \/ (fst k1 = fst k2
       /\ (fst (snd k1) < fst (snd k2)
           \/ (fst (snd k1) = fst (snd k2) /\ snd (snd k1) < snd (snd k2)))))%Z.

Definition key_le (k1 k2 : Z * (Z * Z)) : Prop := key_lt k1 k2 \/ k1 = k2.

Definition SFnan (x : spec_float) : bool :=
  match x with
  | S754_nan => true
  | _ => false
  end.

(** The order on the doubles, as the comparisons of the language read it. *)
Definition float_le (x y : float) : Prop := PrimFloat.leb x y = true.
Definition float_lt (x y : float) : Prop := PrimFloat.ltb x y = true.

(** ** Numbers that are not finite *)

(** [NaN], or the infinity of sign [s]. *)
Definition SFpoison (s : bool) (x : spec_float) : Prop :=
  match x with
  | S754_nan => True
  | S754_infinity s' => s' = s
  | _ => False
  end.

(** The series holds at index [j] a number that is not finite. *)
Definition nonFiniteAt (series : list float) (j : nat) : Prop :=
  exists x, nth_error series j = Some x /\ PrimFloat.is_finite x = false.

(** ** The points of the path *)

(** The value at an index is a finite number: a point of the path. *)
Definition plotted (values : list (option float)) (idx : nat) : bool :=
  match nth idx values None with
  | Some v => PrimFloat.is_finite v
  | None => false
  end.

Section PathVocabulary.

Variable Number_toString : float -> String.string.

(** The text the path holds for one index: nothing where no point is
    plotted, a line from the previous point where the index before is plotted
    too, a move otherwise. *)
Definition pathPiece (values : list (option float)) (chartWidth plotHeight : float)
  (idx : nat) : String.string :=
  match nth idx values None with
  | Some v =>
      if PrimFloat.is_finite v
      then pathPoint Number_toString (pathDenominator values) chartWidth plotHeight
             ((0 <? idx)%nat && plotted values (idx - 1)) v idx
      else String.EmptyString
  | None => String.EmptyString
  end.

End PathVocabulary.

(** ** The finite values of a sequence *)

Section SmootherVocabulary.

Context {num : Type} {JN : JsNumber num}.

(** The finite numbers of a sequence, in the order of the indices. *)
Fixpoint finiteValues (values : list (option num)) : list num :=
  match values with
  | [] => []
  | Some v :: rest =>
      if Number_isFinite v then v :: finiteValues rest else finiteValues rest
  | None :: rest => finiteValues rest
  end.

(** One finite value more in the sum. *)
Definition smoothVisit (values : list (option num)) (st : num * nat) (k : nat) : num * nat :=
  match nth k values None with
  | None => st
  | Some neighborValue =>
      if negb (Number_isFinite neighborValue) then st
      else (num_add (fst st) neighborValue, S (snd st))
  end.

End SmootherVocabulary.

(** * Properties *)

(** ** Arrays and outcomes *)

Lemma nth_map_seq {T} (f : nat -> T) (d : T) (n i : nat) :
  i < n -> nth i (map f (seq 0 n)) d = f i.
Proof.
  intro Hi.
  rewrite (nth_indep _ d (f 0)) by (rewrite length_map, length_seq; exact Hi).
  rewrite (map_nth f (seq 0 n) 0 i), seq_nth by exact Hi.
  reflexivity.
Qed.

Lemma map_from_length {T U} (f : nat -> T -> outcome U) (arr : list T) :
  forall idx out, map_from f arr idx = Returns out -> length out = length arr.
Proof.
  induction arr as [|x rest IH]; intros idx out H; simpl in H.
  - injection H as <-. reflexivity.
  - destruct (f idx x) as [y|]; simpl in H; [|discriminate].
    destruct (map_from f rest (S idx)) as [ys|] eqn:E; simpl in H; [|discriminate].
    injection H as <-. simpl. f_equal. eapply IH, E.
Qed.

Lemma map_from_nth_error {T U} (f : nat -> T -> outcome U) (arr : list T) :
  forall idx out i x,
    map_from f arr idx = Returns out ->
    nth_error arr i = Some x ->
    exists y, nth_error out i = Some y /\ f (idx + i) x = Returns y.
Proof.
  induction arr as [|a rest IH]; intros idx out i x H Hx.
  - destruct i; discriminate.
  - simpl in H.
    destruct (f idx a) as [y|] eqn:Ey; simpl in H; [|discriminate].
    destruct (map_from f rest (S idx)) as [ys|] eqn:E; simpl in H; [|discriminate].
    injection H as <-.
    destruct i as [|i]; simpl in Hx.
    + injection Hx as <-. exists y. rewrite Nat.add_0_r. split; [reflexivity|exact Ey].
    + destruct (IH _ _ _ _ E Hx) as (z & Hz & Hf).
      exists z. split; [exact Hz|]. rewrite <- Hf. f_equal. lia.
Qed.

Lemma map_from_returns {T U} (f : nat -> T -> outcome U) (arr : list T) :
  forall idx,
    (forall i x, nth_error arr i = Some x -> exists y, f (idx + i) x = Returns y) ->
    exists out, map_from f arr idx = Returns out.
Proof.
  induction arr as [|a rest IH]; intros idx Hf; simpl.
  - eexists; reflexivity.
  - destruct (Hf 0 a eq_refl) as (y & Hy). rewrite Nat.add_0_r in Hy. rewrite Hy. simpl.
    destruct (IH (S idx)) as (ys & Hys).
    + intros i x Hx. destruct (Hf (S i) x Hx) as (z & Hz).
      exists z. rewrite <- Hz. f_equal. lia.
    + rewrite Hys. simpl. eexists; reflexivity.
Qed.

Lemma map_from_loops {T U} (f : nat -> T -> outcome U) (arr : list T) :
  forall idx,
    map_from f arr idx = Loops ->
    exists i x, nth_error arr i = Some x /\ f (idx + i) x = Loops.
Proof.
  induction arr as [|a rest IH]; intros idx H; simpl in H; [discriminate|].
  destruct (f idx a) as [y|] eqn:Ey; simpl in H.
  - destruct (map_from f rest (S idx)) as [ys|] eqn:E; simpl in H; [discriminate|].
    destruct (IH _ E) as (i & x & Hx & Hf).
    exists (S i), x. split; [exact Hx|]. rewrite <- Hf. f_equal. lia.
  - exists 0, a. rewrite Nat.add_0_r. split; [reflexivity|exact Ey].
Qed.

Section Structure.

Context {num : Type} {JN : JsNumber num}.

Lemma slidingCorrelation_length (seriesA seriesB : list num) (window : num) :
  length (slidingCorrelation seriesA seriesB window)
  = Nat.min (length seriesA) (length seriesB).
Proof.
  unfold slidingCorrelation. rewrite length_map, length_seq. reflexivity.
Qed.

Lemma computeCointegrationZScore_length (seriesA seriesB : list num) (window : num) :
  length (computeCointegrationZScore seriesA seriesB window)
  = Nat.min (length seriesA) (length seriesB).
Proof.
  unfold computeCointegrationZScore.
  destruct (Nat.min (length seriesA) (length seriesB) =? 0)%nat;
    [apply repeat_length|].
  destruct (negb (valid (performLinearRegression seriesA seriesB)));
    [apply repeat_length|].
  rewrite length_map, length_seq. reflexivity.
Qed.

Lemma smoothSeries_length (values : list (option num)) (radius : num) out :
  smoothSeries values radius = Returns out -> length out = length values.
Proof.
  unfold smoothSeries.
  destruct (int_eqb (smoothingRadius radius) (I_fin 0)).
  - intros [= <-]. reflexivity.
  - apply map_from_length.
Qed.

Lemma smoothLoop_exits (values : list (option num)) idx windowRadius :
  loopExits windowRadius = true ->
  exists st, smoothLoop values idx windowRadius = Returns st.
Proof.
  destruct windowRadius as [| | |r]; simpl; intro H; try discriminate;
    try (eexists; reflexivity).
  rewrite H. eexists; reflexivity.
Qed.

Lemma smoothSeries_returns (values : list (option num)) (radius : num) :
  loopExits (smoothingRadius radius) = true ->
  exists out, smoothSeries values radius = Returns out.
Proof.
  intro H. unfold smoothSeries.
  destruct (int_eqb (smoothingRadius radius) (I_fin 0)); [eexists; reflexivity|].
  apply map_from_returns. intros i [v|] _; simpl.
  - destruct (smoothLoop_exits values i _ H) as (st & ->). simpl. eexists; reflexivity.
  - eexists; reflexivity.
Qed.

Lemma smoothSeries_loops (values : list (option num)) (radius : num) :
  smoothSeries values radius = Loops ->
  loopExits (smoothingRadius radius) = false /\
  exists i v, nth_error values i = Some (Some v).
Proof.
  unfold smoothSeries.
  destruct (int_eqb (smoothingRadius radius) (I_fin 0)); [discriminate|].
  intro H. apply map_from_loops in H. destruct H as (i & x & Hx & Hf).
  destruct x as [v|]; simpl in Hf; [|discriminate].
  split; [|exists i, v; exact Hx].
  destruct (loopExits (smoothingRadius radius)) eqn:E; [|reflexivity].
  destruct (smoothLoop_exits values i _ E) as (st & Hst).
  simpl in Hf. rewrite Hst in Hf. discriminate.
Qed.

End Structure.

(** ** Slices *)

Lemma firstn_skipn_seq {T} (d : T) (arr : list T) :
  forall k n, k + n <= length arr ->
    firstn n (skipn k arr) = map (fun j => nth j arr d) (seq k n).
Proof.
  induction arr as [|x rest IH]; intros k n H; simpl in H.
  - assert (n = 0) by lia. subst. destruct k; reflexivity.
  - destruct k as [|k].
    + destruct n as [|n]; [reflexivity|].
      simpl. f_equal.
      specialize (IH 0 n). simpl in IH. rewrite IH by lia.
      rewrite <- seq_shift, map_map. reflexivity.
    + simpl skipn. rewrite IH by lia.
      rewrite <- seq_shift, map_map. reflexivity.
Qed.

Lemma Array_slice_fin {T} (arr : list T) (z : Z) (stop : nat) :
  (0 <= z)%Z -> Z.to_nat z <= stop -> stop <= length arr ->
  Array_slice arr (I_fin z) stop = firstn (stop - Z.to_nat z) (skipn (Z.to_nat z) arr).
Proof.
  intros Hz Hzs Hs. unfold Array_slice, slice_start.
  destruct (Z.ltb_spec z 0); [lia|].
  rewrite !Nat.min_l by lia. reflexivity.
Qed.

Lemma Array_slice_trailing {T} (d : T) (arr : list T) (i w : nat) :
  w <= i -> i <= length arr ->
  Array_slice arr (int_sub (of_index i) (I_fin (Z.of_nat w))) i = trailingWindow d arr i w.
Proof.
  intros Hw Hi. unfold of_index, int_sub, trailingWindow.
  rewrite Array_slice_fin by lia.
  replace (Z.to_nat (Z.of_nat i - Z.of_nat w)) with (i - w) by lia.
  replace (i - (i - w)) with w by lia.
  apply firstn_skipn_seq. lia.
Qed.

Lemma Array_slice_nan {T} (arr : list T) (stop : nat) :
  stop <= length arr -> Array_slice arr I_nan stop = firstn stop arr.
Proof.
  intro H. unfold Array_slice, slice_start. simpl.
  rewrite Nat.min_l, Nat.sub_0_r by lia. reflexivity.
Qed.

Lemma trailingWindow_length {T} (d : T) (arr : list T) (i w : nat) :
  length (trailingWindow d arr i w) = w.
Proof. unfold trailingWindow. rewrite length_map, length_seq. reflexivity. Qed.

Lemma Math_max_floor_cases (x : integral) (lo : Z) :
  match Math_max x (I_fin lo) with
  | I_nan => x = I_nan
  | I_neginf => False
  | I_posinf => x = I_posinf
  | I_fin W => (lo <= W)%Z /\ (x = I_neginf \/ exists z, x = I_fin z /\ W = Z.max z lo)
  end.
Proof.
  destruct x as [| | |z]; simpl; auto.
  - split; [lia|]. left; reflexivity.
  - split; [lia|]. right. exists z. split; reflexivity.
Qed.

Section Correlator.

Context {num : Type} {JN : JsNumber num}.

Lemma slidingCorrelation_nth (seriesA seriesB : list num) (window : num) (i : nat) :
  i < Nat.min (length seriesA) (length seriesB) ->
  nth i (slidingCorrelation seriesA seriesB window) None
  = correlationAt seriesA seriesB (correlationWindow window) i.
Proof. intro Hi. unfold slidingCorrelation. apply nth_map_seq, Hi. Qed.

Lemma correlationAt_fin (seriesA seriesB : list num) (W : Z) (i : nat) :
  (1 <= W)%Z -> i <= length seriesA -> i <= length seriesB ->
  correlationAt seriesA seriesB (I_fin W) i
  = if (Z.of_nat i <? W)%Z then None
    else windowCorrelation (trailingWindow num_nan seriesA i (Z.to_nat W))
           (trailingWindow num_nan seriesB i (Z.to_nat W)) (of_integral (I_fin W)).
Proof.
  intros HW HA HB. unfold correlationAt. simpl int_ltb.
  destruct (Z.ltb_spec (Z.of_nat i) W); [reflexivity|].
  rewrite <- (Z2Nat.id W) at 1 2 by lia.
  rewrite !(Array_slice_trailing num_nan) by lia.
  reflexivity.
Qed.

End Correlator.

(** ** The smoother *)

Section Smoother.

Context {num : Type} {JN : JsNumber num}.

Lemma smoothStep_count_mono (values : list (option num)) idx st offset :
  snd st <= snd (smoothStep values idx st offset).
Proof.
  unfold smoothStep.
  destruct (_ || _); [lia|].
  destruct (nth _ values None) as [v|]; [|lia].
  destruct (negb (Number_isFinite v)); simpl; lia.
Qed.

Lemma smoothLoop_count_mono (values : list (option num)) idx offs :
  forall st, snd st <= snd (fold_left (smoothStep values idx) offs st).
Proof.
  induction offs as [|o rest IH]; intro st; simpl; [lia|].
  etransitivity; [apply smoothStep_count_mono|apply IH].
Qed.

Lemma smoothSeries_nth_error (values : list (option num)) (radius : num) out i x :
  smoothSeries values radius = Returns out ->
  nth_error values i = Some x ->
  if int_eqb (smoothingRadius radius) (I_fin 0) then nth_error out i = Some x
  else exists y, nth_error out i = Some y
                 /\ smoothAt values (smoothingRadius radius) i x = Returns y.
Proof.
  unfold smoothSeries. intros H Hx.
  destruct (int_eqb (smoothingRadius radius) (I_fin 0)).
  - injection H as <-. exact Hx.
  - exact (map_from_nth_error _ _ _ _ H Hx).
Qed.

End Smoother.

Section SmootherWindow.

Context {num : Type} {JN : JsNumber num}.

(** The step at an offset counts exactly the finite neighbours. *)
Lemma smoothStep_count (values : list (option num)) idx st offset :
  snd (smoothStep values idx st offset) = S (snd st)
  /\ (exists (j : nat) (w : num),
         Z.of_nat j = (Z.of_nat idx + offset)%Z
         /\ nth_error values j = Some (Some w) /\ Number_isFinite w = true)
  \/ snd (smoothStep values idx st offset) = snd st
     /\ ~ (exists (j : nat) (w : num),
             Z.of_nat j = (Z.of_nat idx + offset)%Z
             /\ nth_error values j = Some (Some w) /\ Number_isFinite w = true).
Proof.
  unfold smoothStep.
  destruct (Z.ltb_spec (Z.of_nat idx + offset) 0) as [Hneg|Hpos]; cbn [orb].
  { right. split; [reflexivity|]. intros (j & w & Hj & _). lia. }
  destruct (Z.geb_spec (Z.of_nat idx + offset) (Z.of_nat (length values))) as [Hge|Hlt].
  { right. split; [reflexivity|]. intros (j & w & Hj & Hw & _).
    assert (j < length values) by (apply nth_error_Some; congruence). lia. }
  assert (Hlen : Z.to_nat (Z.of_nat idx + offset) < length values) by lia.
  destruct (nth_error values (Z.to_nat (Z.of_nat idx + offset))) as [x|] eqn:E;
    [|apply nth_error_None in E; lia].
  rewrite (nth_error_nth _ _ _ E).
  destruct x as [w|].
  - destruct (Number_isFinite w) eqn:F; cbn [negb].
    + left. split; [reflexivity|].
      exists (Z.to_nat (Z.of_nat idx + offset)), w. split; [lia|]. split; assumption.
    + right. split; [reflexivity|]. intros (j & w' & Hj & Hw & F').
      replace j with (Z.to_nat (Z.of_nat idx + offset)) in Hw by lia. congruence.
  - right. split; [reflexivity|]. intros (j & w' & Hj & Hw & F').
    replace j with (Z.to_nat (Z.of_nat idx + offset)) in Hw by lia. congruence.
Qed.

Lemma smoothLoop_count_iff (values : list (option num)) idx offs :
  forall st,
    snd st < snd (fold_left (smoothStep values idx) offs st)
    <-> exists offset (j : nat) (w : num),
          In offset offs /\ Z.of_nat j = (Z.of_nat idx + offset)%Z
          /\ nth_error values j = Some (Some w) /\ Number_isFinite w = true.
Proof.
  induction offs as [|o rest IH]; intro st; simpl.
  - split; [lia|]. intros (offset & _ & _ & [] & _).
  - pose proof (smoothLoop_count_mono values idx rest (smoothStep values idx st o)) as M.
    destruct (smoothStep_count values idx st o) as [[E W]|[E W]].
    + split; [|lia]. intros _. destruct W as (j & w & Hj & Hw & F).
      exists o, j, w. auto.
    + rewrite <- E. rewrite IH. split.
      * intros (offset & j & w & Hin & H). exists offset, j, w. auto.
      * intros (offset & j & w & [->|Hin] & Hj & Hw & F).
        -- exfalso. apply W. exists j, w. auto.
        -- exists offset, j, w. auto.
Qed.

Lemma In_offsets (r offset : Z) : In offset (offsets r) <-> (- r <= offset <= r)%Z.
Proof.
  unfold offsets. rewrite in_map_iff. split.
  - intros (k & <- & Hk). apply in_seq in Hk. lia.
  - intro H. exists (Z.to_nat (offset + r)). split; [lia|]. apply in_seq. lia.
Qed.

Lemma smoothLoop_count_near (values : list (option num)) idx (r : Z) :
  0 < snd (fold_left (smoothStep values idx) (offsets r) (num_zero, 0))
  <-> finiteNear values idx r.
Proof.
  rewrite (smoothLoop_count_iff values idx (offsets r) (num_zero, 0)).
  unfold finiteNear. split.
  - intros (offset & j & w & Hin & Hj & Hw & F). apply In_offsets in Hin.
    exists j, w. split; [lia|]. auto.
  - intros (j & w & Hj & Hw & F).
    exists (Z.of_nat j - Z.of_nat idx)%Z, j, w.
    split; [apply In_offsets; lia|]. split; [lia|]. auto.
Qed.

Lemma smoothSeries_defined_iff (values : list (option num)) (radius : num)
  (out : list (option num)) (i : nat) :
  smoothSeries values radius = Returns out ->
  Math_floor radius <> I_nan ->
  (exists u, nth_error out i = Some (Some u))
  <-> (exists v, nth_error values i = Some (Some v))
      /\ (smoothingRadius radius = I_fin 0
          \/ exists r, smoothingRadius radius = I_fin r /\ finiteNear values i r).
Proof.
  intros H Hnan.
  pose proof (smoothSeries_length _ _ H) as Hlen.
  pose proof (Math_max_floor_cases (Math_floor radius) 0) as C.
  fold (smoothingRadius radius) in C.
  destruct (nth_error values i) as [x|] eqn:Ex.
  2:{ split.
      - intros (u & Hu). apply nth_error_None in Ex.
        assert (i < length out) by (apply nth_error_Some; congruence). lia.
      - intros ((v & Hv) & _). discriminate. }
  pose proof (smoothSeries_nth_error _ _ _ H Ex) as P.
  destruct (int_eqb (smoothingRadius radius) (I_fin 0)) eqn:E0.
  - assert (R0 : smoothingRadius radius = I_fin 0).
    { destruct (smoothingRadius radius) as [| | |r]; try discriminate.
      simpl in E0. apply Z.eqb_eq in E0. congruence. }
    rewrite P. split.
    + intros (u & Hu). split; [exists u; exact Hu|left; exact R0].
    + intros ((v & Hv) & _). exists v. exact Hv.
  - destruct P as (y & Hy & Hf). rewrite Hy.
    destruct x as [v|]; simpl in Hf.
    2:{ injection Hf as <-. split.
        - intros (u & Hu). discriminate.
        - intros ((v & Hv) & _). discriminate. }
    destruct (smoothingRadius radius) as [| | |r]; simpl in Hf; try contradiction;
      try discriminate.
    destruct (r <? max_safe_count)%Z; simpl in Hf; [|discriminate].
    injection Hf as <-.
    pose proof (smoothLoop_count_near values i r) as N.
    destruct (Nat.ltb_spec 0
                (snd (fold_left (smoothStep values i) (offsets r) (num_zero, 0))))
      as [Hpos|Hzero].
    + split.
      * intros _. split; [exists v; reflexivity|]. right. exists r.
        split; [reflexivity|]. apply N, Hpos.
      * intros _. eexists. reflexivity.
    + split.
      * intros (u & Hu). discriminate.
      * intros (_ & [R0|(r' & Hr' & Near)]).
        -- injection R0 as ->. simpl in E0. discriminate.
        -- injection Hr' as <-. apply N in Near. lia.
Qed.

End SmootherWindow.

(** ** The regression *)

Section Regression.

Context {num : Type} {JN : JsNumber num}.

Lemma collectPairs_filter (seriesA seriesB : list num) :
  collectPairs seriesA seriesB
  = filter (fun p => Number_isFinite (fst p) && Number_isFinite (snd p))
      (combine seriesA seriesB).
Proof.
  revert seriesB. induction seriesA as [|a restA IH]; intros [|b restB]; simpl;
    try reflexivity.
  unfold isFiniteNumber.
  destruct (Number_isFinite a), (Number_isFinite b); simpl; rewrite IH; reflexivity.
Qed.

Lemma performLinearRegression_invalid (seriesA seriesB : list num) :
  finitePairCount seriesA seriesB < 2 ->
  performLinearRegression seriesA seriesB
  = {| alpha := num_zero; beta := num_zero; valid := false |}.
Proof.
  unfold finitePairCount. rewrite <- collectPairs_filter. intro H.
  unfold performLinearRegression.
  apply Nat.ltb_lt in H. rewrite H. reflexivity.
Qed.

Lemma performLinearRegression_valid (seriesA seriesB : list num) :
  valid (performLinearRegression seriesA seriesB)
  = (2 <=? finitePairCount seriesA seriesB)%nat.
Proof.
  unfold finitePairCount. rewrite <- collectPairs_filter.
  unfold performLinearRegression.
  destruct (Nat.ltb_spec (length (collectPairs seriesA seriesB)) 2) as [H|H].
  - cbn [valid]. symmetry. apply Nat.leb_gt. exact H.
  - transitivity true.
    + destruct (_ === _)%js; reflexivity.
    + symmetry. apply Nat.leb_le. exact H.
Qed.

End Regression.

(** ** Symmetry of the correlator *)

(** IEEE multiplication commutes: the specification [SFmul] is symmetric in
    its operands. *)
Lemma SFmul_comm (x y : spec_float) : SF64mul x y = SF64mul y x.
Proof.
  unfold SF64mul, SFmul.
  destruct x as [sx|sx| |sx mx ex], y as [sy|sy| |sy my ey];
    try reflexivity; rewrite (xorb_comm sx sy); try reflexivity.
  rewrite (Pos.mul_comm mx my), (Z.add_comm ex ey). reflexivity.
Qed.

Lemma float_mul_comm (x y : float) : PrimFloat.mul x y = PrimFloat.mul y x.
Proof. apply Prim2SF_inj. rewrite !mul_spec. apply SFmul_comm. Qed.

Lemma reduce_from_combine {T Acc} (F : Acc -> T -> T -> Acc) (d : T) (arrA : list T) :
  forall (arrB pre : list T) (acc : Acc),
    length arrA = length arrB ->
    reduce_from (fun acc a idx => F acc a (nth idx (pre ++ arrB) d)) arrA (length pre) acc
    = fold_left (fun acc p => F acc (fst p) (snd p)) (combine arrA arrB) acc.
Proof.
  induction arrA as [|a restA IH]; intros [|b restB] pre acc H; try discriminate;
    [reflexivity|].
  simpl. rewrite nth_middle.
  specialize (IH restB (pre ++ [b]) (F acc a b)).
  rewrite length_app, Nat.add_1_r, <- app_assoc in IH. simpl in IH.
  apply IH. simpl in H. lia.
Qed.

Lemma Array_reduce_idx_combine {T Acc} (F : Acc -> T -> T -> Acc) (d : T)
  (arrA arrB : list T) (acc : Acc) :
  length arrA = length arrB ->
  Array_reduce_idx (fun acc a idx => F acc a (nth idx arrB d)) arrA acc
  = fold_left (fun acc p => F acc (fst p) (snd p)) (combine arrA arrB) acc.
Proof. intro H. exact (reduce_from_combine F d arrA arrB [] acc H). Qed.

Lemma fold_left_combine_swap {T Acc} (F G : Acc -> T -> T -> Acc) (arrA : list T) :
  (forall acc a b, F acc a b = G acc b a) ->
  forall (arrB : list T) (acc : Acc),
    fold_left (fun acc p => F acc (fst p) (snd p)) (combine arrA arrB) acc
    = fold_left (fun acc p => G acc (fst p) (snd p)) (combine arrB arrA) acc.
Proof.
  intro HFG. induction arrA as [|a restA IH]; intros [|b restB] acc; try reflexivity.
  simpl. rewrite HFG. apply IH.
Qed.

Section Symmetry.

Context {num : Type} {JN : JsNumber num}.
Hypothesis num_mul_comm : forall x y : num, num_mul x y = num_mul y x.

Lemma windowCorrelation_sym (sliceA sliceB : list num) (safeWindow : num) :
  length sliceA = length sliceB ->
  windowCorrelation sliceA sliceB safeWindow = windowCorrelation sliceB sliceA safeWindow.
Proof.
  intro H. unfold windowCorrelation.
  set (meanA := (Array_reduce (fun a b => a + b) sliceA num_zero / safeWindow)%js).
  set (meanB := (Array_reduce (fun a b => a + b) sliceB num_zero / safeWindow)%js).
  set (stdA := Math_sqrt (Array_reduce _ sliceA num_zero / safeWindow)%js).
  set (stdB := Math_sqrt (Array_reduce _ sliceB num_zero / safeWindow)%js).
  rewrite (orb_comm (stdB === num_zero)%js).
  destruct ((stdA === num_zero)%js || (stdB === num_zero)%js); [reflexivity|].
  rewrite (num_mul_comm stdB stdA). do 3 f_equal.
  rewrite (Array_reduce_idx_combine
             (fun acc a b => acc + (a - meanA) * (b - meanB))%js num_nan sliceA sliceB)
    by exact H.
  rewrite (Array_reduce_idx_combine
             (fun acc b a => acc + (b - meanB) * (a - meanA))%js num_nan sliceB sliceA)
    by (symmetry; exact H).
  apply (fold_left_combine_swap
           (fun acc a b => acc + (a - meanA) * (b - meanB))%js
           (fun acc b a => acc + (b - meanB) * (a - meanA))%js).
  intros acc a b. f_equal. apply num_mul_comm.
Qed.

Lemma correlationAt_sym (seriesA seriesB : list num) (window : num) (i : nat) :
  i < Nat.min (length seriesA) (length seriesB) ->
  correlationAt seriesA seriesB (correlationWindow window) i
  = correlationAt seriesB seriesA (correlationWindow window) i.
Proof.
  intro Hi.
  pose proof (Math_max_floor_cases (Math_floor window) 1) as C.
  fold (correlationWindow window) in C.
  destruct (correlationWindow window) as [| | |W].
  - unfold correlationAt. simpl.
    rewrite !Array_slice_nan by lia.
    apply windowCorrelation_sym. rewrite !length_firstn. lia.
  - contradiction.
  - reflexivity.
  - destruct C as [HW _]. rewrite !correlationAt_fin by lia.
    destruct (Z.of_nat i <? W)%Z; [reflexivity|].
    apply windowCorrelation_sym. rewrite !trailingWindow_length. reflexivity.
Qed.

Lemma slidingCorrelation_sym (seriesA seriesB : list num) (window : num) :
  slidingCorrelation seriesA seriesB window = slidingCorrelation seriesB seriesA window.
Proof.
  unfold slidingCorrelation.
  rewrite (Nat.min_comm (length seriesB)).
  apply map_ext_in. intros i Hi. apply in_seq in Hi.
  apply correlationAt_sym. lia.
Qed.

End Symmetry.

(** ** Self-correlation *)


Section SelfCorrelation.

Context {num : Type} {JN : JsNumber num}.
Local Open Scope js_scope.


End SelfCorrelation.

(** ** Regressing a series on itself *)

Section SelfRegression.

Context {num : Type} {JN : JsNumber num}.




End SelfRegression.

Section ExactRegression.

Local Open Scope R_scope.









End ExactRegression.

(** ** Facts of binary64 arithmetic *)



Lemma SFeqb_refl (x : spec_float) : SFeqb x x = negb (match x with S754_nan => true | _ => false end).
Proof.
  unfold SFeqb, SFcompare.
  destruct x as [s|s| |s m e]; try destruct s; try reflexivity;
    rewrite Z.compare_refl, Pos.compare_cont_refl; reflexivity.
Qed.

Lemma is_finite_spec (x : float) : PrimFloat.is_finite x = SFfinite (Prim2SF x).
Proof.
  unfold PrimFloat.is_finite, is_nan, is_infinity.
  rewrite !eqb_spec, abs_spec, SFeqb_refl.
  change (Prim2SF infinity) with (S754_infinity false).
  destruct (Prim2SF x) as [s|s| |s m e]; try destruct s; reflexivity.
Qed.

Lemma eqb_zero_spec (x : float) : PrimFloat.eqb x PrimFloat.zero = SFis_zero (Prim2SF x).
Proof.
  rewrite eqb_spec. change (Prim2SF PrimFloat.zero) with (S754_zero false).
  destruct (Prim2SF x) as [s|s| |s m e]; try destruct s; reflexivity.
Qed.

(** [d / d] is 1 for a finite, non-zero [d]. *)
Lemma SFdiv_self (s : bool) (m : positive) (e : Z) :
  SF64div (S754_finite s m e) (S754_finite s m e) = Prim2SF PrimFloat.one.
Proof.
  unfold SF64div, SFdiv, SFdiv_core_binary.
  replace (Zdigits2 (Z.pos m) + e - (Zdigits2 (Z.pos m) + e))%Z with 0%Z by lia.
  replace (e - e)%Z with 0%Z by lia.
  change (Z.min (fexp prec emax 0) 0) with (-53)%Z.
  change (0 - -53)%Z with 53%Z.
  rewrite Z.shiftl_mul_pow2 by lia.
  assert (Hq : Z.div_eucl (Z.pos m * 2 ^ 53) (Z.pos m) = (2 ^ 53, 0)%Z).
  { pose proof (Z.div_eucl_eq (Z.pos m * 2 ^ 53) (Z.pos m)) as E.
    pose proof (Z.mod_pos_bound (Z.pos m * 2 ^ 53) (Z.pos m)) as B.
    unfold Z.modulo in B.
    destruct (Z.div_eucl (Z.pos m * 2 ^ 53) (Z.pos m)) as [q r].
    specialize (E ltac:(lia)). specialize (B ltac:(lia)).
    assert (q = 2 ^ 53)%Z by nia. subst q.
    f_equal. lia. }
  rewrite Hq.
  assert (Hl : new_location (Z.pos m) 0 = loc_Exact).
  { unfold new_location. destruct (Z.even (Z.pos m)); reflexivity. }
  rewrite Hl, xorb_nilpotent. vm_compute. reflexivity.
Qed.

Lemma SFmul_one_l (x : spec_float) :
  valid_binary x = true -> SF64mul (Prim2SF PrimFloat.one) x = x.
Proof.
  change (Prim2SF PrimFloat.one) with (S754_finite false 4503599627370496 (-52)).
  destruct x as [s|s| |s m e]; try reflexivity.
  unfold SpecFloat.valid_binary, bounded, canonical_mantissa. intro V.
  apply andb_prop in V. destruct V as [C B]. apply Z.eqb_eq in C.
  unfold SF64mul, SFmul, binary_round_aux, shr_fexp.
  assert (D : Zdigits2 (Z.pos (4503599627370496 * m))
              = (Z.pos (digits2_pos m) + 52)%Z).
  { cbn [Zdigits2 Pos.mul digits2_pos]. lia. }
  rewrite D.
  replace (Z.pos (digits2_pos m) + 52 + (-52 + e))%Z
    with (Z.pos (digits2_pos m) + e)%Z by lia.
  rewrite C. replace (e - (-52 + e))%Z with 52%Z by lia.
  unfold shr.
  assert (S : SpecFloat.iter_pos shr_1 52%positive
                (shr_record_of_loc (Z.pos (4503599627370496 * m)) loc_Exact)
              = {| shr_m := Z.pos m; shr_r := false; shr_s := false |})
    by reflexivity.
  rewrite S. cbn [shr_m loc_of_shr_record round_nearest_even shr_record_of_loc Zdigits2].
  replace (-52 + e + 52)%Z with e by lia.
  rewrite C, Z.sub_diag. cbn [shr_m]. rewrite B. reflexivity.
Qed.

Lemma float_mul_one_l (x : float) : PrimFloat.mul PrimFloat.one x = x.
Proof.
  apply Prim2SF_inj. rewrite mul_spec. apply SFmul_one_l, Prim2SF_valid.
Qed.

Lemma float_div_self (d : float) :
  PrimFloat.is_finite d = true -> PrimFloat.eqb d PrimFloat.zero = false ->
  PrimFloat.div d d = PrimFloat.one.
Proof.
  rewrite is_finite_spec, eqb_zero_spec. intros F Z.
  apply Prim2SF_inj. rewrite div_spec.
  destruct (Prim2SF d) as [s|s| |s m e]; try discriminate.
  apply SFdiv_self.
Qed.

Lemma float_sub_self (x : float) :
  PrimFloat.is_finite x = true -> PrimFloat.sub x x = PrimFloat.zero.
Proof.
  rewrite is_finite_spec. intro F.
  apply Prim2SF_inj. rewrite sub_spec.
  change (Prim2SF PrimFloat.zero) with (S754_zero false).
  destruct (Prim2SF x) as [s|s| |s m e]; try discriminate.
  - destruct s; reflexivity.
  - unfold SF64sub, SFsub. rewrite Z.sub_diag. reflexivity.
Qed.

(** *** Rounding keeps a positive mantissa positive *)

Lemma shr_1_spec (mrs : shr_record) :
  (0 <= shr_m mrs)%Z ->
  (0 <= shr_m (shr_1 mrs))%Z
  /\ Zdigits2 (shr_m (shr_1 mrs)) = Z.max 0 (Zdigits2 (shr_m mrs) - 1).
Proof.
  destruct mrs as [m r s]. cbn [shr_m]. intro H.
  destruct m as [|p|p]; [simpl; lia| |lia].
  destruct p; cbn [shr_1 shr_m Zdigits2 digits2_pos]; lia.
Qed.

Lemma iter_shr_1_spec (p : positive) :
  forall mrs : shr_record,
    (0 <= shr_m mrs)%Z ->
    (0 <= shr_m (SpecFloat.iter_pos shr_1 p mrs))%Z
    /\ Zdigits2 (shr_m (SpecFloat.iter_pos shr_1 p mrs))
       = Z.max 0 (Zdigits2 (shr_m mrs) - Z.pos p).
Proof.
  induction p as [p IH|p IH|]; intros mrs H; cbn [SpecFloat.iter_pos].
  - destruct (shr_1_spec mrs H) as [H1 D1].
    destruct (IH _ H1) as [H2 D2]. destruct (IH _ H2) as [H3 D3].
    split; [exact H3|]. rewrite D3, D2, D1. lia.
  - destruct (IH _ H) as [H2 D2]. destruct (IH _ H2) as [H3 D3].
    split; [exact H3|]. rewrite D3, D2. lia.
  - apply shr_1_spec, H.
Qed.

Lemma Zdigits2_pos (z : Z) : (0 < z)%Z -> (0 < Zdigits2 z)%Z.
Proof. destruct z; simpl; lia. Qed.

Lemma Zdigits2_pos_inv (z : Z) : (0 <= z)%Z -> (0 < Zdigits2 z)%Z -> (0 < z)%Z.
Proof. destruct z; simpl; lia. Qed.

Lemma shr_record_of_loc_m (m : Z) (l : location) : shr_m (shr_record_of_loc m l) = m.
Proof. destruct l as [|[]]; reflexivity. Qed.

Lemma shr_fexp_pos (m e : Z) (l : location) :
  (0 < m)%Z -> (-1074 <= e)%Z ->
  (0 < shr_m (fst (shr_fexp prec emax m e l)))%Z
  /\ (-1074 <= snd (shr_fexp prec emax m e l))%Z.
Proof.
  intros Hm He. unfold shr_fexp, shr.
  pose proof (Zdigits2_pos Hm) as HD.
  assert (F : fexp prec emax (Zdigits2 m + e)
              = Z.max (Zdigits2 m + e - 53) (-1074)) by reflexivity.
  destruct (fexp prec emax (Zdigits2 m + e) - e)%Z as [|n|n] eqn:En;
    cbn [fst snd]; rewrite ?shr_record_of_loc_m; try (split; lia).
  destruct (iter_shr_1_spec n (shr_record_of_loc m l)) as [H1 D1];
    [rewrite shr_record_of_loc_m; lia|].
  rewrite shr_record_of_loc_m in D1.
  split; [|lia].
  apply Zdigits2_pos_inv; [exact H1|]. rewrite D1. lia.
Qed.

Lemma round_nearest_even_pos (m : Z) (l : location) :
  (0 < m)%Z -> (0 < round_nearest_even m l)%Z.
Proof.
  intro H. destruct l as [|[]]; cbn [round_nearest_even]; try lia.
  destruct (Z.even m); lia.
Qed.

Lemma binary_round_aux_signed (s : bool) (m e : Z) (l : location) :
  (0 < m)%Z -> (-1074 <= e)%Z ->
  SFsigned s (binary_round_aux prec emax s m e l).
Proof.
  intros Hm He. unfold binary_round_aux.
  destruct (shr_fexp_pos l Hm He) as [H1 E1].
  destruct (shr_fexp prec emax m e l) as [mrs' e']. cbn [fst snd] in H1, E1.
  pose proof (round_nearest_even_pos (loc_of_shr_record mrs') H1) as H2.
  destruct (shr_fexp_pos loc_Exact H2 E1) as [H3 E3].
  destruct (shr_fexp prec emax _ e' loc_Exact) as [mrs'' e'']. cbn [fst snd] in H3, E3.
  destruct (shr_m mrs'') as [|q|q]; try lia.
  destruct (e'' <=? emax - prec)%Z; reflexivity.
Qed.

Lemma binary_normalize_pos (k : positive) :
  SFsigned false (binary_normalize prec emax (Z.pos k) 0 false).
Proof.
  unfold binary_normalize, binary_round, shl_align.
  assert (F : fexp prec emax (Z.pos (digits2_pos k) + 0)
              = Z.max (Z.pos (digits2_pos k) + 0 - 53) (-1074)) by reflexivity.
  destruct (fexp prec emax (Z.pos (digits2_pos k) + 0) - 0)%Z eqn:En;
    apply binary_round_aux_signed; lia.
Qed.

(** The length of a non-empty array, as a double: positive or [Infinity]. *)
Lemma float_of_Z_pos (z : Z) :
  (0 < z < 2 ^ 63)%Z -> SFsigned false (Prim2SF (float_of_Z z)).
Proof.
  intro H. unfold float_of_Z.
  destruct (Z.leb_spec 0 z); [|lia]. destruct (Z.ltb_spec z (2 ^ 63)); [|lia].
  cbn [andb]. rewrite of_uint63_spec, Uint63.of_Z_spec.
  rewrite Z.mod_small by (change Uint63.wB with (2 ^ 63)%Z; lia).
  destruct z as [|k|k]; try lia. apply binary_normalize_pos.
Qed.

(** *** Zeros *)

(** Reads a statement about doubles on their specification. *)
Ltac float_spec :=
  unfold float_is_zero in *;
  rewrite ?eqb_zero_spec, ?is_finite_spec in *;
  repeat rewrite ?add_spec, ?sub_spec, ?mul_spec, ?div_spec, ?sqrt_spec in *.

Lemma float_zero_add (x y : float) :
  float_is_zero x -> float_is_zero y -> float_is_zero (PrimFloat.add x y).
Proof.
  float_spec.
  destruct (Prim2SF x) as [sx|sx| |sx mx ex], (Prim2SF y) as [sy|sy| |sy my ey];
    try discriminate.
  destruct sx, sy; reflexivity.
Qed.


Lemma float_zero_mul (x y : float) :
  float_is_zero x -> float_is_zero y -> float_is_zero (PrimFloat.mul x y).
Proof.
  float_spec.
  destruct (Prim2SF x) as [sx|sx| |sx mx ex], (Prim2SF y) as [sy|sy| |sy my ey];
    try discriminate.
  reflexivity.
Qed.

Lemma float_zero_sqrt (x : float) : float_is_zero x -> float_is_zero (PrimFloat.sqrt x).
Proof.
  float_spec. destruct (Prim2SF x) as [sx|sx| |sx mx ex]; try discriminate.
  reflexivity.
Qed.

Lemma float_zero_div (x n : float) :
  float_is_zero x -> SFsigned false (Prim2SF n) -> float_is_zero (PrimFloat.div x n).
Proof.
  float_spec.
  destruct (Prim2SF x) as [sx|sx| |sx mx ex], (Prim2SF n) as [sn|sn| |sn mn en];
    try discriminate; try contradiction; reflexivity.
Qed.





(** *** The regression of a series on itself, in doubles *)

Section SelfRegressionShape.

Context {num : Type} {JN : JsNumber num}.
Local Open Scope js_scope.






End SelfRegressionShape.









(** ** Exact arithmetic *)

Section ExactArithmetic.

Local Open Scope R_scope.

Lemma real_eqb_eq (x y : R) : real_eqb x y = true <-> x = y.
Proof. unfold real_eqb. destruct (Req_dec_T x y); split; congruence. Qed.

Lemma real_eqb_neq (x y : R) : real_eqb x y = false <-> x <> y.
Proof. unfold real_eqb. destruct (Req_dec_T x y); split; congruence. Qed.

(** The Cauchy-Schwarz inequality, one term at a time. *)
Lemma cs_cross (sxy sxx syy u v : R) :
  0 <= sxx -> 0 <= syy -> sxy * sxy <= sxx * syy ->
  2 * (sxy * (u * v)) <= sxx * (v * v) + syy * (u * u).
Proof.
  intros Hx Hy H.
  set (t := sxx * (v * v) + syy * (u * u)).
  assert (Ht : 0 <= t) by (unfold t; nra).
  destruct (Rle_or_lt (2 * (sxy * (u * v))) t) as [L|L]; [exact L|exfalso].
  assert (Hsq : t * t < (2 * (sxy * (u * v))) * (2 * (sxy * (u * v)))) by nra.
  assert (Hb : (2 * (sxy * (u * v))) * (2 * (sxy * (u * v))) <= 4 * (sxx * syy) * ((u * u) * (v * v))).
  { assert (0 <= (u * u) * (v * v)) by nra. nra. }
  assert (Ham : 4 * (sxx * syy) * ((u * u) * (v * v)) <= t * t).
  { unfold t. pose proof (Rle_0_sqr (sxx * (v * v) - syy * (u * u))) as Q.
    unfold Rsqr in Q. nra. }
  lra.
Qed.
Lemma cs_step (sxy sxx syy u v : R) :
  0 <= sxx -> 0 <= syy -> sxy * sxy <= sxx * syy ->
  (sxy + u * v) * (sxy + u * v) <= (sxx + u * u) * (syy + v * v).
Proof.
  intros Hx Hy H. pose proof (@cs_cross sxy sxx syy u v Hx Hy H). nra.
Qed.
Lemma ratio_bound (c a b W : R) :
  0 < W -> c * c <= a * b -> 0 <= a -> 0 <= b ->
  sqrt (a / W) <> 0 -> sqrt (b / W) <> 0 ->
  -1 <= (c / W) / (sqrt (a / W) * sqrt (b / W)) <= 1.
Proof.
  intros HW Hc Ha Hb Hsa Hsb.
  assert (HaW : 0 <= a / W) by (apply Rmult_le_pos; [lra|left; apply Rinv_0_lt_compat; lra]).
  assert (HbW : 0 <= b / W) by (apply Rmult_le_pos; [lra|left; apply Rinv_0_lt_compat; lra]).
  pose proof (sqrt_pos (a / W)) as Pa. pose proof (sqrt_pos (b / W)) as Pb.
  pose proof (sqrt_sqrt _ HaW) as Sa. pose proof (sqrt_sqrt _ HbW) as Sb.
  set (sa := sqrt (a / W)) in *. set (sb := sqrt (b / W)) in *.
  assert (Hp : 0 < sa * sb) by (apply Rmult_lt_0_compat; lra).
  assert (Hpp : (sa * sb) * (sa * sb) = (a * b) / (W * W)).
  { replace ((sa * sb) * (sa * sb)) with ((sa * sa) * (sb * sb)) by ring.
    rewrite Sa, Sb. field. lra. }
  assert (Hcc : (c / W) * (c / W) <= (sa * sb) * (sa * sb)).
  { rewrite Hpp. replace (c / W * (c / W)) with ((c * c) / (W * W)) by (field; lra).
    apply Rmult_le_compat_r; [|exact Hc].
    left. apply Rinv_0_lt_compat. nra. }
  assert (Habs : - (sa * sb) <= c / W <= sa * sb) by (split; nra).
  split.
  - apply Rmult_le_reg_r with (sa * sb); [exact Hp|].
    unfold Rdiv at 1. rewrite Rmult_assoc, Rinv_l by lra. lra.
  - apply Rmult_le_reg_r with (sa * sb); [exact Hp|].
    unfold Rdiv at 1. rewrite Rmult_assoc, Rinv_l by lra. lra.
Qed.

(** The three sums of lines 22-32 satisfy the Cauchy-Schwarz inequality. *)
Lemma cs_fold (c d : R) (xs : list R) :
  forall (ys : list R) (sxy sxx syy : R),
    length xs = length ys ->
    0 <= sxx -> 0 <= syy -> sxy * sxy <= sxx * syy ->
    let Sxy := fold_left (fun acc p => acc + (fst p - c) * (snd p - d)) (combine xs ys) sxy in
    let Sxx := fold_left (fun acc a => acc + (a - c) * (a - c)) xs sxx in
    let Syy := fold_left (fun acc b => acc + (b - d) * (b - d)) ys syy in
    Sxy * Sxy <= Sxx * Syy /\ 0 <= Sxx /\ 0 <= Syy.
Proof.
  induction xs as [|x xs IH]; intros [|y ys] sxy sxx syy Hlen Hx Hy H;
    try discriminate; simpl.
  - auto.
  - apply IH.
    + simpl in Hlen. lia.
    + pose proof (Rle_0_sqr (x - c)) as Q. unfold Rsqr in Q. lra.
    + pose proof (Rle_0_sqr (y - d)) as Q. unfold Rsqr in Q. lra.
    + apply cs_step; assumption.
Qed.

Lemma exact_windowCorrelation_bound (sliceA sliceB : list R) (W v : R) :
  length sliceA = length sliceB -> 0 < W ->
  windowCorrelation sliceA sliceB W = Some v ->
  -1 <= v <= 1.
Proof.
  intros Hlen HW. unfold windowCorrelation.
  set (meanA := num_div (Array_reduce (fun a b => num_add a b) sliceA num_zero) W).
  set (meanB := num_div (Array_reduce (fun a b => num_add a b) sliceB num_zero) W).
  rewrite (Array_reduce_idx_combine
             (fun acc a b => num_add acc (num_mul (num_sub a meanA) (num_sub b meanB)))
             num_nan sliceA sliceB) by exact Hlen.
  unfold Array_reduce, Math_pow2. simpl.
  destruct (cs_fold meanA meanB sliceA sliceB (sxy := 0) (sxx := 0) (syy := 0) Hlen)
    as (Hcs & Hxx & Hyy); try lra.
  set (Sxy := fold_left _ (combine sliceA sliceB) 0) in *.
  set (Sxx := fold_left _ sliceA 0) in *.
  set (Syy := fold_left _ sliceB 0) in *.
  destruct (real_eqb (sqrt (Sxx / W)) 0) eqn:Ea; [discriminate|].
  destruct (real_eqb (sqrt (Syy / W)) 0) eqn:Eb; [discriminate|].
  apply real_eqb_neq in Ea, Eb. simpl.
  intros [= <-]. apply ratio_bound; assumption.
Qed.

Lemma exact_correlationWindow (window : R) :
  exists W, (1 <= W)%Z /\ correlationWindow window = I_fin W.
Proof.
  unfold correlationWindow. simpl. eexists. split; [|reflexivity]. lia.
Qed.

End ExactArithmetic.



Section ExactCointegration.

Local Open Scope R_scope.




Lemma fold_left_zero_terms {T} (g : T -> R) (l : list T) :
  (forall x, In x l -> g x = 0) ->
  forall acc, fold_left (fun acc x => acc + g x) l acc = acc.
Proof.
  induction l as [|x rest IH]; intros H acc; [reflexivity|].
  simpl. rewrite IH by (intros y Hy; apply H; right; exact Hy).
  rewrite (H x) by (left; reflexivity). lra.
Qed.




Lemma map_seq_const {T} (f : nat -> T) (c : T) (n : nat) :
  (forall i, f i = c) -> map f (seq 0 n) = repeat c n.
Proof.
  intro H. rewrite (map_ext _ (fun _ => c) H). generalize 0%nat.
  induction n as [|n IH]; intro k; simpl; [reflexivity|]. f_equal. apply IH.
Qed.


End ExactCointegration.

Lemma map_seq_const_below {T} (f : nat -> T) (c : T) (n : nat) :
  (forall i, i < n -> f i = c) -> map f (seq 0 n) = repeat c n.
Proof.
  intro H.
  rewrite (map_ext_in f (fun _ => c)) by (intros i Hi; apply in_seq in Hi; apply H; lia).
  apply map_seq_const. reflexivity.
Qed.



Section SelfCorrelationShape.

Context {num : Type} {JN : JsNumber num}.


End SelfCorrelationShape.



Lemma Int_part_IZR (z : Z) : Int_part (IZR z) = z.
Proof. symmetry. apply Int_part_spec. split; lra. Qed.

(** Over the reals the coefficient of the windows [0, 1] and [0, 1] is defined. *)
Lemma exact_defined_example :
  exists v : R,
    nth 2 (slidingCorrelation [0; 1; 5]%R [0; 1; 7]%R 2%R) None = Some v.
Proof.
  rewrite slidingCorrelation_nth by (simpl; lia).
  unfold correlationWindow. simpl Math_floor. rewrite Int_part_IZR. simpl Math_max.
  rewrite correlationAt_fin by (simpl; lia).
  simpl. unfold windowCorrelation, Array_reduce_idx, Array_reduce, Math_pow2. simpl.
  change (Z.max 2 1) with 2%Z.
  assert (N : (real_eqb
                 (sqrt ((0 + (0 - (0 + 0 + 1) / 2) * (0 - (0 + 0 + 1) / 2)
                         + (1 - (0 + 0 + 1) / 2) * (1 - (0 + 0 + 1) / 2)) / 2)) 0
               = false)%R).
  { apply real_eqb_neq, Rgt_not_eq, sqrt_lt_R0. lra. }
  rewrite N. simpl. eexists. reflexivity.
Qed.


Section ExactConstantWindow.

Local Open Scope R_scope.

Lemma fold_left_Rplus_repeat (c : R) (n : nat) :
  forall acc, fold_left (fun a b => a + b) (repeat c n) acc = acc + INR n * c.
Proof.
  induction n as [|n IH]; intro acc; [simpl; lra|].
  rewrite S_INR. simpl. rewrite IH. lra.
Qed.

(** Over the reals a constant window has deviation 0 and no coefficient. *)
Lemma exact_constant_window_undefined (c : R) (w : nat) (sliceB : list R) :
  (0 < w)%nat ->
  windowCorrelation (repeat c w) sliceB (of_integral (of_index w)) = None.
Proof.
  intro Hw. unfold windowCorrelation, Array_reduce, Math_pow2. simpl.
  rewrite <- INR_IZR_INZ, fold_left_Rplus_repeat.
  assert (HW : 0 < INR w) by (apply lt_0_INR; exact Hw).
  replace ((0 + INR w * c) / INR w) with c by (field; lra).
  rewrite (fold_left_zero_terms (fun a => (a - c) * (a - c)) (repeat c w))
    by (intros x Hx; apply repeat_spec in Hx; subst x; ring).
  unfold Rdiv at 1. rewrite Rmult_0_l, sqrt_0.
  replace (real_eqb 0 0) with true by (symmetry; apply real_eqb_eq; reflexivity).
  reflexivity.
Qed.

End ExactConstantWindow.

(** * Properties of the code beyond the specification *)

(** ** The correlator looks at the past only *)

Lemma firstn_seq_min (n a len : nat) :
  firstn n (seq a len) = seq a (Nat.min n len).
Proof.
  revert a len. induction n as [|n IH]; intros a [|len]; simpl; try reflexivity.
  f_equal. apply IH.
Qed.

Section Causality.

Context {num : Type} {JN : JsNumber num}.

Lemma trailingWindow_firstn (d : num) (arr : list num) (n i w : nat) :
  i <= n -> w <= i ->
  trailingWindow d (firstn n arr) i w = trailingWindow d arr i w.
Proof.
  intros Hi Hw. unfold trailingWindow. apply map_ext_in.
  intros k Hk. apply in_seq in Hk. rewrite nth_firstn.
  destruct (Nat.ltb_spec k n); [reflexivity|lia].
Qed.

Lemma correlationAt_firstn (seriesA seriesB : list num) (window : num) (n i : nat) :
  i < n -> i < Nat.min (length seriesA) (length seriesB) ->
  correlationAt (firstn n seriesA) (firstn n seriesB) (correlationWindow window) i
  = correlationAt seriesA seriesB (correlationWindow window) i.
Proof.
  intros Hn Hi.
  pose proof (Math_max_floor_cases (Math_floor window) 1) as C.
  fold (correlationWindow window) in C.
  destruct (correlationWindow window) as [| | |W].
  - unfold correlationAt. simpl.
    rewrite !Array_slice_nan by (rewrite ?length_firstn; lia).
    rewrite !firstn_firstn, !Nat.min_l by lia. reflexivity.
  - contradiction.
  - reflexivity.
  - destruct C as [HW _].
    rewrite !correlationAt_fin by (rewrite ?length_firstn; lia).
    destruct (Z.ltb_spec (Z.of_nat i) W); [reflexivity|].
    rewrite !trailingWindow_firstn by lia. reflexivity.
Qed.

End Causality.

(** ** The smoother: when it returns *)

Lemma map_from_stuck {T U} (f : nat -> T -> outcome U) (arr : list T) :
  forall idx i x,
    nth_error arr i = Some x -> f (idx + i) x = Loops ->
    map_from f arr idx = Loops.
Proof.
  induction arr as [|a rest IH]; intros idx i x Hx Hf.
  - destruct i; discriminate.
  - simpl. destruct i as [|i]; simpl in Hx.
    + injection Hx as ->. rewrite Nat.add_0_r in Hf. rewrite Hf. reflexivity.
    + destruct (f idx a) as [y|]; [|reflexivity]. simpl.
      rewrite (IH (S idx) i x Hx); [reflexivity|].
      rewrite <- Hf. f_equal. lia.
Qed.

Section SmootherReturns.

Context {num : Type} {JN : JsNumber num}.

Lemma map_from_undefined (values : list (option num)) (windowRadius : integral) :
  forall (arr : list (option num)) (idx : nat),
    (forall x, In x arr -> x = None) ->
    map_from (smoothAt values windowRadius) arr idx = Returns arr.
Proof.
  induction arr as [|a rest IH]; intros idx H; simpl; [reflexivity|].
  rewrite (H a) by (left; reflexivity). simpl.
  rewrite IH by (intros x Hx; apply H; right; exact Hx). reflexivity.
Qed.

Lemma smoothingRadius_stuck (radius : num) :
  loopExits (smoothingRadius radius) = false ->
  int_eqb (smoothingRadius radius) (I_fin 0) = false.
Proof.
  destruct (smoothingRadius radius) as [| | |r]; simpl; try discriminate;
    try reflexivity.
  unfold max_safe_count. intro H. apply Z.ltb_ge in H. apply Z.eqb_neq. lia.
Qed.

Lemma smoothLoop_stuck (values : list (option num)) (idx : nat) (windowRadius : integral) :
  loopExits windowRadius = false -> smoothLoop values idx windowRadius = Loops.
Proof.
  destruct windowRadius as [| | |r]; simpl; try discriminate; try reflexivity.
  intros ->. reflexivity.
Qed.

End SmootherReturns.

(** ** The z-score: where it can be defined *)

Section ZScoreDefined.

Context {num : Type} {JN : JsNumber num}.

Lemma residualsOf_nth (reg : regression num) (seriesA seriesB : list num) :
  forall i r,
    nth i (residualsOf reg seriesA seriesB) None = Some r ->
    exists a b, nth_error seriesA i = Some a /\ nth_error seriesB i = Some b
                /\ residualAt reg a b = Some r.
Proof.
  revert seriesB. induction seriesA as [|a restA IH]; intros [|b restB] i r H;
    simpl in H; try (destruct i; discriminate).
  destruct i as [|i].
  - exists a, b. repeat split; exact H.
  - apply IH in H. exact H.
Qed.

Lemma residualAt_finite (reg : regression num) (a b r : num) :
  residualAt reg a b = Some r ->
  Number_isFinite a = true /\ Number_isFinite b = true.
Proof.
  unfold residualAt, isFiniteNumber.
  destruct (Number_isFinite a), (Number_isFinite b); simpl; try discriminate.
  intros _. split; reflexivity.
Qed.

Lemma zscoreAt_defined (residuals : list (option num)) (window : num) (i : nat) (z : num) :
  zscoreAt residuals (zscoreWindow window) i = Some z ->
  (exists r, nth i residuals None = Some r)
  /\ exists W, zscoreWindow window = I_fin W /\ (2 <= W)%Z /\ (W - 1 <= Z.of_nat i)%Z.
Proof.
  unfold zscoreAt. intro H.
  destruct (nth i residuals None) as [r|]; [|discriminate].
  split; [exists r; reflexivity|].
  pose proof (Math_max_floor_cases (Math_floor window) 2) as C.
  fold (zscoreWindow window) in C.
  destruct (zscoreWindow window) as [| | |W]; simpl in H.
  - discriminate.
  - contradiction.
  - discriminate.
  - destruct C as [HW _]. exists W. split; [reflexivity|]. split; [exact HW|].
    destruct (Z.ltb_spec (Z.of_nat i) (W - 1)); [discriminate|assumption].
Qed.

End ZScoreDefined.

(** ** The regression: the pairs it fits *)

Section RegressionPairs.

Context {num : Type} {JN : JsNumber num}.

Lemma collectPairs_finite (seriesA seriesB : list num) :
  Forall (fun p => Number_isFinite (fst p) = true /\ Number_isFinite (snd p) = true)
    (collectPairs seriesA seriesB).
Proof.
  rewrite collectPairs_filter. apply Forall_forall. intros p Hp.
  apply filter_In in Hp. destruct Hp as [_ Hp]. apply andb_true_iff in Hp. exact Hp.
Qed.

Lemma collectPairs_split (pairs : list (num * num)) :
  Forall (fun p => Number_isFinite (fst p) = true /\ Number_isFinite (snd p) = true) pairs ->
  collectPairs (map fst pairs) (map snd pairs) = pairs.
Proof.
  induction 1 as [|[a b] rest [Ha Hb] _ IH]; simpl; [reflexivity|].
  simpl in Ha, Hb. unfold isFiniteNumber. rewrite Ha, Hb. simpl. f_equal. exact IH.
Qed.

End RegressionPairs.

(** ** The order of the doubles *)

Lemma SFcompare_key (x y : spec_float) :
  SFnan x = false -> SFnan y = false ->
  match SFcompare x y with
  | Some Lt => key_lt (SFkey x) (SFkey y)
  | Some Eq => SFkey x = SFkey y
  | Some Gt => key_lt (SFkey y) (SFkey x)
  | None => False
  end.
Proof.
  unfold key_lt.
  destruct x as [sx|sx| |sx mx ex], y as [sy|sy| |sy my ey]; try discriminate;
    intros _ _; cbn [SFcompare SFkey];
    try (destruct sx); try (destruct sy); cbn [fst snd]; try lia; try reflexivity.
  - change (Pos.compare_cont Eq mx my) with (Pos.compare mx my).
    destruct (Z.compare_spec ex ey); [|lia|lia].
    destruct (Pos.compare_spec mx my); cbn [CompOpp fst snd];
      [subst; reflexivity|lia|lia].
  - change (Pos.compare_cont Eq mx my) with (Pos.compare mx my).
    destruct (Z.compare_spec ex ey); [|lia|lia].
    destruct (Pos.compare_spec mx my); cbn [fst snd];
      [subst; reflexivity|lia|lia].
Qed.

Lemma key_lt_irrefl k : ~ key_lt k k.
Proof. unfold key_lt. lia. Qed.

Lemma key_lt_trans k1 k2 k3 : key_lt k1 k2 -> key_lt k2 k3 -> key_lt k1 k3.
Proof. unfold key_lt. lia. Qed.

Lemma key_lt_asym k1 k2 : key_lt k1 k2 -> ~ key_lt k2 k1.
Proof. unfold key_lt. lia. Qed.

Lemma SFltb_key (x y : spec_float) :
  SFnan x = false -> SFnan y = false ->
  (SFltb x y = true <-> key_lt (SFkey x) (SFkey y)).
Proof.
  intros Hx Hy. pose proof (SFcompare_key x y Hx Hy) as C.
  pose proof (@key_lt_irrefl (SFkey y)). pose proof (@key_lt_asym (SFkey x) (SFkey y)).
  unfold SFltb. destruct (SFcompare x y) as [[]|]; try contradiction;
    split; intro; try discriminate; try reflexivity; try assumption.
  - rewrite C in *. tauto.
  - tauto.
Qed.

Lemma SFleb_key (x y : spec_float) :
  SFnan x = false -> SFnan y = false ->
  (SFleb x y = true <-> key_le (SFkey x) (SFkey y)).
Proof.
  intros Hx Hy. pose proof (SFcompare_key x y Hx Hy) as C.
  pose proof (@key_lt_irrefl (SFkey y)). pose proof (@key_lt_asym (SFkey x) (SFkey y)).
  unfold SFleb, key_le. destruct (SFcompare x y) as [[]|]; try contradiction;
    split; intro K; try discriminate; try reflexivity; try tauto.
  destruct K as [K|K]; [tauto|]. rewrite K in *. tauto.
Qed.

Lemma SFltb_nan (x y : spec_float) :
  SFltb x y = true -> SFnan x = false /\ SFnan y = false.
Proof.
  unfold SFltb. destruct x as [sx|sx| |sx mx ex], y as [sy|sy| |sy my ey];
    try discriminate; intros _; split; reflexivity.
Qed.

Lemma SFleb_nan (x y : spec_float) :
  SFleb x y = true -> SFnan x = false /\ SFnan y = false.
Proof.
  unfold SFleb. destruct x as [sx|sx| |sx mx ex], y as [sy|sy| |sy my ey];
    try discriminate; intros _; split; reflexivity.
Qed.

Lemma is_nan_spec (x : float) : PrimFloat.is_nan x = SFnan (Prim2SF x).
Proof.
  unfold is_nan. rewrite eqb_spec, SFeqb_refl.
  destruct (Prim2SF x); reflexivity.
Qed.

Lemma float_le_key (x y : float) :
  float_le x y <->
  SFnan (Prim2SF x) = false /\ SFnan (Prim2SF y) = false
  /\ key_le (SFkey (Prim2SF x)) (SFkey (Prim2SF y)).
Proof.
  unfold float_le. rewrite leb_spec. split.
  - intro H. destruct (SFleb_nan _ _ H) as [Hx Hy].
    repeat split; try assumption. apply SFleb_key; assumption.
  - intros (Hx & Hy & K). apply SFleb_key; assumption.
Qed.

Lemma float_lt_key (x y : float) :
  float_lt x y <->
  SFnan (Prim2SF x) = false /\ SFnan (Prim2SF y) = false
  /\ key_lt (SFkey (Prim2SF x)) (SFkey (Prim2SF y)).
Proof.
  unfold float_lt. rewrite ltb_spec. split.
  - intro H. destruct (SFltb_nan _ _ H) as [Hx Hy].
    repeat split; try assumption. apply SFltb_key; assumption.
  - intros (Hx & Hy & K). apply SFltb_key; assumption.
Qed.

Lemma key_total k1 k2 : key_lt k1 k2 \/ k1 = k2 \/ key_lt k2 k1.
Proof.
  destruct k1 as [a1 [b1 c1]], k2 as [a2 [b2 c2]]. unfold key_lt. cbn [fst snd].
  destruct (Z.lt_total a1 a2) as [|[|]]; [lia| |lia].
  destruct (Z.lt_total b1 b2) as [|[|]]; [lia| |lia].
  destruct (Z.lt_total c1 c2) as [|[|]]; [lia| |lia].
  subst. tauto.
Qed.

Lemma float_lt_le (x y : float) : float_lt x y -> float_le x y.
Proof. rewrite float_lt_key, float_le_key. unfold key_le. tauto. Qed.

Lemma float_le_refl (x : float) : PrimFloat.is_nan x = false -> float_le x x.
Proof. rewrite is_nan_spec, float_le_key. unfold key_le. tauto. Qed.

Lemma float_le_trans (x y z : float) : float_le x y -> float_le y z -> float_le x z.
Proof.
  rewrite !float_le_key. unfold key_le.
  intros (Hx & Hy & [K1|K1]) (_ & Hz & [K2|K2]); repeat split; try assumption.
  - left. eapply key_lt_trans; eassumption.
  - left. rewrite <- K2. exact K1.
  - left. rewrite K1. exact K2.
  - right. congruence.
Qed.

Lemma float_not_lt_le (x y : float) :
  PrimFloat.is_nan x = false -> PrimFloat.is_nan y = false ->
  PrimFloat.ltb x y = false -> float_le y x.
Proof.
  rewrite !is_nan_spec. intros Hx Hy H. apply float_le_key.
  repeat split; try assumption.
  destruct (key_total (SFkey (Prim2SF x)) (SFkey (Prim2SF y))) as [K|[K|K]].
  - assert (float_lt x y) by (apply float_lt_key; tauto).
    unfold float_lt in *. congruence.
  - right. symmetry. exact K.
  - left. exact K.
Qed.

Lemma float_le_not_lt (x y : float) : float_le x y -> PrimFloat.ltb y x = false.
Proof.
  intro H. destruct (PrimFloat.ltb y x) eqn:E; [|reflexivity].
  apply float_le_key in H. apply float_lt_key in E.
  destruct H as (_ & _ & [K|K]), E as (_ & _ & E).
  - elim (key_lt_asym K E).
  - rewrite K in E. elim (key_lt_irrefl E).
Qed.

Lemma float_le_nan (x y : float) :
  float_le x y -> PrimFloat.is_nan x = false /\ PrimFloat.is_nan y = false.
Proof. rewrite !is_nan_spec, float_le_key. tauto. Qed.

(** ** Properties of [Math.min] and [Math.max] *)

Lemma float_zero_le (x y : float) :
  PrimFloat.is_zero x = true -> PrimFloat.is_zero y = true -> float_le x y.
Proof.
  unfold PrimFloat.is_zero. rewrite !eqb_zero_spec. intros Hx Hy.
  apply float_le_key.
  destruct (Prim2SF x), (Prim2SF y); try discriminate.
  repeat split. right. reflexivity.
Qed.

Lemma Math_min_from_spec (coerced : list float) :
  Forall (fun x => PrimFloat.is_nan x = false) coerced ->
  forall lowest, PrimFloat.is_nan lowest = false ->
    (Math_min_from lowest coerced = lowest \/ In (Math_min_from lowest coerced) coerced)
    /\ float_le (Math_min_from lowest coerced) lowest
    /\ Forall (float_le (Math_min_from lowest coerced)) coerced.
Proof.
  induction 1 as [|number rest Hn _ IH]; intros lowest Hl; cbn [Math_min_from].
  - split; [left; reflexivity|]. split; [apply float_le_refl, Hl|constructor].
  - rewrite Hn.
    destruct ((float_is_neg_zero number && float_is_pos_zero lowest)
              || PrimFloat.ltb number lowest) eqn:C.
    + destruct (IH number Hn) as (M & L & A).
      assert (NL : float_le number lowest).
      { apply orb_true_iff in C. destruct C as [C|C].
        - apply andb_true_iff in C. destruct C as [C1 C2].
          apply andb_true_iff in C1, C2. apply float_zero_le; tauto.
        - apply float_lt_le, C. }
      split; [right; destruct M as [->|M]; [left; reflexivity|right; exact M]|].
      split; [eapply float_le_trans; eassumption|].
      constructor; assumption.
    + destruct (IH lowest Hl) as (M & L & A).
      apply orb_false_iff in C. destruct C as [_ C].
      split; [destruct M as [M|M]; [left; exact M|right; right; exact M]|].
      split; [exact L|].
      constructor; [|exact A].
      eapply float_le_trans; [exact L|]. apply float_not_lt_le; assumption.
Qed.

Lemma Math_max_from_spec (coerced : list float) :
  Forall (fun x => PrimFloat.is_nan x = false) coerced ->
  forall highest, PrimFloat.is_nan highest = false ->
    (Math_max_from highest coerced = highest \/ In (Math_max_from highest coerced) coerced)
    /\ float_le highest (Math_max_from highest coerced)
    /\ Forall (fun x => float_le x (Math_max_from highest coerced)) coerced.
Proof.
  induction 1 as [|number rest Hn _ IH]; intros highest Hl; cbn [Math_max_from].
  - split; [left; reflexivity|]. split; [apply float_le_refl, Hl|constructor].
  - rewrite Hn.
    destruct ((float_is_pos_zero number && float_is_neg_zero highest)
              || PrimFloat.ltb highest number) eqn:C.
    + destruct (IH number Hn) as (M & L & A).
      assert (NL : float_le highest number).
      { apply orb_true_iff in C. destruct C as [C|C].
        - apply andb_true_iff in C. destruct C as [C1 C2].
          apply andb_true_iff in C1, C2. apply float_zero_le; tauto.
        - apply float_lt_le, C. }
      split; [right; destruct M as [->|M]; [left; reflexivity|right; exact M]|].
      split; [eapply float_le_trans; eassumption|].
      constructor; assumption.
    + destruct (IH highest Hl) as (M & L & A).
      apply orb_false_iff in C. destruct C as [_ C].
      split; [destruct M as [M|M]; [left; exact M|right; right; exact M]|].
      split; [exact L|].
      constructor; [|exact A].
      eapply float_le_trans; [|exact L]. apply float_not_lt_le; assumption.
Qed.

Lemma Math_min_from_nan (coerced : list float) :
  forall lowest,
    PrimFloat.is_nan lowest = true \/ Exists (fun x => PrimFloat.is_nan x = true) coerced ->
    PrimFloat.is_nan (Math_min_from lowest coerced) = true.
Proof.
  induction coerced as [|number rest IH]; intros lowest H; cbn [Math_min_from].
  - destruct H as [H|H]; [exact H|inversion H].
  - destruct (PrimFloat.is_nan number) eqn:N; [reflexivity|].
    assert (T : PrimFloat.ltb number lowest = true -> PrimFloat.is_nan lowest = false).
    { intro L. apply float_lt_le, float_le_nan in L. tauto. }
    destruct H as [H|H].
    + destruct (PrimFloat.ltb number lowest) eqn:L; [rewrite T in H by reflexivity; discriminate|].
      rewrite orb_false_r.
      assert (Z : float_is_pos_zero lowest = false).
      { unfold float_is_pos_zero, PrimFloat.is_zero. rewrite eqb_zero_spec.
        rewrite is_nan_spec in H. destruct (Prim2SF lowest); try discriminate. reflexivity. }
      rewrite Z, andb_false_r. apply IH. left. exact H.
    + inversion H as [x l Hx|x l Hx]; subst; [congruence|].
      destruct (_ || _); apply IH; right; exact Hx.
Qed.

Lemma Math_max_from_nan (coerced : list float) :
  forall highest,
    PrimFloat.is_nan highest = true \/ Exists (fun x => PrimFloat.is_nan x = true) coerced ->
    PrimFloat.is_nan (Math_max_from highest coerced) = true.
Proof.
  induction coerced as [|number rest IH]; intros highest H; cbn [Math_max_from].
  - destruct H as [H|H]; [exact H|inversion H].
  - destruct (PrimFloat.is_nan number) eqn:N; [reflexivity|].
    assert (T : PrimFloat.ltb highest number = true -> PrimFloat.is_nan highest = false).
    { intro L. apply float_lt_le, float_le_nan in L. tauto. }
    destruct H as [H|H].
    + destruct (PrimFloat.ltb highest number) eqn:L; [rewrite T in H by reflexivity; discriminate|].
      rewrite orb_false_r.
      assert (Z : float_is_neg_zero highest = false).
      { unfold float_is_neg_zero, PrimFloat.is_zero. rewrite eqb_zero_spec.
        rewrite is_nan_spec in H. destruct (Prim2SF highest); try discriminate. reflexivity. }
      rewrite Z, andb_false_r. apply IH. left. exact H.
    + inversion H as [x l Hx|x l Hx]; subst; [congruence|].
      destruct (_ || _); apply IH; right; exact Hx.
Qed.

Lemma float_le_antisym (x y : float) :
  float_le x y -> float_le y x -> PrimFloat.eqb x y = true.
Proof.
  rewrite !float_le_key. intros (Hx & Hy & K1) (_ & _ & K2).
  rewrite eqb_spec. unfold SFeqb.
  pose proof (SFcompare_key _ _ Hx Hy) as C.
  destruct (SFcompare (Prim2SF x) (Prim2SF y)) as [[]|]; try contradiction;
    try reflexivity; exfalso.
  - destruct K2 as [K2|K2]; [exact (key_lt_asym C K2)|].
    rewrite K2 in C. exact (key_lt_irrefl C).
  - destruct K1 as [K1|K1]; [exact (key_lt_asym C K1)|].
    rewrite K1 in C. exact (key_lt_irrefl C).
Qed.

Lemma float_le_infinity (x : float) :
  PrimFloat.is_nan x = false -> float_le x PrimFloat.infinity.
Proof.
  rewrite is_nan_spec. intro H. apply float_le_key.
  change (Prim2SF infinity) with (S754_infinity false).
  repeat split; try assumption. unfold key_le, key_lt.
  destruct (Prim2SF x) as [s|s| |s m e]; try discriminate; try destruct s;
    cbn [SFkey fst snd]; try (left; lia). right. reflexivity.
Qed.

Lemma float_neg_infinity_le (x : float) :
  PrimFloat.is_nan x = false -> float_le PrimFloat.neg_infinity x.
Proof.
  rewrite is_nan_spec. intro H. apply float_le_key.
  change (Prim2SF neg_infinity) with (S754_infinity true).
  repeat split; try assumption. unfold key_le, key_lt.
  destruct (Prim2SF x) as [s|s| |s m e]; try discriminate; try destruct s;
    cbn [SFkey fst snd]; try (left; lia). right. reflexivity.
Qed.




(** [Math.min] and [Math.max] of two numbers. *)
Lemma Math_max_of_pair (a b : float) :
  PrimFloat.is_nan a = false -> PrimFloat.is_nan b = false ->
  (In (Math_max_of [a; b]) [a; b] \/ Math_max_of [a; b] = PrimFloat.neg_infinity)
  /\ float_le a (Math_max_of [a; b]) /\ float_le b (Math_max_of [a; b]).
Proof.
  intros Ha Hb.
  assert (N : PrimFloat.is_nan PrimFloat.neg_infinity = false) by reflexivity.
  destruct (@Math_max_from_spec [a; b]
              (Forall_cons _ Ha (Forall_cons _ Hb (Forall_nil _))) _ N) as (M & _ & A).
  inversion A as [|? ? A1 A2]; subst. inversion A2 as [|? ? A3 _]; subst.
  split; [|split; assumption]. destruct M as [M|M]; [right|left]; exact M.
Qed.

Lemma Math_min_of_pair (a b : float) :
  PrimFloat.is_nan a = false -> PrimFloat.is_nan b = false ->
  (In (Math_min_of [a; b]) [a; b] \/ Math_min_of [a; b] = PrimFloat.infinity)
  /\ float_le (Math_min_of [a; b]) a /\ float_le (Math_min_of [a; b]) b.
Proof.
  intros Ha Hb.
  assert (N : PrimFloat.is_nan PrimFloat.infinity = false) by reflexivity.
  destruct (@Math_min_from_spec [a; b]
              (Forall_cons _ Ha (Forall_cons _ Hb (Forall_nil _))) _ N) as (M & _ & A).
  inversion A as [|? ? A1 A2]; subst. inversion A2 as [|? ? A3 _]; subst.
  split; [|split; assumption]. destruct M as [M|M]; [right|left]; exact M.
Qed.

Lemma Math_max_of_pair_nan (a b : float) :
  PrimFloat.is_nan a = true \/ PrimFloat.is_nan b = true ->
  PrimFloat.is_nan (Math_max_of [a; b]) = true.
Proof.
  intro H. apply Math_max_from_nan. right.
  destruct H as [H|H]; [left; exact H|right; left; exact H].
Qed.

Lemma Math_min_of_pair_nan (a b : float) :
  PrimFloat.is_nan a = true \/ PrimFloat.is_nan b = true ->
  PrimFloat.is_nan (Math_min_of [a; b]) = true.
Proof.
  intro H. apply Math_min_from_nan. right.
  destruct H as [H|H]; [left; exact H|right; left; exact H].
Qed.

Lemma float_nan_not_lt_l (x y : float) :
  PrimFloat.is_nan x = true -> PrimFloat.ltb x y = false.
Proof.
  rewrite is_nan_spec, ltb_spec. destruct (Prim2SF x); try discriminate. reflexivity.
Qed.

Lemma float_nan_not_lt_r (x y : float) :
  PrimFloat.is_nan y = true -> PrimFloat.ltb x y = false.
Proof.
  rewrite is_nan_spec, ltb_spec. destruct (Prim2SF y); try discriminate.
  destruct (Prim2SF x); reflexivity.
Qed.

Lemma Math_max_of_not_below (a b : float) : PrimFloat.ltb (Math_max_of [a; b]) a = false.
Proof.
  destruct (PrimFloat.is_nan a) eqn:Ha; [apply float_nan_not_lt_r, Ha|].
  destruct (PrimFloat.is_nan b) eqn:Hb.
  - apply float_nan_not_lt_l, Math_max_of_pair_nan. right. exact Hb.
  - apply float_le_not_lt. apply Math_max_of_pair; assumption.
Qed.

Lemma Math_min_of_not_above (a b : float) : PrimFloat.ltb a (Math_min_of [a; b]) = false.
Proof.
  destruct (PrimFloat.is_nan a) eqn:Ha; [apply float_nan_not_lt_l, Ha|].
  destruct (PrimFloat.is_nan b) eqn:Hb.
  - apply float_nan_not_lt_r, Math_min_of_pair_nan. right. exact Hb.
  - apply float_le_not_lt. apply Math_min_of_pair; assumption.
Qed.





(** ** The correlation path *)

Lemma append_empty_r (s : String.string) : String.append s String.EmptyString = s.
Proof. induction s as [|c s IH]; simpl; [reflexivity|]. rewrite IH. reflexivity. Qed.

Lemma append_assoc (s t u : String.string) :
  String.append (String.append s t) u = String.append s (String.append t u).
Proof. induction s as [|c s IH]; simpl; [reflexivity|]. rewrite IH. reflexivity. Qed.

Lemma pathStep_reduce (Number_toString : float -> String.string)
  (values : list (option float)) (chartWidth plotHeight : float) :
  forall (rest before : list (option float)) (path : String.string) (hasOpenSegment : bool),
    values = before ++ rest ->
    hasOpenSegment = (0 <? length before)%nat && plotted values (length before - 1) ->
    fst (reduce_from (pathStep Number_toString (pathDenominator values) chartWidth plotHeight) rest
           (length before) (path, hasOpenSegment))
    = String.append path
        (fold_right String.append String.EmptyString
           (map (pathPiece Number_toString values chartWidth plotHeight)
              (seq (length before) (length rest)))).
Proof.
  induction rest as [|value rest IH]; intros before path hasOpenSegment Hv Ho.
  - simpl. rewrite append_empty_r. reflexivity.
  - cbn [reduce_from length seq map fold_right].
    assert (N : nth (length before) values None = value).
    { rewrite Hv, app_nth2, Nat.sub_diag by lia. reflexivity. }
    assert (L : length (before ++ [value]) = S (length before))
      by (rewrite length_app; simpl; lia).
    assert (P : plotted values (length before)
                = match value with Some v => PrimFloat.is_finite v | None => false end).
    { unfold plotted. rewrite N. reflexivity. }
    specialize (IH (before ++ [value])). rewrite L in IH.
    replace (S (length before) - 1) with (length before) in IH by lia.
    cbn [Nat.ltb Nat.leb andb] in IH. rewrite P in IH.
    assert (V : values = (before ++ [value]) ++ rest)
      by (rewrite <- app_assoc; exact Hv).
    unfold pathPiece at 1. rewrite N. unfold pathStep at 2.
    destruct value as [v|]; cbn [fst snd].
    + destruct (PrimFloat.is_finite v) eqn:F; cbn [negb fst snd].
      * rewrite (IH _ true V eq_refl), append_assoc, <- Ho. reflexivity.
      * rewrite (IH _ false V eq_refl). reflexivity.
    + rewrite (IH _ false V eq_refl). reflexivity.
Qed.

Lemma buildCorrelationPath_pieces (Number_toString : float -> String.string)
  (values : list (option float)) (chartWidth plotHeight : float) :
  buildCorrelationPath Number_toString values chartWidth plotHeight
  = fold_right String.append String.EmptyString
      (map (pathPiece Number_toString values chartWidth plotHeight)
         (seq 0 (length values))).
Proof.
  unfold buildCorrelationPath.
  destruct values as [|value rest]; [reflexivity|].
  cbn [length Nat.eqb]. unfold Array_reduce_idx.
  apply (@pathStep_reduce Number_toString (value :: rest) chartWidth plotHeight
           (value :: rest) [] String.EmptyString false); reflexivity.
Qed.

Lemma fold_append_empty (pieces : list String.string) :
  fold_right String.append String.EmptyString pieces = String.EmptyString
  <-> forall p, In p pieces -> p = String.EmptyString.
Proof.
  induction pieces as [|p rest IH]; cbn [fold_right In].
  - split; [intros _ p []|reflexivity].
  - split.
    + intros H q [<-|Hq].
      * destruct p; [reflexivity|discriminate].
      * destruct p; [|discriminate]. apply IH; assumption.
    + intro H. rewrite (H p) by (left; reflexivity). simpl.
      apply IH. intros q Hq. apply H. right. exact Hq.
Qed.

(** ** [Math.floor] against the comparisons *)

Lemma digits2_pos_bounds (m : positive) :
  (2 ^ (Z.pos (digits2_pos m) - 1) <= Z.pos m < 2 ^ Z.pos (digits2_pos m))%Z.
Proof.
  induction m as [m IH|m IH|]; cbn [digits2_pos].
  - rewrite Pos2Z.inj_succ. replace (Z.succ (Z.pos (digits2_pos m)) - 1)%Z
      with (Z.succ (Z.pos (digits2_pos m) - 1))%Z by lia.
    rewrite !Z.pow_succ_r by lia. lia.
  - rewrite Pos2Z.inj_succ. replace (Z.succ (Z.pos (digits2_pos m)) - 1)%Z
      with (Z.succ (Z.pos (digits2_pos m) - 1))%Z by lia.
    rewrite !Z.pow_succ_r by lia. lia.
  - simpl. lia.
Qed.

(** The mantissa and the exponent of a double. *)
Lemma valid_binary_finite (s : bool) (m : positive) (e : Z) :
  valid_binary (S754_finite s m e) = true ->
  (Z.pos (digits2_pos m) <= 53 /\ -1074 <= e <= 971
   /\ (e = -1074 \/ Z.pos (digits2_pos m) = 53))%Z.
Proof.
  unfold SpecFloat.valid_binary, bounded, canonical_mantissa. intro V.
  apply andb_prop in V. destruct V as [C B]. apply Z.eqb_eq in C. apply Z.leb_le in B.
  assert (F : fexp prec emax (Z.pos (digits2_pos m) + e)
              = Z.max (Z.pos (digits2_pos m) + e - 53) (-1074)) by reflexivity.
  rewrite F in C. change (emax - prec)%Z with 971%Z in B. lia.
Qed.

Lemma float_floor_lt_pow2 (x : float) (j : Z) :
  (0 <= j <= 52)%Z ->
  SFltb (Prim2SF x) (S754_finite false 4503599627370496 (j - 52)) = true ->
  float_floor x = I_neginf \/ exists z, float_floor x = I_fin z /\ (z < 2 ^ j)%Z.
Proof.
  intros Hj H. unfold float_floor. pose proof (Prim2SF_valid x) as V.
  destruct (Prim2SF x) as [s|s| |s m e]; try discriminate.
  - right. exists 0%Z. split; [reflexivity|]. apply Z.pow_pos_nonneg; lia.
  - destruct s; [left; reflexivity|discriminate].
  - right. eexists. split; [reflexivity|].
    destruct s.
    + assert (Z.shiftl (Z.neg m) e < 0)%Z by (apply Z.shiftl_neg; lia).
      assert (0 < 2 ^ j)%Z by (apply Z.pow_pos_nonneg; lia). lia.
    + apply valid_binary_finite in V. destruct V as (D & E & _).
      pose proof (digits2_pos_bounds m) as [_ M].
      assert (M53 : (Z.pos m < 2 ^ 53)%Z).
      { eapply Z.lt_le_trans; [exact M|]. apply Z.pow_le_mono_r; lia. }
      apply SFltb_key in H; [|reflexivity|reflexivity].
      unfold key_lt in H. cbn [SFkey fst snd] in H.
      assert (L : (e < j - 52 \/ (e = j - 52 /\ Z.pos m < 2 ^ 52))%Z).
      { change (2 ^ 52)%Z with 4503599627370496%Z. lia. }
      rewrite Z.shiftl_div_pow2 by lia.
      apply Z.div_lt_upper_bound; [apply Z.pow_pos_nonneg; lia|].
      rewrite <- Z.pow_add_r by lia.
      destruct L as [L|[L1 L2]].
      * eapply Z.lt_le_trans; [exact M53|]. apply Z.pow_le_mono_r; lia.
      * replace (- e + j)%Z with 52%Z by lia. exact L2.
Qed.

Lemma float_floor_lt_one (x : float) :
  PrimFloat.ltb x 1%float = true ->
  float_floor x = I_neginf \/ exists z, float_floor x = I_fin z /\ (z <= 0)%Z.
Proof.
  rewrite ltb_spec. intro H.
  destruct (@float_floor_lt_pow2 x 0 ltac:(lia) H) as [F|(z & F & B)];
    [left; exact F|right; exists z; split; [exact F|]].
  change (2 ^ 0)%Z with 1%Z in B. lia.
Qed.

Lemma float_floor_lt_two (x : float) :
  PrimFloat.ltb x 2%float = true ->
  float_floor x = I_neginf \/ exists z, float_floor x = I_fin z /\ (z <= 1)%Z.
Proof.
  rewrite ltb_spec. intro H.
  destruct (@float_floor_lt_pow2 x 1 ltac:(lia) H) as [F|(z & F & B)];
    [left; exact F|right; exists z; split; [exact F|]].
  change (2 ^ 1)%Z with 2%Z in B. lia.
Qed.

Lemma float_floor_nan (x : float) : PrimFloat.is_nan x = true -> float_floor x = I_nan.
Proof.
  rewrite is_nan_spec. unfold float_floor. destruct (Prim2SF x); try discriminate.
  reflexivity.
Qed.

Lemma float_nan_eq (x : float) : PrimFloat.is_nan x = true -> x = PrimFloat.nan.
Proof.
  rewrite is_nan_spec. intro H. apply Prim2SF_inj.
  destruct (Prim2SF x); try discriminate. reflexivity.
Qed.

(** ** Division by one *)

Lemma SFdiv_one_r (x : spec_float) :
  valid_binary x = true -> SF64div x (Prim2SF PrimFloat.one) = x.
Proof.
  change (Prim2SF PrimFloat.one) with (S754_finite false 4503599627370496 (-52)).
  destruct x as [s|s| |s m e]; try (destruct s; reflexivity); try reflexivity.
  intro V. pose proof V as V'. apply valid_binary_finite in V. destruct V as (D & E & C).
  unfold SF64div, SFdiv, SFdiv_core_binary.
  change (Zdigits2 (Z.pos m)) with (Z.pos (digits2_pos m)).
  change (Zdigits2 4503599627370496) with 53%Z.
  assert (F : forall k, fexp prec emax k = Z.max (k - 53) (-1074)) by reflexivity.
  rewrite F, xorb_false_r.
  assert (HL : new_location 4503599627370496 0 = loc_Exact) by reflexivity.
  destruct (Z.eq_dec e (-1074)) as [Ee|Ee].
  - (* the least exponent: the quotient is the mantissa *)
    subst e.
    replace (Z.min (Z.max (Z.pos (digits2_pos m) + -1074 - (53 + -52) - 53) (-1074))
               (-1074 - -52))%Z with (-1074)%Z by lia.
    change (-1074 - -52 - -1074)%Z with 52%Z.
    rewrite Z.shiftl_mul_pow2 by lia.
    assert (Hq : Z.div_eucl (Z.pos m * 2 ^ 52) 4503599627370496 = (Z.pos m, 0%Z)).
    { pose proof (Z.div_eucl_eq (Z.pos m * 2 ^ 52) 4503599627370496) as Q.
      pose proof (Z.mod_pos_bound (Z.pos m * 2 ^ 52) 4503599627370496) as R.
      unfold Z.modulo in R.
      destruct (Z.div_eucl (Z.pos m * 2 ^ 52) 4503599627370496) as [q r].
      specialize (Q ltac:(lia)). specialize (R ltac:(lia)).
      change (2 ^ 52)%Z with 4503599627370496%Z in Q.
      assert (q = Z.pos m) by lia. subst q. f_equal. lia. }
    rewrite Hq, HL.
    unfold binary_round_aux, shr_fexp.
    change (Zdigits2 (Z.pos m)) with (Z.pos (digits2_pos m)).
    rewrite F.
    replace (Z.max (Z.pos (digits2_pos m) + -1074 - 53) (-1074) - -1074)%Z with 0%Z by lia.
    cbn [shr shr_record_of_loc shr_m loc_of_shr_record round_nearest_even].
    change (Zdigits2 (Z.pos m)) with (Z.pos (digits2_pos m)).
    rewrite F.
    replace (Z.max (Z.pos (digits2_pos m) + -1074 - 53) (-1074) - -1074)%Z with 0%Z by lia.
    cbn [shr shr_record_of_loc shr_m]. reflexivity.
  - (* a normal number: the quotient is twice the mantissa, one exponent below *)
    assert (D53 : Z.pos (digits2_pos m) = 53%Z) by lia.
    rewrite D53.
    replace (Z.min (Z.max (53 + e - (53 + -52) - 53) (-1074)) (e - -52))%Z
      with (e - 1)%Z by lia.
    replace (e - -52 - (e - 1))%Z with 53%Z by lia.
    rewrite Z.shiftl_mul_pow2 by lia.
    assert (Hq : Z.div_eucl (Z.pos m * 2 ^ 53) 4503599627370496 = (Z.pos (xO m), 0%Z)).
    { pose proof (Z.div_eucl_eq (Z.pos m * 2 ^ 53) 4503599627370496) as Q.
      pose proof (Z.mod_pos_bound (Z.pos m * 2 ^ 53) 4503599627370496) as R.
      unfold Z.modulo in R.
      destruct (Z.div_eucl (Z.pos m * 2 ^ 53) 4503599627370496) as [q r].
      specialize (Q ltac:(lia)). specialize (R ltac:(lia)).
      change (2 ^ 53)%Z with (2 * 4503599627370496)%Z in Q.
      assert (q = Z.pos (xO m)) by lia. subst q. f_equal. lia. }
    rewrite Hq, HL.
    unfold binary_round_aux, shr_fexp.
    assert (D54 : Zdigits2 (Z.pos (xO m)) = 54%Z).
    { cbn [Zdigits2 digits2_pos]. lia. }
    rewrite D54, F.
    replace (Z.max (54 + (e - 1) - 53) (-1074) - (e - 1))%Z with 1%Z by lia.
    cbn [shr shr_record_of_loc SpecFloat.iter_pos shr_1 shr_m shr_r shr_s
           loc_of_shr_record round_nearest_even orb].
    change (Zdigits2 (Z.pos m)) with (Z.pos (digits2_pos m)).
    rewrite D53, F.
    replace (e - 1 + 1)%Z with e by lia.
    replace (Z.max (53 + e - 53) (-1074) - e)%Z with 0%Z by lia.
    cbn [shr shr_m].
    destruct (Z.leb_spec e (emax - prec)) as [L|L]; [reflexivity|].
    change (emax - prec)%Z with 971%Z in L. lia.
Qed.

Lemma float_div_one_r (x : float) : PrimFloat.div x 1%float = x.
Proof.
  apply Prim2SF_inj. rewrite div_spec. apply SFdiv_one_r, Prim2SF_valid.
Qed.

(** ** Radii and windows at the edges *)

Lemma map_from_nan_radius {num : Type} {JN : JsNumber num} (values : list (option num)) :
  forall (arr : list (option num)) (idx : nat),
    map_from (smoothAt values I_nan) arr idx = Returns (repeat None (length arr)).
Proof.
  induction arr as [|a rest IH]; intro idx; simpl; [reflexivity|].
  rewrite IH. destruct a; reflexivity.
Qed.

Lemma float_div_nan (x : float) : PrimFloat.div x PrimFloat.nan = PrimFloat.nan.
Proof.
  apply Prim2SF_inj. rewrite div_spec.
  change (Prim2SF PrimFloat.nan) with S754_nan.
  destruct (Prim2SF x); reflexivity.
Qed.

Lemma windowCorrelation_nan (sliceA sliceB : list float) :
  windowCorrelation sliceA sliceB PrimFloat.nan = Some PrimFloat.nan.
Proof.
  unfold windowCorrelation.
  change (@num_div float Float64) with PrimFloat.div.
  rewrite !float_div_nan. reflexivity.
Qed.

(** The deviation of a finite number from the mean of the window it fills
    alone is a zero. *)
Lemma float_single_deviation (a : float) :
  PrimFloat.is_finite a = true ->
  float_is_zero (PrimFloat.sub a (PrimFloat.div (PrimFloat.add PrimFloat.zero a) 1%float)).
Proof.
  rewrite float_div_one_r. float_spec.
  change (Prim2SF PrimFloat.zero) with (S754_zero false).
  destruct (Prim2SF a) as [s|s| |s m e]; try discriminate.
  - destruct s; reflexivity.
  - intros _. cbn [SF64add SFadd]. unfold SF64sub, SFsub.
    rewrite Z.sub_diag. reflexivity.
Qed.

Lemma float_single_std (a : float) :
  PrimFloat.is_finite a = true ->
  PrimFloat.eqb
    (PrimFloat.sqrt
       (PrimFloat.div
          (PrimFloat.add PrimFloat.zero
             (Math_pow2 (PrimFloat.sub a
                           (PrimFloat.div (PrimFloat.add PrimFloat.zero a) 1%float))))
          1%float))
    PrimFloat.zero = true.
Proof.
  intro F. pose proof (@float_single_deviation a F) as Z.
  assert (Z0 : float_is_zero PrimFloat.zero) by reflexivity.
  apply float_zero_sqrt, float_zero_div; [|reflexivity].
  apply float_zero_add; [exact Z0|]. apply float_zero_mul; exact Z.
Qed.

Lemma windowCorrelation_single (a b : float) :
  PrimFloat.is_finite a = true \/ PrimFloat.is_finite b = true ->
  windowCorrelation [a] [b] 1%float = None.
Proof.
  intro H. unfold windowCorrelation, Array_reduce. cbn [fold_left].
  change (@num_div float Float64) with PrimFloat.div.
  change (@num_add float Float64) with PrimFloat.add.
  change (@num_sub float Float64) with PrimFloat.sub.
  change (@num_eqb float Float64) with PrimFloat.eqb.
  change (@Math_sqrt float Float64) with PrimFloat.sqrt.
  change (@num_zero float Float64) with PrimFloat.zero.
  destruct H as [H|H].
  - rewrite (@float_single_std a H). reflexivity.
  - rewrite (@float_single_std b H), orb_true_r. reflexivity.
Qed.

(** ** Integers as doubles, and the size of a quotient *)

Lemma Zdigits2_lt_pow (z : Z) : (0 <= z)%Z -> (z < 2 ^ Zdigits2 z)%Z.
Proof.
  destruct z as [|p|p]; intro H; [simpl; lia| |lia].
  apply digits2_pos_bounds.
Qed.

Lemma Zdigits2_ge_pow (z : Z) : (0 < z)%Z -> (2 ^ (Zdigits2 z - 1) <= z)%Z.
Proof.
  destruct z as [|p|p]; intro H; try lia. apply digits2_pos_bounds.
Qed.

Lemma Zdigits2_nonneg (z : Z) : (0 <= Zdigits2 z)%Z.
Proof. destruct z; simpl; lia. Qed.

Lemma Zdigits2_le (z k : Z) : (0 <= k)%Z -> (0 <= z < 2 ^ k)%Z -> (Zdigits2 z <= k)%Z.
Proof.
  intros Hk [H0 H]. destruct (Z.eq_dec z 0) as [->|N]; [simpl; lia|].
  pose proof (@Zdigits2_ge_pow z ltac:(lia)) as G.
  pose proof (Zdigits2_nonneg z).
  destruct (Z.le_gt_cases (Zdigits2 z) k) as [L|L]; [exact L|exfalso].
  assert (2 ^ k <= 2 ^ (Zdigits2 z - 1))%Z by (apply Z.pow_le_mono_r; lia).
  lia.
Qed.

Lemma fexp_eq (k : Z) : fexp prec emax k = Z.max (k - 53) (-1074).
Proof. reflexivity. Qed.

(** What [shr_fexp] does to the size [digits + exponent] of a number. *)
Lemma shr_fexp_magnitude (m e : Z) (l : location) :
  (0 <= m)%Z -> (-1074 <= e)%Z ->
  (0 <= shr_m (fst (shr_fexp prec emax m e l))
   /\ -1074 <= snd (shr_fexp prec emax m e l)
   /\ Zdigits2 (shr_m (fst (shr_fexp prec emax m e l))) + snd (shr_fexp prec emax m e l)
      <= Z.max (Zdigits2 m + e) (-1074)
   /\ snd (shr_fexp prec emax m e l) <= Z.max e (Zdigits2 m + e - 53))%Z.
Proof.
  intros Hm He. unfold shr_fexp, shr. rewrite fexp_eq.
  pose proof (Zdigits2_nonneg m) as HD.
  destruct (Z.max (Zdigits2 m + e - 53) (-1074) - e)%Z as [|n|n] eqn:En;
    cbn [fst snd]; rewrite ?shr_record_of_loc_m; try lia.
  destruct (@iter_shr_1_spec n (shr_record_of_loc m l)) as [H1 H2];
    [rewrite shr_record_of_loc_m; exact Hm|].
  rewrite shr_record_of_loc_m in H2. rewrite H2. lia.
Qed.

Lemma round_nearest_even_magnitude (m : Z) (l : location) :
  (0 <= m)%Z ->
  (0 <= round_nearest_even m l /\ Zdigits2 (round_nearest_even m l) <= Zdigits2 m + 1)%Z.
Proof.
  intro Hm.
  assert (R : (round_nearest_even m l = m \/ round_nearest_even m l = m + 1)%Z).
  { destruct l as [|[]]; cbn [round_nearest_even]; try tauto.
    destruct (Z.even m); tauto. }
  pose proof (Zdigits2_lt_pow Hm) as B. pose proof (Zdigits2_nonneg m) as HD.
  split; [lia|].
  apply Zdigits2_le; [lia|]. rewrite Z.pow_add_r by lia. change (2 ^ 1)%Z with 2%Z. lia.
Qed.

(** The rounding of [m * 2^e] is a zero or a finite number, not much larger. *)
Lemma binary_round_aux_magnitude (s : bool) (m e K : Z) (l : location) :
  (0 <= m)%Z -> (-1074 <= e <= 971)%Z -> (Zdigits2 m + e <= K)%Z -> (-1074 <= K <= 1023)%Z ->
  match binary_round_aux prec emax s m e l with
  | S754_zero s' => s' = s
  | S754_finite s' m' e' => s' = s /\ (Z.pos (digits2_pos m') + e' <= K + 1)%Z
  | _ => False
  end.
Proof.
  intros Hm He HK HB. unfold binary_round_aux.
  destruct (@shr_fexp_magnitude m e l Hm ltac:(lia)) as (A1 & A2 & A3 & A4).
  destruct (shr_fexp prec emax m e l) as [mrs' e']. cbn [fst snd] in *.
  destruct (@round_nearest_even_magnitude (shr_m mrs') (loc_of_shr_record mrs') A1)
    as (R1 & R2).
  destruct (@shr_fexp_magnitude (round_nearest_even (shr_m mrs') (loc_of_shr_record mrs'))
              e' loc_Exact R1 A2) as (B1 & B2 & B3 & B4).
  destruct (shr_fexp prec emax _ e' loc_Exact) as [mrs'' e'']. cbn [fst snd] in *.
  destruct (shr_m mrs'') as [|p|p] eqn:Em; [reflexivity| |lia].
  destruct (Z.leb_spec e'' (emax - prec)) as [L|L].
  - split; [reflexivity|]. cbn [Zdigits2] in B3. lia.
  - change (emax - prec)%Z with 971%Z in L. lia.
Qed.

(** The part of a finite double below the point. *)
Lemma floor_magnitude (m : positive) (e : Z) :
  (0 <= Z.shiftl (Z.pos m) e < 2 ^ Z.max 0 (Z.pos (digits2_pos m) + e))%Z.
Proof.
  pose proof (digits2_pos_bounds m) as [_ M].
  split; [apply Z.shiftl_nonneg; lia|].
  destruct (Z.le_gt_cases 0 e) as [He|He].
  - rewrite Z.shiftl_mul_pow2, Z.max_r, Z.pow_add_r by lia.
    apply Z.mul_lt_mono_pos_r; [apply Z.pow_pos_nonneg; lia|exact M].
  - rewrite Z.shiftl_div_pow2 by lia.
    apply Z.div_lt_upper_bound; [apply Z.pow_pos_nonneg; lia|].
    rewrite <- Z.pow_add_r by lia.
    eapply Z.lt_le_trans; [exact M|]. apply Z.pow_le_mono_r; lia.
Qed.

Lemma floor_magnitude_lower (m : positive) (e : Z) :
  (0 <= Z.pos (digits2_pos m) + e - 1)%Z ->
  (2 ^ (Z.pos (digits2_pos m) + e - 1) <= Z.shiftl (Z.pos m) e)%Z.
Proof.
  intro H. pose proof (digits2_pos_bounds m) as [M _].
  destruct (Z.le_gt_cases 0 e) as [He|He].
  - rewrite Z.shiftl_mul_pow2 by lia.
    replace (Z.pos (digits2_pos m) + e - 1)%Z with ((Z.pos (digits2_pos m) - 1) + e)%Z by lia.
    rewrite Z.pow_add_r by lia.
    apply Z.mul_le_mono_nonneg_r; [apply Z.pow_nonneg; lia|exact M].
  - rewrite Z.shiftl_div_pow2 by lia.
    apply Z.div_le_lower_bound; [apply Z.pow_pos_nonneg; lia|].
    rewrite <- Z.pow_add_r by lia.
    replace (- e + (Z.pos (digits2_pos m) + e - 1))%Z with (Z.pos (digits2_pos m) - 1)%Z by lia.
    exact M.
Qed.

(** *** Division by 8 *)

Lemma SFdiv_eight_magnitude (s : bool) (m : positive) (e : Z) :
  valid_binary (S754_finite s m e) = true ->
  match SF64div (S754_finite s m e) (Prim2SF 8%float) with
  | S754_zero s' => s' = s
  | S754_finite s' m' e' =>
      s' = s /\ (Z.pos (digits2_pos m') + e' <= Z.max (Z.pos (digits2_pos m) + e - 2) (-1073))%Z
  | _ => False
  end.
Proof.
  intro V. apply valid_binary_finite in V. destruct V as (D & E & _).
  change (Prim2SF 8%float) with (S754_finite false 4503599627370496 (-49)).
  unfold SF64div, SFdiv, SFdiv_core_binary. rewrite xorb_false_r.
  change (Zdigits2 (Z.pos m)) with (Z.pos (digits2_pos m)).
  change (Zdigits2 4503599627370496) with 53%Z.
  rewrite fexp_eq.
  set (d := Z.pos (digits2_pos m)) in *.
  set (e' := Z.min (Z.max (d + e - (53 + -49) - 53) (-1074)) (e - -49)).
  assert (He' : (-1074 <= e' <= 971 /\ e' <= Z.max (d + e - 57) (-1074) /\ e' <= e + 49)%Z)
    by (unfold e'; lia).
  assert (Hm' : match (e - -49 - e')%Z with
                | 0%Z => Z.pos m
                | Z.pos _ => Z.shiftl (Z.pos m) (e - -49 - e')
                | Z.neg _ => 0%Z
                end = (Z.pos m * 2 ^ (e + 49 - e'))%Z).
  { replace (e - -49 - e')%Z with (e + 49 - e')%Z by lia.
    destruct (e + 49 - e')%Z as [|p|p] eqn:Es; [lia| |lia].
    rewrite Z.shiftl_mul_pow2 by lia. reflexivity. }
  rewrite Hm'.
  pose proof (Z.div_eucl_eq (Z.pos m * 2 ^ (e + 49 - e')) 4503599627370496) as Q.
  pose proof (Z.mod_pos_bound (Z.pos m * 2 ^ (e + 49 - e')) 4503599627370496) as R.
  unfold Z.modulo in R.
  destruct (Z.div_eucl (Z.pos m * 2 ^ (e + 49 - e')) 4503599627370496) as [q r].
  specialize (Q ltac:(lia)). specialize (R ltac:(lia)).
  pose proof (digits2_pos_bounds m) as [_ M]. fold d in M.
  assert (P : (0 < 2 ^ (e + 49 - e'))%Z) by (apply Z.pow_pos_nonneg; lia).
  assert (Hq0 : (0 <= q)%Z) by nia.
  assert (Hq : (Zdigits2 q + e' <= Z.max (d + e - 3) (-1074))%Z).
  { destruct (Z.le_gt_cases 0 (d + e - 3 - e')) as [G|G].
    - assert (Zdigits2 q <= d + e - 3 - e')%Z; [|lia].
      apply Zdigits2_le; [exact G|]. split; [exact Hq0|].
      assert (T : (Z.pos m * 2 ^ (e + 49 - e') < 2 ^ (d + e - 3 - e') * 4503599627370496)%Z).
      { change 4503599627370496%Z with (2 ^ 52)%Z. rewrite <- Z.pow_add_r by lia.
        replace (d + e - 3 - e' + 52)%Z with (d + (e + 49 - e'))%Z by lia.
        rewrite Z.pow_add_r by lia.
        apply Z.mul_lt_mono_pos_r; [exact P|exact M]. }
      nia.
    - assert (q = 0)%Z; [|subst q; simpl; lia].
      assert (T : (Z.pos m * 2 ^ (e + 49 - e') < 4503599627370496)%Z).
      { change 4503599627370496%Z with (2 ^ 52)%Z.
        eapply Z.lt_le_trans; [apply Z.mul_lt_mono_pos_r; [exact P|exact M]|].
        rewrite <- Z.pow_add_r by lia. apply Z.pow_le_mono_r; lia. }
      nia. }
  pose proof (@binary_round_aux_magnitude s q e' (Z.max (d + e - 3) (-1074))
                (new_location 4503599627370496 r) Hq0 ltac:(lia) Hq ltac:(lia)) as B.
  destruct (binary_round_aux prec emax s q e' _) as [s'|s'| |s' m'' e'']; try exact B.
  destruct B as [B1 B2]. split; [exact B1|]. lia.
Qed.

(** *** Integers below 2^53 are doubles *)

Lemma pos_iter_xO (k d : positive) :
  Z.pos (Pos.iter xO k d) = (Z.pos k * 2 ^ Z.pos d)%Z
  /\ Z.pos (digits2_pos (Pos.iter xO k d)) = (Z.pos (digits2_pos k) + Z.pos d)%Z.
Proof.
  induction d as [|d IH] using Pos.peano_ind.
  - cbn [Pos.iter digits2_pos]. split; [lia|]. lia.
  - rewrite Pos.iter_succ. destruct IH as [IH1 IH2]. cbn [digits2_pos].
    rewrite Pos2Z.inj_xO, IH1, !Pos2Z.inj_succ, IH2, Z.pow_succ_r by lia. lia.
Qed.

Lemma binary_round_aux_exact (s : bool) (m : positive) (e : Z) :
  (Z.pos (digits2_pos m) <= 53)%Z -> (-1074 <= e <= 971)%Z ->
  binary_round_aux prec emax s (Z.pos m) e loc_Exact = S754_finite s m e.
Proof.
  intros D E. unfold binary_round_aux, shr_fexp.
  change (Zdigits2 (Z.pos m)) with (Z.pos (digits2_pos m)).
  rewrite fexp_eq.
  assert (N : forall z, (z <= 0)%Z ->
            shr (shr_record_of_loc (Z.pos m) loc_Exact) e z
            = (shr_record_of_loc (Z.pos m) loc_Exact, e)).
  { intros z Hz. unfold shr. destruct z; try reflexivity. lia. }
  rewrite N by lia.
  cbn [shr_record_of_loc shr_m loc_of_shr_record round_nearest_even].
  change (Zdigits2 (Z.pos m)) with (Z.pos (digits2_pos m)).
  rewrite fexp_eq.
  change {| shr_m := Z.pos m; shr_r := false; shr_s := false |}
    with (shr_record_of_loc (Z.pos m) loc_Exact).
  rewrite N by lia. cbn [shr_record_of_loc shr_m].
  destruct (Z.leb_spec e (emax - prec)) as [L|L]; [reflexivity|].
  change (emax - prec)%Z with 971%Z in L. lia.
Qed.

Lemma float_floor_of_Z (z : Z) :
  (0 < z < 2 ^ 53)%Z -> float_floor (float_of_Z z) = I_fin z.
Proof.
  intro H. unfold float_of_Z.
  destruct (Z.leb_spec 0 z); [|lia].
  destruct (Z.ltb_spec z (2 ^ 63)); [|lia]. cbn [andb].
  unfold float_floor. rewrite of_uint63_spec, Uint63.of_Z_spec.
  rewrite Z.mod_small by (change Uint63.wB with (2 ^ 63)%Z; lia).
  destruct z as [|k|k]; try lia.
  unfold binary_normalize, binary_round, shl_align. rewrite fexp_eq.
  pose proof (digits2_pos_bounds k) as [Lo Hi].
  assert (D : (Z.pos (digits2_pos k) <= 53)%Z).
  { destruct (Z.le_gt_cases (Z.pos (digits2_pos k)) 53) as [L|L]; [exact L|exfalso].
    assert (2 ^ 53 <= 2 ^ (Z.pos (digits2_pos k) - 1))%Z by (apply Z.pow_le_mono_r; lia).
    lia. }
  destruct (Z.max (Z.pos (digits2_pos k) + 0 - 53) (-1074) - 0)%Z as [|d|d] eqn:Ed.
  - rewrite binary_round_aux_exact by lia. rewrite Z.shiftl_0_r. reflexivity.
  - lia.
  - destruct (pos_iter_xO k d) as [V G].
    rewrite binary_round_aux_exact by lia.
    f_equal. rewrite Z.shiftl_div_pow2 by lia. rewrite V.
    replace (- Z.max (Z.pos (digits2_pos k) + 0 - 53) (-1074))%Z with (Z.pos d) by lia.
    apply Z.div_mul. apply Z.pow_nonzero; lia.
Qed.

(** *** The radius the panel derives from its window *)

Lemma float_floor_div_eight (window : float) (w : Z) :
  (float_floor window = I_neginf \/ (float_floor window = I_fin w /\ w < 2 ^ 32)%Z) ->
  float_floor (window / 8)%float = I_neginf
  \/ exists z, float_floor (window / 8)%float = I_fin z /\ (z < 2 ^ 32)%Z.
Proof.
  intro H. unfold float_floor in *. rewrite div_spec.
  pose proof (Prim2SF_valid window) as V.
  change (Prim2SF 8%float) with (S754_finite false 4503599627370496 (-49)).
  destruct (Prim2SF window) as [s|s| |s m e].
  - right. exists 0%Z. split; [reflexivity|lia].
  - destruct s; [left; reflexivity|].
    destruct H as [H|[H _]]; discriminate.
  - destruct H as [H|[H _]]; discriminate.
  - pose proof (SFdiv_eight_magnitude s m e V) as B.
    change (Prim2SF 8%float) with (S754_finite false 4503599627370496 (-49)) in B.
    right.
    destruct (SF64div (S754_finite s m e) (S754_finite false 4503599627370496 (-49)))
      as [s'|s'| |s' m' e'] eqn:Q; try contradiction.
    + exists 0%Z. split; [reflexivity|lia].
    + destruct B as [-> B]. eexists. split; [reflexivity|].
      destruct s.
      * assert (Z.shiftl (Z.neg m') e' < 0)%Z by (apply Z.shiftl_neg; lia). lia.
      * destruct H as [H|[H Hw]]; [discriminate|]. injection H as H.
        assert (M : (Z.pos (digits2_pos m) + e <= 32)%Z).
        { destruct (Z.le_gt_cases (Z.pos (digits2_pos m) + e) 32) as [L|L];
            [exact L|exfalso].
          pose proof (@floor_magnitude_lower m e ltac:(lia)) as G.
          assert (2 ^ 32 <= 2 ^ (Z.pos (digits2_pos m) + e - 1))%Z
            by (apply Z.pow_le_mono_r; lia).
          lia. }
        pose proof (floor_magnitude m' e') as [_ F].
        eapply Z.lt_le_trans; [exact F|]. apply Z.pow_le_mono_r; lia.
Qed.

Lemma panelSmoothingRadius_exits (window : float) (w : Z) :
  (float_floor window = I_neginf \/ (float_floor window = I_fin w /\ w < 2 ^ 32)%Z) ->
  loopExits (smoothingRadius (panelSmoothingRadius window)) = true.
Proof.
  intro H. unfold panelSmoothingRadius, smoothingRadius.
  change (@Math_floor float Float64) with float_floor.
  destruct (float_floor_div_eight window H) as [->|(z & -> & Hz)]; cbn [Math_max].
  - change (float_floor (float_of_integral (I_fin 1))) with (I_fin 1). reflexivity.
  - cbn [float_of_integral]. rewrite float_floor_of_Z by lia.
    cbn [Math_max loopExits]. unfold max_safe_count. apply Z.ltb_lt. lia.
Qed.

Lemma panelWindow_not_nan (windowSize : option float) :
  PrimFloat.is_nan (panelWindow windowSize) = false.
Proof.
  unfold panelWindow. destruct windowSize as [w|]; [|reflexivity].
  destruct (PrimFloat.is_nan w) eqn:N; [reflexivity|].
  cbn [orb]. destruct (PrimFloat.is_zero w); [reflexivity|exact N].
Qed.

Lemma correlationAt_defined (seriesA seriesB : list float) (window : float) (i : nat) (v : float) :
  PrimFloat.is_nan window = false ->
  correlationAt seriesA seriesB (correlationWindow window) i = Some v ->
  float_floor window = I_neginf
  \/ exists w, float_floor window = I_fin w /\ (w <= Z.of_nat i)%Z.
Proof.
  intros N H. unfold correlationAt, correlationWindow in H.
  change (@Math_floor float Float64) with float_floor in H.
  assert (F : float_floor window <> I_nan).
  { unfold float_floor. rewrite is_nan_spec in N.
    destruct (Prim2SF window) as [s|[]| |[] m e]; try discriminate. }
  destruct (float_floor window) as [| | |w]; cbn [Math_max int_ltb of_index] in H.
  - congruence.
  - left. reflexivity.
  - discriminate.
  - right. exists w. split; [reflexivity|].
    destruct (Z.ltb_spec (Z.of_nat i) (Z.max w 1)); [discriminate|lia].
Qed.

Lemma panelCorrelation_exits (windowSize : option float) (seriesA seriesB : list float) :
  arrayLength (length seriesA) -> arrayLength (length seriesB) ->
  smoothSeries (slidingCorrelation seriesA seriesB (panelWindow windowSize))
    (panelSmoothingRadius (panelWindow windowSize)) <> Loops.
Proof.
  intros LA LB H. apply smoothSeries_loops in H. destruct H as (E & i & v & Hv).
  assert (Hi : i < Nat.min (length seriesA) (length seriesB)).
  { rewrite <- (slidingCorrelation_length seriesA seriesB (panelWindow windowSize)).
    apply nth_error_Some. rewrite Hv. discriminate. }
  apply (nth_error_nth _ _ None) in Hv.
  rewrite slidingCorrelation_nth in Hv by exact Hi.
  apply correlationAt_defined in Hv; [|apply panelWindow_not_nan].
  unfold arrayLength in LA, LB.
  assert (X : float_floor (panelWindow windowSize) = I_neginf
              \/ (float_floor (panelWindow windowSize) = I_fin
                    (match float_floor (panelWindow windowSize) with
                     | I_fin w => w
                     | _ => 0
                     end)
                  /\ (match float_floor (panelWindow windowSize) with
                      | I_fin w => w
                      | _ => 0
                      end < 2 ^ 32)%Z)).
  { destruct Hv as [Hv|(w & Hw & Hwi)]; [left; exact Hv|right].
    rewrite Hw. split; [reflexivity|lia]. }
  rewrite (panelSmoothingRadius_exits _ X) in E. discriminate.
Qed.

(** ** Numbers that are not finite inside a window *)

Lemma SFadd_poison_r (s : bool) (acc x : spec_float) :
  SFpoison s x -> SFpoison s (SF64add acc x).
Proof.
  destruct acc as [sa|sa| |sa ma ea], x as [sx|sx| |sx mx ex]; cbn [SFpoison];
    try contradiction; try exact (fun _ => I); intros <-; cbn [SF64add SFadd SFpoison];
    try reflexivity.
  destruct sa, sx; cbn [SFpoison]; trivial.
Qed.

Lemma SFadd_poison_l (s : bool) (acc x : spec_float) :
  SFpoison s acc -> SFpoison s (SF64add acc x).
Proof.
  destruct acc as [sa|sa| |sa ma ea], x as [sx|sx| |sx mx ex]; cbn [SFpoison];
    try contradiction; try exact (fun _ => I); intros <-; cbn [SF64add SFadd SFpoison];
    try reflexivity.
  destruct sa, sx; cbn [SFpoison]; trivial.
Qed.

Lemma float_sum_poison (s : bool) (slice : list float) :
  forall acc,
    SFpoison s (Prim2SF acc) \/ Exists (fun x => SFpoison s (Prim2SF x)) slice ->
    SFpoison s (Prim2SF (fold_left PrimFloat.add slice acc)).
Proof.
  induction slice as [|x rest IH]; intros acc H; cbn [fold_left].
  - destruct H as [H|H]; [exact H|inversion H].
  - apply IH. destruct H as [H|H].
    + left. rewrite add_spec. apply SFadd_poison_l, H.
    + inversion H as [? ? Hx|? ? Hx]; subst.
      * left. rewrite add_spec. apply SFadd_poison_r, Hx.
      * right. exact Hx.
Qed.

Lemma SFdiv_poison (s : bool) (x n : spec_float) :
  SFpoison s x -> SFsigned false n -> SFpoison s (SF64div x n).
Proof.
  destruct x as [sx|sx| |sx mx ex], n as [sn|sn| |sn mn en]; cbn [SFpoison SFsigned];
    try contradiction; try exact (fun _ _ => I); intros <- ->;
    cbn [SF64div SFdiv SFpoison]; trivial.
  apply xorb_false_r.
Qed.

Lemma SFsub_poison (s : bool) (x mean : spec_float) :
  SFpoison s x -> SFpoison s mean -> SF64sub x mean = S754_nan.
Proof.
  destruct x as [sx|sx| |sx mx ex], mean as [sm|sm| |sm mm em]; cbn [SFpoison];
    try contradiction; try reflexivity; intros H1 H2; subst; destruct s; reflexivity.
Qed.

Lemma float_squares_nan (mean : float) (slice : list float) :
  forall acc,
    PrimFloat.is_nan acc = true
    \/ Exists (fun x => PrimFloat.is_nan (PrimFloat.sub x mean) = true) slice ->
    PrimFloat.is_nan
      (fold_left (fun acc val => PrimFloat.add acc (Math_pow2 (PrimFloat.sub val mean)))
         slice acc) = true.
Proof.
  assert (N : forall a b, PrimFloat.is_nan a = true \/ PrimFloat.is_nan b = true ->
              PrimFloat.is_nan (PrimFloat.add a b) = true).
  { intros a b. rewrite !is_nan_spec, add_spec.
    destruct (Prim2SF a) as [| | |], (Prim2SF b) as [| | |]; cbn; intros [H|H];
      try discriminate; reflexivity. }
  assert (Q : forall a, PrimFloat.is_nan a = true ->
              PrimFloat.is_nan (Math_pow2 a) = true).
  { intros a. unfold Math_pow2. change (@num_mul float Float64) with PrimFloat.mul.
    rewrite !is_nan_spec, mul_spec.
    destruct (Prim2SF a); cbn; intro H; try discriminate; reflexivity. }
  induction slice as [|x rest IH]; intros acc H; cbn [fold_left].
  - destruct H as [H|H]; [exact H|inversion H].
  - apply IH. destruct H as [H|H].
    + left. apply N. left. exact H.
    + inversion H as [? ? Hx|? ? Hx]; subst.
      * left. apply N. right. apply Q, Hx.
      * right. exact Hx.
Qed.

(** The deviation of a window that holds a number that is not finite. *)
Lemma float_std_poison (slice : list float) (safeWindow : float) :
  SFsigned false (Prim2SF safeWindow) ->
  Exists (fun x => PrimFloat.is_finite x = false) slice ->
  PrimFloat.is_nan
    (PrimFloat.sqrt
       (PrimFloat.div
          (fold_left
             (fun acc val =>
                PrimFloat.add acc
                  (Math_pow2 (PrimFloat.sub val
                                (PrimFloat.div (fold_left PrimFloat.add slice PrimFloat.zero)
                                   safeWindow))))
             slice PrimFloat.zero)
          safeWindow)) = true.
Proof.
  intros W E.
  set (mean := PrimFloat.div (fold_left PrimFloat.add slice PrimFloat.zero) safeWindow).
  assert (D : Exists (fun x => PrimFloat.is_nan (PrimFloat.sub x mean) = true) slice).
  { apply Exists_exists in E. destruct E as (x & Hx & Fx). apply Exists_exists.
    exists x. split; [exact Hx|].
    rewrite is_finite_spec in Fx.
    assert (P : exists s, SFpoison s (Prim2SF x)).
    { destruct (Prim2SF x) as [s|s| |s m e]; try discriminate;
        [exists s; reflexivity|exists true; exact I]. }
    destruct P as (s & P).
    assert (M : SFpoison s (Prim2SF mean)).
    { unfold mean. rewrite div_spec. apply SFdiv_poison; [|exact W].
      apply float_sum_poison. right. apply Exists_exists. exists x. tauto. }
    rewrite is_nan_spec, sub_spec, (@SFsub_poison s _ _ P M). reflexivity. }
  pose proof (@float_squares_nan mean slice PrimFloat.zero (or_intror D)) as S.
  rewrite is_nan_spec in S. rewrite is_nan_spec, sqrt_spec, div_spec.
  destruct (Prim2SF (fold_left _ slice PrimFloat.zero)); try discriminate.
  reflexivity.
Qed.

Lemma float_mul_nan (x y : float) :
  PrimFloat.is_nan x = true \/ PrimFloat.is_nan y = true ->
  PrimFloat.mul x y = PrimFloat.nan.
Proof.
  rewrite !is_nan_spec. intro H. apply Prim2SF_inj. rewrite mul_spec.
  change (Prim2SF PrimFloat.nan) with S754_nan.
  destruct (Prim2SF x), (Prim2SF y); destruct H as [H|H]; try discriminate; reflexivity.
Qed.

Lemma windowCorrelation_poison (sliceA sliceB : list float) (safeWindow v : float) :
  SFsigned false (Prim2SF safeWindow) ->
  Exists (fun x => PrimFloat.is_finite x = false) sliceA
  \/ Exists (fun x => PrimFloat.is_finite x = false) sliceB ->
  windowCorrelation sliceA sliceB safeWindow = Some v ->
  PrimFloat.is_nan v = true.
Proof.
  intros W E. unfold windowCorrelation, Array_reduce.
  change (@num_div float Float64) with PrimFloat.div.
  change (@num_add float Float64) with PrimFloat.add.
  change (@num_sub float Float64) with PrimFloat.sub.
  change (@num_mul float Float64) with PrimFloat.mul.
  change (@num_eqb float Float64) with PrimFloat.eqb.
  change (@Math_sqrt float Float64) with PrimFloat.sqrt.
  change (@num_zero float Float64) with PrimFloat.zero.
  change (fun a b : float => PrimFloat.add a b) with PrimFloat.add.
  destruct (_ || _); [discriminate|]. intros [= <-].
  rewrite float_mul_nan, float_div_nan; [reflexivity|].
  destruct E as [E|E]; [left|right]; apply float_std_poison; assumption.
Qed.

Lemma trailingWindow_non_finite (series : list float) (i j w : nat) :
  i - w <= j < i -> nonFiniteAt series j ->
  Exists (fun x => PrimFloat.is_finite x = false) (trailingWindow PrimFloat.nan series i w).
Proof.
  intros Hj (x & Hx & Fx). apply Exists_exists. exists x. split; [|exact Fx].
  unfold trailingWindow. apply in_map_iff. exists j. split.
  - apply nth_error_nth. exact Hx.
  - apply in_seq. lia.
Qed.

(** ** Exact arithmetic: linearly related series, and the window of two *)

Section ExactLinear.

Local Open Scope R_scope.








(** The z-score of the later of two residuals. *)
Lemma exact_zscoreOf_pair (previous current z : R) :
  zscoreOf current [previous; current] = Some z -> z = 1 \/ z = -1.
Proof.
  unfold zscoreOf, Array_reduce, Math_pow2. cbn [length Nat.ltb Nat.leb fold_left].
  cbn [of_integral Exact real_of_integral of_index Number_isFinite negb orb
       num_add num_sub num_mul num_div num_zero Math_sqrt num_eqb Z.of_nat
       Pos.of_succ_nat Pos.succ].
  set (d := (current - previous) / 2).
  replace (current - (0 + previous + current) / 2) with d by (unfold d; field).
  replace (previous - (0 + previous + current) / 2) with (- d) by (unfold d; field).
  replace ((0 + - d * - d + d * d) / 2) with (Rsqr d) by (unfold Rsqr; field).
  rewrite sqrt_Rsqr_abs.
  destruct (real_eqb (Rabs d) 0) eqn:E; [discriminate|].
  apply real_eqb_neq in E. intros [= <-].
  unfold Rabs in *. destruct (Rcase_abs d) as [N|N].
  - right. field. lra.
  - left. field. lra.
Qed.

Lemma exact_zscoreAt_two (residuals : list (option R)) (i : nat) (z : R) :
  zscoreAt residuals (I_fin 2) i = Some z -> z = 1 \/ z = -1.
Proof.
  unfold zscoreAt. destruct (nth i residuals None) as [current|] eqn:Ec; [|discriminate].
  cbn [int_sub int_ltb of_index Math_max].
  replace (2 - 1)%Z with 1%Z by lia.
  destruct (Z.ltb_spec (Z.of_nat i) 1) as [|Hi]; [discriminate|].
  replace (Z.max 0 (Z.of_nat i - 1)) with (Z.of_nat (i - 1)) by lia.
  cbn [windowIndices]. rewrite Nat2Z.id.
  replace (S i - (i - 1))%nat with 2%nat by lia.
  cbn [seq collectResiduals].
  replace (S (i - 1)) with i by lia. rewrite Ec.
  cbn [Number_isFinite Exact negb].
  destruct (nth (i - 1) residuals None) as [previous|].
  - apply exact_zscoreOf_pair.
  - discriminate.
Qed.

End ExactLinear.

(** ** Exact arithmetic: a defined z-score of a window of two *)

Lemma exact_zscoreWindow_below_three (window : R) :
  (window < 3)%R -> zscoreWindow window = I_fin 2.
Proof.
  intro H. unfold zscoreWindow. cbn [Math_floor Exact Math_max].
  destruct (base_Int_part window) as [B _].
  assert (IZR (Int_part window) < IZR 3)%R by lra.
  apply lt_IZR in H0. f_equal. lia.
Qed.

Lemma exact_zscoreOf_pair_defined (previous current : R) :
  previous <> current -> exists z, zscoreOf current [previous; current] = Some z.
Proof.
  intro H. unfold zscoreOf, Array_reduce, Math_pow2.
  cbn [length Nat.ltb Nat.leb fold_left].
  cbn [of_integral Exact real_of_integral of_index Number_isFinite negb orb
       num_add num_sub num_mul num_div num_zero Math_sqrt num_eqb Z.of_nat
       Pos.of_succ_nat Pos.succ].
  set (d := ((current - previous) / 2)%R).
  replace (current - (0 + previous + current) / 2)%R with d by (unfold d; field).
  replace (previous - (0 + previous + current) / 2)%R with (- d)%R by (unfold d; field).
  replace ((0 + - d * - d + d * d) / 2)%R with (Rsqr d) by (unfold Rsqr; field).
  rewrite sqrt_Rsqr_abs.
  assert (N : real_eqb (Rabs d) 0 = false).
  { apply real_eqb_neq, Rabs_no_R0. unfold d. lra. }
  rewrite N. eexists. reflexivity.
Qed.

Lemma exact_window_two_example :
  exists z : R,
    nth_error (computeCointegrationZScore [0; 1; 3]%R [0; 1; 1]%R 2%R) 2 = Some (Some z).
Proof.
  unfold computeCointegrationZScore. cbn [length Nat.min Nat.eqb].
  assert (V : valid (performLinearRegression [0; 1; 3]%R [0; 1; 1]%R) = true)
    by (rewrite performLinearRegression_valid; reflexivity).
  rewrite V. cbn [negb].
  rewrite exact_zscoreWindow_below_three by lra.
  generalize (performLinearRegression [0; 1; 3]%R [0; 1; 1]%R). intro reg.
  cbn [seq map nth_error residualsOf residualAt].
  unfold zscoreAt.
  cbn [isFiniteNumber Number_isFinite Exact negb orb nth].
  destruct (@exact_zscoreOf_pair_defined
              (1 - (alpha reg + beta reg * 1))%R (3 - (alpha reg + beta reg * 1))%R
              ltac:(lra)) as (z & Hz).
  exists z. f_equal. exact Hz.
Qed.

(** ** The smoother with a radius that covers the sequence *)

Section SmootherSaturated.

Context {num : Type} {JN : JsNumber num}.

Lemma fold_left_skip {A B} (f : A -> B -> A) (l : list B) :
  (forall st x, In x l -> f st x = st) -> forall st, fold_left f l st = st.
Proof.
  induction l as [|x rest IH]; intros H st; [reflexivity|].
  simpl. rewrite (H st x) by (left; reflexivity).
  apply IH. intros st' y Hy. apply H. right. exact Hy.
Qed.

Lemma smoothStep_outside (values : list (option num)) (idx : nat) (st : num * nat)
  (offset : Z) :
  (Z.of_nat idx + offset < 0 \/ Z.of_nat (length values) <= Z.of_nat idx + offset)%Z ->
  smoothStep values idx st offset = st.
Proof.
  intro H. unfold smoothStep.
  destruct (Z.ltb_spec (Z.of_nat idx + offset) 0) as [|H0]; [reflexivity|].
  destruct (Z.geb_spec (Z.of_nat idx + offset) (Z.of_nat (length values))) as [|H1];
    [reflexivity|lia].
Qed.

Lemma smoothStep_inside (values : list (option num)) (idx : nat) (st : num * nat)
  (offset : Z) (k : nat) :
  (Z.of_nat idx + offset = Z.of_nat k)%Z -> k < length values ->
  smoothStep values idx st offset = smoothVisit values st k.
Proof.
  intros E Hk. unfold smoothStep, smoothVisit. rewrite E.
  destruct (Z.ltb_spec (Z.of_nat k) 0) as [|H0]; [lia|].
  destruct (Z.geb_spec (Z.of_nat k) (Z.of_nat (length values))) as [|H1]; [lia|].
  cbn [orb]. rewrite Nat2Z.id. reflexivity.
Qed.

(** With [length - 1 <= r] the loop over the offsets visits every index of
    the sequence once, in the order of the indices. *)
Lemma smoothLoop_saturated (values : list (option num)) (idx : nat) (r : Z) :
  idx < length values -> (Z.of_nat (length values) - 1 <= r)%Z ->
  forall st,
    fold_left (smoothStep values idx) (offsets r) st
    = fold_left (smoothVisit values) (seq 0 (length values)) st.
Proof.
  intros Hi Hr st. unfold offsets.
  set (n := length values) in *.
  set (a := Z.to_nat (r - Z.of_nat idx)).
  assert (Hs : Z.to_nat (2 * r + 1) = a + (n + (Z.to_nat (2 * r + 1) - a - n))) by lia.
  rewrite Hs, !seq_app, !map_app, !fold_left_app.
  rewrite (@fold_left_skip _ _ (smoothStep values idx)
             (map (fun k => (Z.of_nat k - r)%Z) (seq 0 a))).
  2:{ intros st' x Hx. apply in_map_iff in Hx. destruct Hx as (k & <- & Hk).
      apply in_seq in Hk. apply smoothStep_outside. lia. }
  rewrite (@fold_left_skip _ _ (smoothStep values idx)
             (map (fun k => (Z.of_nat k - r)%Z) (seq (0 + a + n) _))).
  2:{ intros st' x Hx. apply in_map_iff in Hx. destruct Hx as (k & <- & Hk).
      apply in_seq in Hk. apply smoothStep_outside. fold n. lia. }
  cbn [Nat.add].
  assert (G : forall m b st0,
             b + m <= n ->
             fold_left (smoothStep values idx)
               (map (fun k => (Z.of_nat k - r)%Z) (seq (a + b) m)) st0
             = fold_left (smoothVisit values) (seq b m) st0).
  { induction m as [|m IH]; intros b st0 Hb; [reflexivity|].
    cbn [seq map fold_left].
    rewrite (@smoothStep_inside values idx st0 _ b) by (fold n; lia).
    replace (S (a + b)) with (a + S b) by lia. apply IH. lia. }
  replace a with (a + 0) at 1 by lia. apply G. lia.
Qed.

Lemma smoothAt_saturated (values : list (option num)) (r : Z) (i j : nat) (x y : num) :
  i < length values -> j < length values -> (Z.of_nat (length values) - 1 <= r)%Z ->
  smoothAt values (I_fin r) i (Some x) = smoothAt values (I_fin r) j (Some y).
Proof.
  intros Hi Hj Hr. unfold smoothAt, smoothLoop.
  destruct (r <? max_safe_count)%Z; [|reflexivity].
  rewrite !smoothLoop_saturated by assumption. reflexivity.
Qed.

Lemma smoothVisit_finiteValues (values : list (option num)) :
  forall (rest before : list (option num)) (st : num * nat),
    values = before ++ rest ->
    fold_left (smoothVisit values) (seq (length before) (length rest)) st
    = (fold_left num_add (finiteValues rest) (fst st),
       snd st + length (finiteValues rest)).
Proof.
  induction rest as [|v rest IH]; intros before st Hv.
  - simpl. rewrite Nat.add_0_r. destruct st; reflexivity.
  - cbn [length seq fold_left].
    assert (N : nth (length before) values None = v).
    { rewrite Hv, app_nth2, Nat.sub_diag by lia. reflexivity. }
    assert (L : length (before ++ [v]) = S (length before))
      by (rewrite length_app; simpl; lia).
    specialize (IH (before ++ [v])). rewrite L in IH.
    rewrite IH by (rewrite <- app_assoc; exact Hv).
    unfold smoothVisit. rewrite N. cbn [finiteValues].
    destruct v as [w|]; [|reflexivity].
    destruct (Number_isFinite w); cbn [negb fst snd fold_left length];
      [|reflexivity].
    f_equal. lia.
Qed.

Lemma smoothAt_covering (values : list (option num)) (r : Z) (i : nat) (x : num)
  (y : option num) :
  i < length values -> (Z.of_nat (length values) - 1 <= r)%Z ->
  smoothAt values (I_fin r) i (Some x) = Returns y ->
  y = (if (0 <? length (finiteValues values))%nat
       then Some (num_div (Array_reduce num_add (finiteValues values) num_zero)
                    (of_integral (of_index (length (finiteValues values)))))
       else None).
Proof.
  intros Hi Hr. unfold smoothAt, smoothLoop.
  destruct (r <? max_safe_count)%Z; [|discriminate]. cbn [outcome_bind].
  rewrite smoothLoop_saturated by assumption.
  rewrite (@smoothVisit_finiteValues values values [] (num_zero, 0) eq_refl).
  cbn [fst snd Nat.add]. intros [= <-]. reflexivity.
Qed.

End SmootherSaturated.

(** ** The samples an output depends on *)

Lemma nth_error_map_seq {T} (f : nat -> T) (n i : nat) :
  i < n -> nth_error (map f (seq 0 n)) i = Some (f i).
Proof.
  intro Hi. rewrite nth_error_map, nth_error_seq.
  destruct (Nat.ltb_spec i n); [reflexivity|lia].
Qed.

Lemma trailingWindow_agree {T} (d : T) (arr arr' : list T) (i w : nat) :
  (forall j, i - w <= j < i -> nth_error arr j = nth_error arr' j) ->
  i <= length arr -> w <= i ->
  trailingWindow d arr i w = trailingWindow d arr' i w.
Proof.
  intros H Hi Hw. unfold trailingWindow. apply map_ext_in. intros j Hj.
  apply in_seq in Hj.
  assert (J : j < length arr) by lia.
  destruct (nth_error arr j) as [x|] eqn:E; [|apply nth_error_None in E; lia].
  rewrite (nth_error_nth _ _ d E).
  rewrite H in E by lia. rewrite (nth_error_nth _ _ d E). reflexivity.
Qed.

(** ** The smoother on an isolated value *)

Lemma offsets_split (r : Z) :
  (0 <= r)%Z ->
  offsets r
  = map (fun k => (Z.of_nat k - r)%Z) (seq 0 (Z.to_nat r))
    ++ 0%Z :: map (fun k => (Z.of_nat k - r)%Z) (seq (S (Z.to_nat r)) (Z.to_nat r)).
Proof.
  intro H. unfold offsets.
  replace (Z.to_nat (2 * r + 1)) with (Z.to_nat r + S (Z.to_nat r)) by lia.
  rewrite seq_app, map_app. cbn [seq map Nat.add]. f_equal. f_equal. lia.
Qed.

Lemma smoothStep_skip (values : list (option float)) (idx : nat) (st : float * nat)
  (offset : Z) :
  (forall j w, Z.of_nat j = (Z.of_nat idx + offset)%Z ->
     nth_error values j = Some (Some w) -> PrimFloat.is_finite w = false) ->
  smoothStep values idx st offset = st.
Proof.
  intro H. unfold smoothStep.
  destruct (Z.ltb_spec (Z.of_nat idx + offset) 0) as [|H0]; [reflexivity|].
  destruct (Z.geb_spec (Z.of_nat idx + offset) (Z.of_nat (length values))) as [|H1];
    [reflexivity|]. cbn [orb].
  destruct (nth (Z.to_nat (Z.of_nat idx + offset)) values None) as [w|] eqn:E;
    [|reflexivity].
  assert (N : nth_error values (Z.to_nat (Z.of_nat idx + offset)) = Some (Some w)).
  { rewrite <- E. apply nth_error_nth'. lia. }
  change (@Number_isFinite float Float64 w) with (PrimFloat.is_finite w).
  rewrite (H (Z.to_nat (Z.of_nat idx + offset)) w ltac:(lia) N). reflexivity.
Qed.

Lemma float_zero_add_eqb (v : float) :
  PrimFloat.is_finite v = true ->
  PrimFloat.eqb (PrimFloat.add PrimFloat.zero v) v = true.
Proof.
  rewrite is_finite_spec, eqb_spec, add_spec.
  change (Prim2SF PrimFloat.zero) with (S754_zero false).
  destruct (Prim2SF v) as [s|s| |s m e]; try discriminate; intros _.
  - destruct s; reflexivity.
  - cbn [SF64add SFadd]. rewrite SFeqb_refl. reflexivity.
Qed.

Lemma float_eqb_refl (v : float) :
  PrimFloat.is_finite v = true -> PrimFloat.eqb v v = true.
Proof.
  rewrite is_finite_spec, eqb_spec, SFeqb_refl.
  destruct (Prim2SF v); try discriminate; reflexivity.
Qed.

(** ** Exact arithmetic: smoothing stays in the range of its input *)

Section ExactSmoothing.

Local Open Scope R_scope.




End ExactSmoothing.

(** ** The difference of two doubles *)

Lemma binary_normalize_signed (m e : Z) :
  m <> 0%Z -> (-1074 <= e)%Z ->
  exists s, SFsigned s (binary_normalize prec emax m e false).
Proof.
  intros Hm He.
  assert (G : forall s (k : positive), SFsigned s (binary_round prec emax s k e)).
  { intros s k. unfold binary_round, shl_align. rewrite fexp_eq.
    destruct (Z.max (Z.pos (digits2_pos k) + e - 53) (-1074) - e)%Z eqn:En;
      apply binary_round_aux_signed; lia. }
  destruct m as [|k|k]; [congruence| |]; cbn [binary_normalize]; eexists; apply G.
Qed.

Lemma shl_align_fst (m : positive) (e ez : Z) :
  (ez <= e)%Z ->
  Z.pos (fst (shl_align m e ez)) = (Z.pos m * 2 ^ (e - ez))%Z
  /\ Z.pos (digits2_pos (fst (shl_align m e ez))) = (Z.pos (digits2_pos m) + (e - ez))%Z.
Proof.
  intro H. unfold shl_align.
  destruct (ez - e)%Z as [|d|d] eqn:E; cbn [fst]; try lia.
  - replace (e - ez)%Z with 0%Z by lia. rewrite Z.pow_0_r. lia.
  - destruct (pos_iter_xO m d) as [V D]. rewrite V, D.
    replace (e - ez)%Z with (Z.pos d) by lia. lia.
Qed.

(** Two finite doubles that are not equal have a difference that is not a
    zero. *)
Lemma float_sub_not_zero (x y : float) :
  PrimFloat.is_finite x = true -> PrimFloat.is_finite y = true ->
  PrimFloat.eqb x y = false ->
  PrimFloat.eqb (PrimFloat.sub x y) PrimFloat.zero = false.
Proof.
  rewrite !is_finite_spec, eqb_zero_spec, eqb_spec, sub_spec.
  pose proof (Prim2SF_valid x) as Vx. pose proof (Prim2SF_valid y) as Vy.
  destruct (Prim2SF x) as [sx|sx| |sx mx ex], (Prim2SF y) as [sy|sy| |sy my ey];
    try discriminate; intros _ _ E; try reflexivity; try discriminate E.
  unfold SF64sub, SFsub.
  apply valid_binary_finite in Vx, Vy.
  destruct Vx as (Dx & Ex & Cx), Vy as (Dy & Ey & Cy).
  set (ez := Z.min ex ey).
  destruct (@shl_align_fst mx ex ez ltac:(unfold ez; lia)) as [Vx Gx].
  destruct (@shl_align_fst my ey ez ltac:(unfold ez; lia)) as [Vy Gy].
  set (d := (cond_Zopp sx (Z.pos (fst (shl_align mx ex ez)))
             - cond_Zopp sy (Z.pos (fst (shl_align my ey ez))))%Z).
  assert (Hd : d <> 0%Z).
  { unfold d. intro Z0.
    assert (S : sx = sy) by (destruct sx, sy; cbn [cond_Zopp] in Z0; try reflexivity; lia).
    subst sy.
    assert (Q : fst (shl_align mx ex ez) = fst (shl_align my ey ez))
      by (destruct sx; cbn [cond_Zopp] in Z0; lia).
    rewrite Q in Gx. rewrite Gy in Gx.
    assert (Ee : ex = ey) by lia. subst ey.
    rewrite Q in Vx. rewrite Vy in Vx.
    assert (P : (0 < 2 ^ (ex - ez))%Z) by (apply Z.pow_pos_nonneg; unfold ez; lia).
    assert (M : mx = my) by nia. subst my.
    unfold SFeqb, SFcompare in E.
    rewrite Z.compare_refl, Pos.compare_cont_refl in E.
    destruct sx; discriminate. }
  destruct (@binary_normalize_signed d ez Hd ltac:(unfold ez; lia)) as (s & Hs).
  destruct (binary_normalize prec emax d ez false); try contradiction; reflexivity.
Qed.

Lemma float_sub_zero_r (x y : float) :
  PrimFloat.is_finite x = true -> PrimFloat.eqb x PrimFloat.zero = false ->
  float_is_zero y -> PrimFloat.sub x y = x.
Proof.
  unfold float_is_zero. rewrite is_finite_spec, !eqb_zero_spec. intros F N Z0.
  apply Prim2SF_inj. rewrite sub_spec.
  destruct (Prim2SF x) as [sx|sx| |sx mx ex], (Prim2SF y) as [sy|sy| |sy my ey];
    try discriminate. reflexivity.
Qed.

Lemma float_zero_div_finite (x d : float) :
  float_is_zero x -> PrimFloat.is_finite d = true ->
  PrimFloat.eqb d PrimFloat.zero = false ->
  float_is_zero (PrimFloat.div x d).
Proof.
  unfold float_is_zero. rewrite is_finite_spec, !eqb_zero_spec, div_spec.
  destruct (Prim2SF x) as [sx|sx| |sx mx ex], (Prim2SF d) as [sd|sd| |sd md ed];
    try discriminate; reflexivity.
Qed.

Lemma float_zero_mul_finite (x h : float) :
  float_is_zero x -> PrimFloat.is_finite h = true -> float_is_zero (PrimFloat.mul x h).
Proof.
  unfold float_is_zero. rewrite is_finite_spec, !eqb_zero_spec, mul_spec.
  destruct (Prim2SF x) as [sx|sx| |sx mx ex], (Prim2SF h) as [sh|sh| |sh mh eh];
    try discriminate; reflexivity.
Qed.

(** ** The ticks of the time axis *)

(** [Math.round] on ties, on negative numbers and next to one half. *)
Lemma float_round_examples :
  float_round 2.5%float = I_fin 3 /\ float_round (-2.5)%float = I_fin (-2)
  /\ float_round 0x1.fffffffffffffp-2%float = I_fin 0
  /\ float_round (-0.5)%float = I_fin 0 /\ float_round (-0.75)%float = I_fin (-1)
  /\ float_round 1.5%float = I_fin 2 /\ float_round 7%float = I_fin 7
  /\ float_round 0.5%float = I_fin 1.
Proof. repeat split; vm_compute; reflexivity. Qed.

(** A positive integer below 2^53, as a double. *)
Lemma float_of_Z_shape (z : Z) :
  (0 < z < 2 ^ 53)%Z ->
  exists (m : positive) (e : Z),
    Prim2SF (float_of_Z z) = S754_finite false m e
    /\ (-52 <= e <= 0)%Z /\ Z.pos m = (z * 2 ^ (- e))%Z.
Proof.
  intro H. unfold float_of_Z.
  destruct (Z.leb_spec 0 z); [|lia].
  destruct (Z.ltb_spec z (2 ^ 63)); [|lia]. cbn [andb].
  rewrite of_uint63_spec, Uint63.of_Z_spec.
  rewrite Z.mod_small by (change Uint63.wB with (2 ^ 63)%Z; lia).
  destruct z as [|k|k]; try lia.
  unfold binary_normalize, binary_round, shl_align. rewrite fexp_eq.
  pose proof (digits2_pos_bounds k) as [Lo Hi].
  assert (D : (Z.pos (digits2_pos k) <= 53)%Z).
  { destruct (Z.le_gt_cases (Z.pos (digits2_pos k)) 53) as [L|L]; [exact L|exfalso].
    assert (2 ^ 53 <= 2 ^ (Z.pos (digits2_pos k) - 1))%Z by (apply Z.pow_le_mono_r; lia).
    lia. }
  destruct (Z.max (Z.pos (digits2_pos k) + 0 - 53) (-1074) - 0)%Z as [|d|d] eqn:Ed.
  - rewrite binary_round_aux_exact by lia. exists k, 0%Z.
    split; [reflexivity|]. split; [lia|]. simpl. lia.
  - lia.
  - destruct (pos_iter_xO k d) as [V G].
    rewrite binary_round_aux_exact by lia.
    eexists _, _. split; [reflexivity|]. split; [lia|].
    rewrite V. f_equal. f_equal. lia.
Qed.

Lemma float_round_of_Z (z : Z) :
  (0 < z < 2 ^ 53)%Z -> float_round (float_of_Z z) = I_fin z.
Proof.
  intro H. destruct (float_of_Z_shape H) as (m & e & E & B & V).
  unfold float_round. rewrite E. rewrite V.
  destruct (Z.leb_spec 0 e) as [P|N].
  - assert (e = 0%Z) by lia. subst e. rewrite Z.shiftl_0_r. f_equal. simpl. lia.
  - f_equal. rewrite (Z.shiftl_mul_pow2 1) by lia. rewrite Z.mul_1_l.
    rewrite Z.shiftl_div_pow2 by lia.
    replace (- (e - 1))%Z with (1 + - e)%Z by lia.
    rewrite Z.pow_add_r by lia. change (2 ^ 1)%Z with 2%Z.
    assert (P : (0 < 2 ^ (- e))%Z) by (apply Z.pow_pos_nonneg; lia).
    replace (2 * (z * 2 ^ (- e)) + 2 ^ (- e))%Z with ((2 * z + 1) * 2 ^ (- e))%Z by ring.
    rewrite (Z.mul_comm 2), Z.div_mul_cancel_r by lia.
    replace (2 * z + 1)%Z with (z * 2 + 1)%Z by ring.
    rewrite Z.div_add_l by lia. change (1 / 2)%Z with 0%Z. lia.
Qed.

Lemma float_round_signed (x : spec_float) :
  forall y, Prim2SF y = x -> SFsigned false x ->
    float_round y = I_posinf \/ exists z, float_round y = I_fin z /\ (0 <= z)%Z.
Proof.
  intros y E S. unfold float_round. rewrite E.
  destruct x as [s|s| |s m e]; try contradiction; cbn in S; subst s.
  - left. reflexivity.
  - right. destruct (0 <=? e)%Z; eexists; (split; [reflexivity|]).
    + apply Z.shiftl_nonneg. lia.
    + apply Z.shiftl_nonneg.
      assert (0 <= Z.shiftl 1 (- e))%Z by (apply Z.shiftl_nonneg; lia). lia.
Qed.

(** The ratios [idx / (count - 1)] of the two to five ticks. *)
Lemma axis_ratio_shape (count idx : nat) :
  2 <= count <= 5 -> idx < count ->
  match Prim2SF (float_of_integral (of_index idx)
                 / float_of_integral (of_index (count - 1)))%float with
  | S754_zero s => s = false /\ idx = 0
  | S754_finite s m e => s = false /\ (-60 <= e)%Z
  | _ => False
  end.
Proof.
  intros Hc Hi.
  assert (C : count = 2 \/ count = 3 \/ count = 4 \/ count = 5) by lia.
  destruct C as [->|[->|[->| ->]]];
    destruct idx as [|[|[|[|[|idx]]]]]; try lia;
    match goal with
    | |- context [Prim2SF ?x] =>
        let v := eval vm_compute in (Prim2SF x) in change (Prim2SF x) with v
    end; cbv iota; (split; [reflexivity|]); first [reflexivity | lia].
Qed.

Lemma axis_ratio_first (count : nat) :
  2 <= count <= 5 ->
  (float_of_integral (of_index 0) / float_of_integral (of_index (count - 1)))%float
  = PrimFloat.zero.
Proof.
  intros Hc.
  assert (C : count = 2 \/ count = 3 \/ count = 4 \/ count = 5) by lia.
  destruct C as [->|[->|[->| ->]]]; vm_compute; reflexivity.
Qed.

Lemma axis_ratio_last (count : nat) :
  2 <= count <= 5 ->
  (float_of_integral (of_index (count - 1)) / float_of_integral (of_index (count - 1)))%float
  = 1%float.
Proof.
  intros Hc.
  assert (C : count = 2 \/ count = 3 \/ count = 4 \/ count = 5) by lia.
  destruct C as [->|[->|[->| ->]]]; vm_compute; reflexivity.
Qed.

(** The index a tick reads lies inside the array. *)
Lemma axis_target_index (count idx lastIndex : nat) :
  2 <= count <= 5 -> idx < count -> 0 < lastIndex -> arrayLength lastIndex ->
  exists z,
    Math_min (of_index lastIndex)
      (float_round (float_of_integral (of_index idx)
                    / float_of_integral (of_index (count - 1))
                    * float_of_integral (of_index lastIndex))%float)
    = I_fin z
    /\ (0 <= z <= Z.of_nat lastIndex)%Z.
Proof.
  intros Hc Hi HL HA. unfold arrayLength in HA.
  pose proof (axis_ratio_shape Hc Hi) as R.
  destruct (@float_of_Z_shape (Z.of_nat lastIndex) ltac:(lia)) as (m & e & E & B & V).
  cbn [float_of_integral of_index] in *.
  set (ratio := (float_of_Z (Z.of_nat idx) / float_of_Z (Z.of_nat (count - 1)))%float) in *.
  assert (F : float_round (ratio * float_of_Z (Z.of_nat lastIndex))%float = I_posinf
              \/ exists z, float_round (ratio * float_of_Z (Z.of_nat lastIndex))%float = I_fin z
                           /\ (0 <= z)%Z).
  { destruct (Prim2SF ratio) as [s|s| |s mr er] eqn:Er; try contradiction.
    - destruct R as [-> _]. right. exists 0%Z. split; [|lia].
      unfold float_round. rewrite mul_spec, Er, E. reflexivity.
    - destruct R as [-> Be].
      apply (@float_round_signed (SF64mul (S754_finite false mr er) (S754_finite false m e)));
        [rewrite mul_spec, Er, E; reflexivity|].
      unfold SF64mul, SFmul. cbn [xorb].
      apply binary_round_aux_signed; lia. }
  destruct F as [->|(z & -> & Hz)]; cbn [Math_min].
  - exists (Z.of_nat lastIndex). split; [reflexivity|lia].
  - exists (Z.min (Z.of_nat lastIndex) z). split; [reflexivity|lia].
Qed.

Lemma Array_get_inside {T} (values : list T) (z : Z) :
  (0 <= z < Z.of_nat (length values))%Z ->
  exists v, Array_get values (I_fin z) = Some v /\ In v values
            /\ nth_error values (Z.to_nat z) = Some v.
Proof.
  intro H. unfold Array_get. destruct (Z.ltb_spec z 0); [lia|].
  destruct (nth_error values (Z.to_nat z)) as [v|] eqn:E.
  - exists v. split; [reflexivity|]. split; [eapply nth_error_In; exact E|reflexivity].
  - apply nth_error_None in E. lia.
Qed.

Lemma axis_target_first (count lastIndex : nat) :
  2 <= count <= 5 -> 0 < lastIndex -> arrayLength lastIndex ->
  Math_min (of_index lastIndex)
    (float_round (float_of_integral (of_index 0)
                  / float_of_integral (of_index (count - 1))
                  * float_of_integral (of_index lastIndex))%float)
  = I_fin 0.
Proof.
  intros Hc HL HA. unfold arrayLength in HA. rewrite (axis_ratio_first Hc).
  destruct (@float_of_Z_shape (Z.of_nat lastIndex) ltac:(lia)) as (m & e & E & B & V).
  cbn [float_of_integral of_index].
  unfold float_round. rewrite mul_spec, E. cbn. f_equal. lia.
Qed.

Lemma axis_target_last (count lastIndex : nat) :
  2 <= count <= 5 -> 0 < lastIndex -> arrayLength lastIndex ->
  Math_min (of_index lastIndex)
    (float_round (float_of_integral (of_index (count - 1))
                  / float_of_integral (of_index (count - 1))
                  * float_of_integral (of_index lastIndex))%float)
  = I_fin (Z.of_nat lastIndex).
Proof.
  intros Hc HL HA. unfold arrayLength in HA. rewrite (axis_ratio_last Hc).
  change 1%float with PrimFloat.one. rewrite float_mul_one_l.
  cbn [float_of_integral of_index].
  rewrite (@float_round_of_Z (Z.of_nat lastIndex)) by lia. unfold of_index. cbn [Math_min]. rewrite Z.min_id. reflexivity.
Qed.

Lemma buildAxisTicks_length (T : Type) (formatTimestamp : option T -> String.string)
  (values : list T) (totalWidth : float) :
  length (buildAxisTicks formatTimestamp values totalWidth) = Nat.min 5 (length values).
Proof.
  unfold buildAxisTicks.
  destruct (Nat.eqb_spec (length values) 0) as [E|E]; [rewrite E; reflexivity|].
  destruct (Nat.leb_spec (Nat.min 5 (length values)) 1) as [L|L].
  - cbn [length]. lia.
  - rewrite length_map, length_seq. reflexivity.
Qed.

Lemma axisTickAt_label (T : Type) (formatTimestamp : option T -> String.string)
  (values : list T) (safeWidth : float) (count idx : nat) :
  2 <= count <= 5 -> idx < count -> 2 <= length values -> arrayLength (length values) ->
  exists v,
    In v values
    /\ tick_label (axisTickAt formatTimestamp values safeWidth count (length values - 1) idx)
       = formatTimestamp (Some v).
Proof.
  intros Hc Hi HL HA.
  destruct (@axis_target_index count idx (length values - 1) Hc Hi ltac:(lia)
              ltac:(unfold arrayLength in *; lia)) as (z & Ez & Bz).
  destruct (@Array_get_inside T values z ltac:(lia)) as (v & Ev & Iv & _).
  exists v. split; [exact Iv|].
  unfold axisTickAt. cbn [tick_label]. rewrite Ez, Ev. reflexivity.
Qed.

Lemma buildAxisTicks_labels (T : Type) (formatTimestamp : option T -> String.string)
  (values : list T) (totalWidth : float) :
  arrayLength (length values) ->
  forall tick, In tick (buildAxisTicks formatTimestamp values totalWidth) ->
    exists v, In v values /\ tick_label tick = formatTimestamp (Some v).
Proof.
  intros HA tick. unfold buildAxisTicks.
  destruct (Nat.eqb_spec (length values) 0) as [E|E]; [intros []|].
  destruct (Nat.leb_spec (Nat.min 5 (length values)) 1) as [L|L].
  - intros [<-|[]]. destruct values as [|v values]; [contradiction E; reflexivity|].
    exists v. split; [left; reflexivity|reflexivity].
  - intro I. apply in_map_iff in I. destruct I as (idx & <- & I).
    apply in_seq in I. apply axisTickAt_label; try lia. exact HA.
Qed.

Lemma buildAxisTicks_first (T : Type) (formatTimestamp : option T -> String.string)
  (values : list T) (totalWidth : float) (v : T) :
  arrayLength (length values) -> hd_error values = Some v ->
  option_map tick_label (hd_error (buildAxisTicks formatTimestamp values totalWidth))
  = Some (formatTimestamp (Some v)).
Proof.
  intros HA Hv. destruct values as [|v0 values]; [discriminate Hv|].
  injection Hv as ->. unfold buildAxisTicks.
  destruct (Nat.eqb_spec (length (v :: values)) 0) as [E|E]; [discriminate E|].
  destruct (Nat.leb_spec (Nat.min 5 (length (v :: values))) 1) as [L|L]; [reflexivity|].
  set (count := Nat.min 5 (length (v :: values))) in *.
  assert (Hc : 2 <= count <= 5) by (unfold count; lia).
  destruct count as [|k] eqn:Ek; [lia|]. rewrite <- Ek in *.
  replace (seq 0 count) with (0 :: seq 1 k) by (rewrite Ek; reflexivity).
  cbn [map hd_error option_map]. unfold axisTickAt. cbn [tick_label].
  rewrite axis_target_first; [reflexivity|exact Hc| |].
  - cbn [length] in *. lia.
  - unfold arrayLength in *. lia.
Qed.

Lemma buildAxisTicks_last (T : Type) (formatTimestamp : option T -> String.string)
  (values : list T) (totalWidth : float) (v : T) :
  2 <= length values -> arrayLength (length values) ->
  nth_error values (length values - 1) = Some v ->
  nth_error (buildAxisTicks formatTimestamp values totalWidth) (Nat.min 5 (length values) - 1)
  = Some {| tick_x := Math_max_of [totalWidth; 1%float];
            tick_label := formatTimestamp (Some v) |}.
Proof.
  intros HL HA Hv. unfold buildAxisTicks.
  destruct (Nat.eqb_spec (length values) 0) as [E|E]; [lia|].
  destruct (Nat.leb_spec (Nat.min 5 (length values)) 1) as [L|L]; [lia|].
  set (count := Nat.min 5 (length values)) in *.
  assert (Hc : 2 <= count <= 5) by (unfold count; lia).
  rewrite nth_error_map, nth_error_seq.
  destruct (Nat.ltb_spec (count - 1) count); [|lia].
  cbn [option_map Nat.add]. f_equal. unfold axisTickAt.
  rewrite axis_target_last; [|exact Hc|lia|unfold arrayLength in *; lia].
  rewrite (axis_ratio_last Hc).
  change 1%float with PrimFloat.one at 1. rewrite float_mul_one_l.
  f_equal. f_equal. unfold Array_get.
  destruct (Z.ltb_spec (Z.of_nat (length values - 1)) 0); [lia|].
  rewrite Nat2Z.id. exact Hv.
Qed.

(** * The claims of the specification *)

(** C1, as amended.  Read over the real numbers, where no operation rounds,
    every defined position of the [slidingCorrelation] output holds a value in
    the closed interval [-1, 1], for every pair of series and every window.
    In doubles the quotient is rounded and can leave the interval. *)
Theorem exact_correlation_in_unit_interval :
  forall (seriesA seriesB : list R) (window : R) (i : nat) (v : R),
    nth i (slidingCorrelation seriesA seriesB window) None = Some v ->
    (-1 <= v <= 1)%R.
Proof.
  intros seriesA seriesB window i v H.
  assert (Hi : i < Nat.min (length seriesA) (length seriesB)).
  { destruct (Nat.lt_ge_cases i (Nat.min (length seriesA) (length seriesB))) as [L|L];
      [exact L|].
    rewrite nth_overflow in H by (rewrite slidingCorrelation_length; exact L).
    discriminate. }
  rewrite slidingCorrelation_nth in H by exact Hi.
  destruct (exact_correlationWindow window) as (W & HW & E).
  rewrite E, correlationAt_fin in H by lia.
  destruct (Z.of_nat i <? W)%Z; [discriminate|].
  apply exact_windowCorrelation_bound in H; [exact H| |].
  - rewrite !trailingWindow_length. reflexivity.
  - simpl. apply IZR_lt. lia.
Qed.

Lemma exact_correlation_in_unit_interval_witness :
  exists v : R,
    nth 2 (slidingCorrelation [0; 1; 5]%R [0; 1; 7]%R 2%R) None = Some v
    /\ (-1 <= v <= 1)%R.
Proof.
  destruct exact_defined_example as (v & E). exists v. split; [exact E|].
  exact (exact_correlation_in_unit_interval _ _ _ _ E).
Defined.

(** C1, as stated, fails in doubles: the self-correlation of the window
    [0, 1, 0] is 1.0000000000000002. *)
Lemma correlation_rounds_above_one :
  nth 3 (slidingCorrelation [0; 1; 0; 0]%float [0; 1; 0; 0]%float 3%float) None
  = Some 0x1.0000000000001p+0%float
  /\ PrimFloat.ltb 1 0x1.0000000000001p+0 = true.
Proof. split; vm_compute; reflexivity. Qed.

(** C2.  The outputs of [slidingCorrelation] and of
    [computeCointegrationZScore] have the length of the shorter input, and an
    output of [smoothSeries] has the length of its input.  [smoothSeries] has
    an output unless its loop cannot exit: the radius is 2^53 or more and some
    position is defined. *)
Theorem output_lengths :
  forall (num : Type) (JN : JsNumber num)
    (seriesA seriesB : list num) (window : num)
    (values : list (option num)) (radius : num),
    length (slidingCorrelation seriesA seriesB window)
    = Nat.min (length seriesA) (length seriesB)
    /\ length (computeCointegrationZScore seriesA seriesB window)
       = Nat.min (length seriesA) (length seriesB)
    /\ match smoothSeries values radius with
       | Returns out => length out = length values
       | Loops =>
           loopExits (smoothingRadius radius) = false
           /\ exists i v, nth_error values i = Some (Some v)
       end.
Proof.
  intros. split; [apply slidingCorrelation_length|].
  split; [apply computeCointegrationZScore_length|].
  destruct (smoothSeries values radius) as [out|] eqn:E.
  - eapply smoothSeries_length, E.
  - apply smoothSeries_loops, E.
Qed.

(** C3.  With the effective window [W = max(floor(window), 1)], the output of
    [slidingCorrelation] is undefined at every index [i < W], and at every
    index [i >= W] it is the coefficient of the slices of the two series at
    the indices [i - W, ..., i - 1]: the sample at [i] is not in its own
    window.  ([W] is [Infinity] when the window is, and every index is below
    it; it is [NaN] only when the window is, and then no comparison holds.) *)
Theorem correlation_window_history :
  forall (num : Type) (JN : JsNumber num)
    (seriesA seriesB : list num) (window : num) (i : nat),
    i < Nat.min (length seriesA) (length seriesB) ->
    let out := slidingCorrelation seriesA seriesB window in
    match correlationWindow window with
    | I_fin W =>
        (1 <= W)%Z
        /\ ((Z.of_nat i < W)%Z -> nth i out None = None)
        /\ ((W <= Z.of_nat i)%Z ->
            nth i out None
            = windowCorrelation (trailingWindow num_nan seriesA i (Z.to_nat W))
                (trailingWindow num_nan seriesB i (Z.to_nat W))
                (of_integral (I_fin W)))
    | I_posinf => nth i out None = None
    | I_neginf => False
    | I_nan => Math_floor window = I_nan
    end.
Proof.
  intros num JN seriesA seriesB window i Hi out. subst out.
  rewrite slidingCorrelation_nth by exact Hi.
  pose proof (Math_max_floor_cases (Math_floor window) 1) as C.
  fold (correlationWindow window) in C.
  destruct (correlationWindow window) as [| | |W] eqn:E.
  - exact C.
  - exact C.
  - reflexivity.
  - destruct C as [HW _].
    rewrite correlationAt_fin by lia.
    split; [exact HW|]. split; intro H.
    + destruct (Z.ltb_spec (Z.of_nat i) W); [reflexivity|lia].
    + destruct (Z.ltb_spec (Z.of_nat i) W); [lia|reflexivity].
Qed.

Lemma correlation_window_history_witness :
  3 < Nat.min (length [1;2;3;4;5]%float) (length [1;2;3;4;5]%float)
  /\ nth 3 (slidingCorrelation [1;2;3;4;5]%float [1;2;3;4;5]%float 3%float) None
     = windowCorrelation [1;2;3]%float [1;2;3]%float 3%float.
Proof.
  split; [simpl; lia|].
  pose proof (@correlation_window_history float Float64
                [1;2;3;4;5]%float [1;2;3;4;5]%float 3%float 3) as H.
  assert (Hi : 3 < Nat.min (length [1;2;3;4;5]%float) (length [1;2;3;4;5]%float))
    by (simpl; lia).
  specialize (H Hi).
  change (correlationWindow 3%float) with (I_fin 3) in H.
  destruct H as (_ & _ & H).
  apply H. lia.
Defined.

(** C4, as amended.  For a radius that is not [NaN], on an output of
    [smoothSeries]: every input position holding a finite number is defined on
    output; and a position is defined on output exactly when it is defined on
    input and either the radius normalises to 0 or a finite number lies within
    the radius of it.  So the undefined positions of the output are those
    undefined on input and those holding a non-finite number with no finite
    number in their window. *)
Theorem smooth_defined_positions :
  forall (num : Type) (JN : JsNumber num)
    (values : list (option num)) (radius : num) (out : list (option num)) (i : nat),
    smoothSeries values radius = Returns out ->
    Math_floor radius <> I_nan ->
    (forall v, nth_error values i = Some (Some v) -> Number_isFinite v = true ->
               exists u, nth_error out i = Some (Some u))
    /\ ((exists u, nth_error out i = Some (Some u))
        <-> (exists v, nth_error values i = Some (Some v))
            /\ (smoothingRadius radius = I_fin 0
                \/ exists r, smoothingRadius radius = I_fin r /\ finiteNear values i r)).
Proof.
  intros num JN values radius out i H Hnan.
  pose proof (@smoothSeries_defined_iff num JN values radius out i H Hnan) as Main.
  split; [|exact Main].
  intros v Hv Hfin. apply Main. split; [exists v; exact Hv|].
  pose proof (Math_max_floor_cases (Math_floor radius) 0) as C.
  fold (smoothingRadius radius) in C.
  destruct (smoothingRadius radius) as [| | |r] eqn:ER; try contradiction.
  - exfalso. unfold smoothSeries in H. rewrite ER in H. simpl in H.
    apply map_from_nth_error with (i := i) (x := Some v) in H; [|exact Hv].
    destruct H as (y & _ & Hf). simpl in Hf. discriminate.
  - right. exists r. split; [reflexivity|].
    exists i, v. split; [|split; assumption].
    destruct C as [Hr _]. lia.
Qed.

Lemma smooth_defined_positions_witness :
  smoothSeries [Some 1%float; None; Some PrimFloat.nan] 1%float
  = Returns [Some 1%float; None; None]
  /\ exists u, nth_error [Some 1%float; None; None] 0 = Some (Some u).
Proof.
  assert (E : smoothSeries [Some 1%float; None; Some PrimFloat.nan] 1%float
              = Returns [Some 1%float; None; None])
    by (vm_compute; reflexivity).
  assert (N : Math_floor 1%float <> I_nan) by (vm_compute; discriminate).
  split; [exact E|].
  exact (proj1 (@smooth_defined_positions float Float64 _ _ _ 0 E N)
           1%float eq_refl eq_refl).
Defined.

(** C4, as stated, fails: a [NaN] alone in its window is a number on input and
    undefined on output. *)
Lemma smooth_drops_nan_centre :
  nth_error [Some PrimFloat.nan] 0 = Some (Some PrimFloat.nan)
  /\ smoothSeries [Some PrimFloat.nan] 1%float = Returns [None].
Proof. split; [reflexivity|vm_compute; reflexivity]. Qed.




(** C6.  When fewer than two index positions of the overlap hold finite
    numbers in both series, the regression is marked invalid and
    [computeCointegrationZScore] returns the overlap's length of undefined
    positions. *)
Theorem insufficient_pairs_all_undefined :
  forall (num : Type) (JN : JsNumber num)
    (seriesA seriesB : list num) (window : num),
    finitePairCount seriesA seriesB < 2 ->
    valid (performLinearRegression seriesA seriesB) = false
    /\ computeCointegrationZScore seriesA seriesB window
       = repeat None (Nat.min (length seriesA) (length seriesB)).
Proof.
  intros num JN seriesA seriesB window H.
  assert (V : valid (performLinearRegression seriesA seriesB) = false)
    by (rewrite performLinearRegression_invalid by exact H; reflexivity).
  split; [exact V|].
  unfold computeCointegrationZScore.
  destruct (Nat.min (length seriesA) (length seriesB) =? 0)%nat; [reflexivity|].
  rewrite V. reflexivity.
Qed.

Lemma insufficient_pairs_all_undefined_witness :
  finitePairCount [1; PrimFloat.nan; 3]%float [2; 5; PrimFloat.infinity]%float < 2
  /\ valid (performLinearRegression [1; PrimFloat.nan; 3]%float
              [2; 5; PrimFloat.infinity]%float) = false
  /\ computeCointegrationZScore [1; PrimFloat.nan; 3]%float
       [2; 5; PrimFloat.infinity]%float 2%float
     = [None; None; None].
Proof.
  assert (H : finitePairCount [1; PrimFloat.nan; 3]%float
                [2; 5; PrimFloat.infinity]%float < 2)
    by (vm_compute; lia).
  split; [exact H|].
  exact (@insufficient_pairs_all_undefined float Float64 _ _ 2%float H).
Defined.




(** C8, at its failing input.  A zero-variance window is to yield undefined,
    not the number 0, and over the real numbers it does.  In doubles the mean
    of three copies of 0.1 is 0.10000000000000002, so the constant window has
    a non-zero computed deviation and passes the guard of line 34: the
    coefficient at index 3 is the number 0. *)
Theorem constant_window_yields_zero :
  (let tenth := 0x1.999999999999ap-4%float in
   slidingCorrelation [tenth; tenth; tenth; tenth] [1; 2; 3; 4]%float 3%float
   = [None; None; None; Some 0%float])
  /\ (forall (c : R) (w : nat) (sliceB : list R),
         0 < w ->
         windowCorrelation (repeat c w) sliceB (of_integral (of_index w)) = None).
Proof.
  split; [vm_compute; reflexivity|].
  intros c w sliceB Hw. apply exact_constant_window_undefined, Hw.
Qed.

(** C9.  Every position that is undefined in the input of [smoothSeries] is
    undefined in its output: no value is made up from the neighbours. *)
Theorem smooth_keeps_undefined :
  forall (num : Type) (JN : JsNumber num)
    (values : list (option num)) (radius : num) (out : list (option num)) (i : nat),
    smoothSeries values radius = Returns out ->
    nth_error values i = Some None ->
    nth_error out i = Some None.
Proof.
  intros num JN values radius out i H Hx.
  pose proof (smoothSeries_nth_error _ _ _ H Hx) as P.
  destruct (int_eqb (smoothingRadius radius) (I_fin 0)); [exact P|].
  destruct P as (y & Hy & Hf). simpl in Hf. injection Hf as <-. exact Hy.
Qed.

Lemma smooth_keeps_undefined_witness :
  smoothSeries [None; Some 0.5%float; None; Some 2%float; None] 1%float
  = Returns [None; Some 0.5%float; None; Some 2%float; None]
  /\ nth_error [None; Some 0.5%float; None; Some 2%float; None] 2 = Some None.
Proof.
  assert (E : smoothSeries [None; Some 0.5%float; None; Some 2%float; None] 1%float
              = Returns [None; Some 0.5%float; None; Some 2%float; None])
    by (vm_compute; reflexivity).
  split; [exact E|].
  exact (@smooth_keeps_undefined float Float64 _ _ _ 2 E eq_refl).
Defined.

(** C10.  [slidingCorrelation] is symmetric in its two series: exchanging them
    gives the same output, position by position. *)
Theorem sliding_correlation_symmetric :
  forall (seriesA seriesB : list float) (window : float),
    slidingCorrelation seriesA seriesB window = slidingCorrelation seriesB seriesA window.
Proof.
  intros seriesA seriesB window.
  apply slidingCorrelation_sym.
  exact float_mul_comm.
Qed.

(** * Further properties of the code *)

(** X1.  [slidingCorrelation] never looks ahead: on the first [n] samples of
    both series it returns the first [n] positions of its output on the whole
    series. *)
Theorem sliding_correlation_prefix :
  forall (num : Type) (JN : JsNumber num)
    (seriesA seriesB : list num) (window : num) (n : nat),
    slidingCorrelation (firstn n seriesA) (firstn n seriesB) window
    = firstn n (slidingCorrelation seriesA seriesB window).
Proof.
  intros num JN seriesA seriesB window n.
  unfold slidingCorrelation.
  rewrite firstn_map, firstn_seq_min, !length_firstn.
  replace (Nat.min (Nat.min n (length seriesA)) (Nat.min n (length seriesB)))
    with (Nat.min n (Nat.min (length seriesA) (length seriesB))) by lia.
  apply map_ext_in. intros i Hi. apply in_seq in Hi.
  apply correlationAt_firstn; lia.
Qed.

(** X2.  The output of [slidingCorrelation] at an index depends on the [W]
    samples before it only, [W] being the normalised window: neither the
    sample at the index itself nor anything further back or ahead changes
    it. *)
Theorem sliding_correlation_local :
  forall (num : Type) (JN : JsNumber num)
    (seriesA seriesB seriesA' seriesB' : list num) (window : num) (W : Z) (i : nat),
    correlationWindow window = I_fin W ->
    i < Nat.min (length seriesA) (length seriesB) ->
    i < Nat.min (length seriesA') (length seriesB') ->
    (forall j, (Z.of_nat i - W <= Z.of_nat j < Z.of_nat i)%Z ->
       nth_error seriesA j = nth_error seriesA' j
       /\ nth_error seriesB j = nth_error seriesB' j) ->
    nth_error (slidingCorrelation seriesA seriesB window) i
    = nth_error (slidingCorrelation seriesA' seriesB' window) i.
Proof.
  intros num JN seriesA seriesB seriesA' seriesB' window W i HW Hi Hi' H.
  unfold slidingCorrelation. rewrite !nth_error_map_seq by assumption. f_equal.
  pose proof (Math_max_floor_cases (Math_floor window) 1) as C.
  fold (correlationWindow window) in C. rewrite HW in *. destruct C as [H1 _].
  rewrite !correlationAt_fin by lia.
  destruct (Z.ltb_spec (Z.of_nat i) W) as [|HiW]; [reflexivity|].
  rewrite (@trailingWindow_agree _ num_nan seriesA seriesA' i (Z.to_nat W));
    [|intros j Hj; apply H; lia|lia|lia].
  rewrite (@trailingWindow_agree _ num_nan seriesB seriesB' i (Z.to_nat W));
    [|intros j Hj; apply H; lia|lia|lia].
  reflexivity.
Qed.

Lemma sliding_correlation_local_witness :
  nth_error (slidingCorrelation [5; 1; 2; 4; 9]%float [3; 2; 1; 5; 0]%float 3%float) 4
  = nth_error (slidingCorrelation [0; 1; 2; 4; 7; 8]%float [9; 2; 1; 5; 6]%float 3%float) 4.
Proof.
  apply (@sliding_correlation_local float Float64
           [5; 1; 2; 4; 9]%float [3; 2; 1; 5; 0]%float
           [0; 1; 2; 4; 7; 8]%float [9; 2; 1; 5; 6]%float 3%float 3 4).
  - reflexivity.
  - simpl. lia.
  - simpl. lia.
  - intros j Hj.
    assert (E : j = 1 \/ j = 2 \/ j = 3) by lia.
    destruct E as [->|[->| ->]]; split; reflexivity.
Defined.

(** X3.  With a window that is [NaN] no position is undefined: every
    position of the overlap, index 0 included, holds [NaN]. *)
Theorem sliding_correlation_nan_window :
  forall (seriesA seriesB : list float) (window : float),
    PrimFloat.is_nan window = true ->
    slidingCorrelation seriesA seriesB window
    = repeat (Some PrimFloat.nan) (Nat.min (length seriesA) (length seriesB)).
Proof.
  intros seriesA seriesB window H. unfold slidingCorrelation, correlationWindow.
  change (Math_floor window) with (float_floor window).
  rewrite (@float_floor_nan _ H). cbn [Math_max].
  apply map_seq_const. intro i. unfold correlationAt.
  cbn [int_ltb of_index]. apply windowCorrelation_nan.
Qed.

Lemma sliding_correlation_nan_window_witness :
  slidingCorrelation [1; 2; 3]%float [4; 5; 6]%float PrimFloat.nan
  = repeat (Some PrimFloat.nan) (Nat.min (length [1; 2; 3]%float) (length [4; 5; 6]%float)).
Proof.
  apply (@sliding_correlation_nan_window [1; 2; 3]%float [4; 5; 6]%float PrimFloat.nan).
  reflexivity.
Defined.

(** X4.  A window below 2 (it normalises to 1) gives no correlation at all:
    when one of the two series holds finite numbers only, every position of
    the output is undefined. *)
Theorem sliding_correlation_window_below_two :
  forall (seriesA seriesB : list float) (window : float),
    PrimFloat.ltb window 2%float = true ->
    Forall (fun a => PrimFloat.is_finite a = true) seriesA
    \/ Forall (fun b => PrimFloat.is_finite b = true) seriesB ->
    slidingCorrelation seriesA seriesB window
    = repeat None (Nat.min (length seriesA) (length seriesB)).
Proof.
  intros seriesA seriesB window H F. unfold slidingCorrelation.
  assert (W : correlationWindow window = I_fin 1).
  { unfold correlationWindow. change (Math_floor window) with (float_floor window).
    destruct (@float_floor_lt_two window H) as [->|(z & -> & Hz)]; cbn [Math_max];
      [reflexivity|]. rewrite Z.max_r by lia. reflexivity. }
  rewrite W. apply map_seq_const_below. intros i Hi.
  rewrite correlationAt_fin by lia.
  destruct (Z.ltb_spec (Z.of_nat i) 1) as [|H1]; [reflexivity|].
  change (Z.to_nat 1) with 1%nat. unfold trailingWindow. cbn [seq map].
  change (of_integral (I_fin 1)) with 1%float.
  apply windowCorrelation_single.
  rewrite !Forall_forall in F.
  destruct F as [F|F]; [left|right]; apply F, nth_In; lia.
Qed.

Lemma sliding_correlation_window_below_two_witness :
  slidingCorrelation [1; 5; 2]%float [4; PrimFloat.nan; 6]%float 1.5%float
  = repeat None (Nat.min (length [1; 5; 2]%float) (length [4; PrimFloat.nan; 6]%float)).
Proof.
  apply (@sliding_correlation_window_below_two
           [1; 5; 2]%float [4; PrimFloat.nan; 6]%float 1.5%float).
  - reflexivity.
  - left. repeat constructor.
Defined.

(** X5.  A number that is not finite spoils every window it falls in: where
    the window of either series holds [NaN] or an infinity, the output of
    [slidingCorrelation] is undefined or [NaN], never a number. *)
Theorem correlation_window_with_non_finite :
  forall (seriesA seriesB : list float) (window : float) (i j : nat) (v : float),
    arrayLength (length seriesA) -> arrayLength (length seriesB) ->
    nth_error (slidingCorrelation seriesA seriesB window) i = Some (Some v) ->
    j < i ->
    (forall W, correlationWindow window = I_fin W -> (Z.of_nat i - W <= Z.of_nat j)%Z) ->
    nonFiniteAt seriesA j \/ nonFiniteAt seriesB j ->
    PrimFloat.is_nan v = true.
Proof.
  intros seriesA seriesB window i j v LA LB Hv Hj HW HN.
  assert (Hi : i < Nat.min (length seriesA) (length seriesB)).
  { rewrite <- (slidingCorrelation_length seriesA seriesB window).
    apply nth_error_Some. rewrite Hv. discriminate. }
  apply (nth_error_nth _ _ None) in Hv.
  rewrite slidingCorrelation_nth in Hv by exact Hi.
  pose proof (Math_max_floor_cases (Math_floor window) 1) as C.
  fold (correlationWindow window) in C.
  destruct (correlationWindow window) as [| | |W].
  - unfold correlationAt in Hv. cbn [int_ltb of_index] in Hv.
    change (of_integral I_nan) with PrimFloat.nan in Hv.
    rewrite windowCorrelation_nan in Hv. injection Hv as <-. reflexivity.
  - contradiction.
  - discriminate.
  - destruct C as [H1 _]. specialize (HW W eq_refl).
    rewrite correlationAt_fin in Hv by lia.
    destruct (Z.ltb_spec (Z.of_nat i) W) as [|HiW]; [discriminate|].
    unfold arrayLength in LA, LB.
    apply (@windowCorrelation_poison _ _ _ v) in Hv; [exact Hv| |].
    + apply float_of_Z_pos. lia.
    + destruct HN as [HN|HN]; [left|right];
        apply (@trailingWindow_non_finite _ i j); try exact HN; lia.
Qed.

Lemma correlation_window_with_non_finite_witness :
  nth_error (slidingCorrelation [1; PrimFloat.infinity; 3; 4]%float [2; 1; 4; 3]%float
               2%float) 3 = Some (Some PrimFloat.nan)
  /\ PrimFloat.is_nan PrimFloat.nan = true.
Proof.
  assert (E : nth_error (slidingCorrelation [1; PrimFloat.infinity; 3; 4]%float
                           [2; 1; 4; 3]%float 2%float) 3 = Some (Some PrimFloat.nan))
    by (vm_compute; reflexivity).
  split; [exact E|].
  refine (@correlation_window_with_non_finite
            [1; PrimFloat.infinity; 3; 4]%float [2; 1; 4; 3]%float 2%float 3 1
            PrimFloat.nan _ _ E _ _ _).
  - unfold arrayLength. simpl. lia.
  - unfold arrayLength. simpl. lia.
  - lia.
  - intros W H. vm_compute in H. injection H as <-. lia.
  - left. exists PrimFloat.infinity. split; reflexivity.
Defined.

(** X6.  A sequence without a defined position is returned as it is, whatever
    the radius: [NaN], [Infinity] and the radii on which the loop over the
    offsets would not exit included. *)
Theorem smooth_undefined_sequence :
  forall (num : Type) (JN : JsNumber num) (values : list (option num)) (radius : num),
    (forall x, In x values -> x = None) ->
    smoothSeries values radius = Returns values.
Proof.
  intros num JN values radius H. unfold smoothSeries.
  destruct (int_eqb (smoothingRadius radius) (I_fin 0)); [reflexivity|].
  apply map_from_undefined. exact H.
Qed.

Lemma smooth_undefined_sequence_witness :
  smoothSeries [None; None; None] PrimFloat.infinity = Returns [None; None; None].
Proof.
  apply (@smooth_undefined_sequence float Float64 [None; None; None] PrimFloat.infinity).
  intros x [<-|[<-|[<-|[]]]]; reflexivity.
Defined.

(** X7.  The call fails to return exactly when the sequence holds a defined
    position and the normalised radius is [Infinity] or at least 2^53: the
    loop over the offsets of that position never exits. *)
Theorem smooth_never_returns_iff :
  forall (num : Type) (JN : JsNumber num) (values : list (option num)) (radius : num),
    smoothSeries values radius = Loops <->
    loopExits (smoothingRadius radius) = false
    /\ exists i v, nth_error values i = Some (Some v).
Proof.
  intros num JN values radius. split; [apply smoothSeries_loops|].
  intros (Hr & i & v & Hv). unfold smoothSeries.
  rewrite (smoothingRadius_stuck _ Hr).
  apply (map_from_stuck _ _ 0 i Hv). simpl.
  rewrite (smoothLoop_stuck _ _ _ Hr). reflexivity.
Qed.

(** X8.  With a radius that is [NaN] the smoother returns a sequence of the
    same length with every position undefined. *)
Theorem smooth_nan_radius :
  forall (values : list (option float)) (radius : float),
    PrimFloat.is_nan radius = true ->
    smoothSeries values radius = Returns (repeat None (length values)).
Proof.
  intros values radius H. unfold smoothSeries, smoothingRadius.
  change (Math_floor radius) with (float_floor radius).
  rewrite (@float_floor_nan _ H). cbn [Math_max int_eqb].
  apply map_from_nan_radius.
Qed.

Lemma smooth_nan_radius_witness :
  smoothSeries [Some 1%float; None; Some 3%float] PrimFloat.nan
  = Returns (repeat None (length [Some 1%float; None; Some 3%float])).
Proof.
  apply (@smooth_nan_radius [Some 1%float; None; Some 3%float] PrimFloat.nan).
  reflexivity.
Defined.

(** X9.  Every radius below 1, the negative ones and [-Infinity] included,
    normalises to 0: the smoother returns the sequence it was given. *)
Theorem smooth_radius_below_one :
  forall (values : list (option float)) (radius : float),
    PrimFloat.ltb radius 1%float = true ->
    smoothSeries values radius = Returns values.
Proof.
  intros values radius H. unfold smoothSeries, smoothingRadius.
  change (Math_floor radius) with (float_floor radius).
  destruct (@float_floor_lt_one radius H) as [->|(z & -> & Hz)]; cbn [Math_max int_eqb].
  - reflexivity.
  - rewrite Z.max_r by lia. reflexivity.
Qed.

Lemma smooth_radius_below_one_witness :
  smoothSeries [Some 1%float; None; Some 3%float] (-2.5)%float
  = Returns [Some 1%float; None; Some 3%float].
Proof.
  apply (@smooth_radius_below_one [Some 1%float; None; Some 3%float] (-2.5)%float).
  reflexivity.
Defined.

(** X10.  A radius that reaches from every index to both ends of the sequence
    flattens it: every defined position of the output holds the same value,
    the mean of all the finite values of the sequence, summed in the order of
    the indices (and is undefined when there is none). *)
Theorem smooth_radius_covering_sequence :
  forall (num : Type) (JN : JsNumber num) (values : list (option num)) (radius : num)
    (r : Z) (out : list (option num)) (i : nat) (x : num),
    smoothingRadius radius = I_fin r ->
    (1 <= r)%Z -> (Z.of_nat (length values) - 1 <= r)%Z ->
    smoothSeries values radius = Returns out ->
    nth_error values i = Some (Some x) ->
    nth_error out i
    = Some (if (0 <? length (finiteValues values))%nat
            then Some (num_div (Array_reduce num_add (finiteValues values) num_zero)
                         (of_integral (of_index (length (finiteValues values)))))
            else None).
Proof.
  intros num JN values radius r out i x Hr H1 Hlen H Hx.
  assert (Hi : i < length values) by (apply nth_error_Some; rewrite Hx; discriminate).
  pose proof (smoothSeries_nth_error _ _ _ H Hx) as Px.
  rewrite Hr in Px. cbn [int_eqb] in Px.
  destruct (Z.eqb_spec r 0) as [|_]; [lia|].
  destruct Px as (u & Hu & Fu). rewrite Hu. f_equal.
  exact (@smoothAt_covering _ _ values r i x u Hi Hlen Fu).
Qed.

Lemma smooth_radius_covering_sequence_witness :
  nth_error [Some 2%float; None; Some 2%float; Some 2%float] 3
  = Some (if (0 <? length (finiteValues [Some 1%float; None; Some 3%float;
                                          Some PrimFloat.nan]))%nat
          then Some (num_div
                       (Array_reduce num_add
                          (finiteValues [Some 1%float; None; Some 3%float;
                                         Some PrimFloat.nan]) num_zero)
                       (of_integral
                          (of_index
                             (length (finiteValues [Some 1%float; None; Some 3%float;
                                                    Some PrimFloat.nan])))))
          else None).
Proof.
  apply (@smooth_radius_covering_sequence float Float64
           [Some 1%float; None; Some 3%float; Some PrimFloat.nan] 5%float 5
           [Some 2%float; None; Some 2%float; Some 2%float] 3 PrimFloat.nan).
  - reflexivity.
  - lia.
  - simpl. lia.
  - vm_compute. reflexivity.
  - reflexivity.
Defined.

(** X11.  A finite value with no other finite value within the radius is
    kept: the output holds a number equal to it. *)
Theorem smooth_isolated_value :
  forall (values : list (option float)) (radius : float) (r : Z)
    (out : list (option float)) (i : nat) (v : float),
    smoothingRadius radius = I_fin r ->
    smoothSeries values radius = Returns out ->
    nth_error values i = Some (Some v) ->
    PrimFloat.is_finite v = true ->
    (forall j w, j <> i -> (Z.abs (Z.of_nat j - Z.of_nat i) <= r)%Z ->
       nth_error values j = Some (Some w) -> PrimFloat.is_finite w = false) ->
    exists u, nth_error out i = Some (Some u) /\ PrimFloat.eqb u v = true.
Proof.
  intros values radius r out i v Hr H Hv Fv Hn.
  pose proof (smoothSeries_nth_error _ _ _ H Hv) as P.
  rewrite Hr in P.
  pose proof (Math_max_floor_cases (Math_floor radius) 0) as C.
  fold (smoothingRadius radius) in C. rewrite Hr in C. destruct C as [R0 _].
  destruct (int_eqb (I_fin r) (I_fin 0)) eqn:E.
  - exists v. split; [exact P|apply float_eqb_refl, Fv].
  - destruct P as (y & Hy & Fy). cbn [int_eqb] in E. apply Z.eqb_neq in E.
    unfold smoothAt, smoothLoop in Fy.
    destruct (r <? max_safe_count)%Z; [|discriminate]. cbn [outcome_bind] in Fy.
    rewrite offsets_split, fold_left_app in Fy by lia. cbn [fold_left] in Fy.
    rewrite (@fold_left_skip _ _ (smoothStep values i)
               (map (fun k => (Z.of_nat k - r)%Z) (seq 0 (Z.to_nat r)))) in Fy.
    2:{ intros st x Hx. apply in_map_iff in Hx. destruct Hx as (k & <- & Hk).
        apply in_seq in Hk. apply smoothStep_skip. intros j w Hj Hw.
        apply (Hn j w); [lia|lia|exact Hw]. }
    rewrite (@fold_left_skip _ _ (smoothStep values i)
               (map (fun k => (Z.of_nat k - r)%Z) (seq (S (Z.to_nat r)) (Z.to_nat r)))) in Fy.
    2:{ intros st x Hx. apply in_map_iff in Hx. destruct Hx as (k & <- & Hk).
        apply in_seq in Hk. apply smoothStep_skip. intros j w Hj Hw.
        apply (Hn j w); [lia|lia|exact Hw]. }
    assert (S0 : smoothStep values i (num_zero, 0) 0%Z
                 = (PrimFloat.add PrimFloat.zero v, 1)).
    { unfold smoothStep. rewrite Z.add_0_r.
      assert (Hi : i < length values) by (apply nth_error_Some; rewrite Hv; discriminate).
      destruct (Z.ltb_spec (Z.of_nat i) 0) as [|_]; [lia|].
      destruct (Z.geb_spec (Z.of_nat i) (Z.of_nat (length values))) as [|_]; [lia|].
      cbn [orb]. rewrite Nat2Z.id, (nth_error_nth _ _ None Hv).
      change (@Number_isFinite float Float64 v) with (PrimFloat.is_finite v).
      rewrite Fv. reflexivity. }
    rewrite S0 in Fy. cbn [fst snd Nat.ltb Nat.leb] in Fy. injection Fy as <-.
    eexists. split; [exact Hy|].
    change (of_integral (of_index 1)) with 1%float.
    change (@num_div float Float64) with PrimFloat.div.
    rewrite float_div_one_r. apply float_zero_add_eqb, Fv.
Qed.

Lemma smooth_isolated_value_witness :
  exists u,
    nth_error [Some 4%float; None; Some 0.5%float; Some PrimFloat.nan; None; Some 7%float] 2
    = Some (Some u)
    /\ PrimFloat.eqb u 0.5%float = true.
Proof.
  apply (@smooth_isolated_value
           [Some 4%float; None; Some 0.5%float; Some PrimFloat.nan; None; Some 7%float]
           1.5%float 1
           [Some 4%float; None; Some 0.5%float; Some 0.5%float; None; Some 7%float]
           2 0.5%float).
  - reflexivity.
  - vm_compute. reflexivity.
  - reflexivity.
  - reflexivity.
  - intros j w Hj Hr Hw.
    assert (E : j = 1 \/ j = 3) by lia.
    destruct E as [->| ->]; simpl in Hw; [discriminate|].
    injection Hw as <-. reflexivity.
Defined.



(** X13.  [performLinearRegression] fits the pairs of finite numbers only: an
    index at which either series holds [NaN] or an infinity changes nothing,
    and the result is valid exactly when at least two such pairs exist. *)
Theorem regression_uses_finite_pairs :
  forall (num : Type) (JN : JsNumber num) (seriesA seriesB : list num),
    let pairs :=
      filter (fun p => Number_isFinite (fst p) && Number_isFinite (snd p))
        (combine seriesA seriesB) in
    performLinearRegression seriesA seriesB
    = performLinearRegression (map fst pairs) (map snd pairs)
    /\ (valid (performLinearRegression seriesA seriesB) = true <-> 2 <= length pairs).
Proof.
  intros num JN seriesA seriesB pairs.
  assert (E : collectPairs seriesA seriesB = pairs) by apply collectPairs_filter.
  assert (F : collectPairs (map fst pairs) (map snd pairs) = pairs).
  { apply collectPairs_split. rewrite <- E. apply collectPairs_finite. }
  split.
  - unfold performLinearRegression, regressionDenominator. rewrite E, F. reflexivity.
  - rewrite performLinearRegression_valid. unfold finitePairCount. fold pairs.
    apply Nat.leb_le.
Qed.

(** X14.  [computeCointegrationZScore] yields a z-score at an index only if
    both series hold a finite number there, the window is finite and the index
    has [W - 1] indices before it, [W] being the normalised window (at least
    2), and the two series share at least two finite pairs.  So index 0 is
    never defined. *)
Theorem zscore_defined_only_if :
  forall (num : Type) (JN : JsNumber num)
    (seriesA seriesB : list num) (window : num) (i : nat) (z : num),
    nth_error (computeCointegrationZScore seriesA seriesB window) i = Some (Some z) ->
    (exists a b, nth_error seriesA i = Some a /\ nth_error seriesB i = Some b
                 /\ Number_isFinite a = true /\ Number_isFinite b = true)
    /\ (exists W, zscoreWindow window = I_fin W /\ (2 <= W)%Z /\ (W - 1 <= Z.of_nat i)%Z)
    /\ 2 <= finitePairCount seriesA seriesB.
Proof.
  intros num JN seriesA seriesB window i z H.
  unfold computeCointegrationZScore in H.
  assert (R : forall n, nth_error (repeat (@None num) n) i <> Some (Some z)).
  { intros n E. apply nth_error_In, repeat_spec in E. discriminate. }
  destruct (Nat.min (length seriesA) (length seriesB) =? 0)%nat; [elim (R _ H)|].
  destruct (valid (performLinearRegression seriesA seriesB)) eqn:V; simpl in H;
    [|elim (R _ H)].
  rewrite performLinearRegression_valid in V. apply Nat.leb_le in V.
  assert (Hi : i < Nat.min (length seriesA) (length seriesB)).
  { assert (E : nth_error (map (zscoreAt (residualsOf (performLinearRegression seriesA seriesB)
                                             seriesA seriesB) (zscoreWindow window))
                              (seq 0 (Nat.min (length seriesA) (length seriesB)))) i <> None)
      by (rewrite H; discriminate).
    apply nth_error_Some in E. rewrite length_map, length_seq in E. exact E. }
  apply (nth_error_nth _ _ None) in H.
  rewrite nth_map_seq in H by exact Hi.
  apply zscoreAt_defined in H. destruct H as ((r & Hr) & HW).
  apply residualsOf_nth in Hr. destruct Hr as (a & b & Ha & Hb & Hr).
  apply residualAt_finite in Hr.
  split; [exists a, b; tauto|]. split; [exact HW|exact V].
Qed.

Lemma zscore_defined_only_if_witness :
  (exists a b, nth_error [1; 2; 4]%float 2 = Some a /\ nth_error [1; 3; 2]%float 2 = Some b
               /\ Number_isFinite a = true /\ Number_isFinite b = true)
  /\ (exists W, zscoreWindow 2%float = I_fin W /\ (2 <= W)%Z /\ (W - 1 <= Z.of_nat 2)%Z)
  /\ 2 <= finitePairCount [1; 2; 4]%float [1; 3; 2]%float.
Proof.
  refine (@zscore_defined_only_if float Float64 [1; 2; 4]%float [1; 3; 2]%float
            2%float 2 _ _).
  vm_compute. reflexivity.
Defined.


(** X16.  In exact arithmetic a window below 3 (it normalises to 2) leaves
    the sign only: every z-score that is defined is 1 or -1. *)
Theorem exact_zscore_of_window_two :
  forall (seriesA seriesB : list R) (window : R) (i : nat) (z : R),
    (window < 3)%R ->
    nth_error (computeCointegrationZScore seriesA seriesB window) i = Some (Some z) ->
    z = 1%R \/ z = (-1)%R.
Proof.
  intros seriesA seriesB window i z Hw H.
  unfold computeCointegrationZScore in H.
  assert (R0 : forall n, nth_error (repeat (@None R) n) i <> Some (Some z)).
  { intros n E. apply nth_error_In, repeat_spec in E. discriminate. }
  destruct (Nat.min (length seriesA) (length seriesB) =? 0)%nat; [elim (R0 _ H)|].
  destruct (negb _); [elim (R0 _ H)|].
  rewrite (exact_zscoreWindow_below_three Hw) in H.
  assert (Hi : i < Nat.min (length seriesA) (length seriesB)).
  { assert (E : nth_error (map (zscoreAt (residualsOf (performLinearRegression seriesA seriesB)
                                             seriesA seriesB) (I_fin 2))
                              (seq 0 (Nat.min (length seriesA) (length seriesB)))) i <> None)
      by (rewrite H; discriminate).
    apply nth_error_Some in E. rewrite length_map, length_seq in E. exact E. }
  apply (nth_error_nth _ _ None) in H.
  rewrite nth_map_seq in H by exact Hi.
  apply exact_zscoreAt_two in H. exact H.
Qed.

Lemma exact_zscore_of_window_two_witness :
  exists z : R,
    nth_error (computeCointegrationZScore [0; 1; 3]%R [0; 1; 1]%R 2%R) 2 = Some (Some z)
    /\ (z = 1%R \/ z = (-1)%R).
Proof.
  destruct exact_window_two_example as (z & E). exists z. split; [exact E|].
  apply (@exact_zscore_of_window_two [0; 1; 3]%R [0; 1; 1]%R 2%R 2 z); [lra|exact E].
Defined.

(** X17.  The trace of the panel, [smoothSeries] of [slidingCorrelation] with
    the radius [Math.max(1, Math.floor(window / 8))], is always produced: for
    every window size of the options and every two arrays the call of the
    smoother returns, with one position for each index of the overlap, and a
    position the raw correlation leaves undefined is undefined in the trace
    too. *)
Theorem panel_correlation_returns :
  forall (windowSize : option float) (seriesA seriesB : list float),
    arrayLength (length seriesA) -> arrayLength (length seriesB) ->
    exists trace,
      panelCorrelation windowSize seriesA seriesB = Returns trace
      /\ length trace = Nat.min (length seriesA) (length seriesB)
      /\ forall i,
           nth_error (slidingCorrelation seriesA seriesB (panelWindow windowSize)) i
           = Some None ->
           nth_error trace i = Some None.
Proof.
  intros windowSize seriesA seriesB LA LB. unfold panelCorrelation.
  pose proof (@panelCorrelation_exits windowSize seriesA seriesB LA LB) as N.
  destruct (smoothSeries _ _) as [trace|] eqn:E; [|congruence].
  exists trace. split; [reflexivity|]. split.
  - rewrite (smoothSeries_length _ _ E). apply slidingCorrelation_length.
  - intros i Hi.
    pose proof (smoothSeries_nth_error _ _ _ E Hi) as P.
    destruct (int_eqb _ _); [exact P|].
    destruct P as (y & Hy & Hf). simpl in Hf. injection Hf as <-. exact Hy.
Qed.

Lemma panel_correlation_returns_witness :
  exists trace,
    panelCorrelation (Some 3%float) [1; 2; 4; 3; 5]%float [2; 1; 3; 5; 4]%float
    = Returns trace
    /\ length trace = Nat.min (length [1; 2; 4; 3; 5]%float) (length [2; 1; 3; 5; 4]%float)
    /\ forall i,
         nth_error (slidingCorrelation [1; 2; 4; 3; 5]%float [2; 1; 3; 5; 4]%float
                      (panelWindow (Some 3%float))) i = Some None ->
         nth_error trace i = Some None.
Proof.
  apply (@panel_correlation_returns (Some 3%float)
           [1; 2; 4; 3; 5]%float [2; 1; 3; 5; 4]%float);
    unfold arrayLength; simpl; lia.
Defined.

(** X18.  [clamp] keeps a number between its bounds: with [min <= max] and a
    [value] that is not [NaN], the result lies between [min] and [max], and it
    is [value] itself when [value] already lies between them. *)
Theorem clamp_within_bounds :
  forall value min max : float,
    float_le min max -> PrimFloat.is_nan value = false ->
    float_le min (clamp value min max) /\ float_le (clamp value min max) max
    /\ (float_le min value -> float_le value max ->
        PrimFloat.eqb (clamp value min max) value = true).
Proof.
  intros value lo hi Hb Hv. unfold clamp.
  destruct (float_le_nan Hb) as [Hlo Hhi].
  destruct (@Math_max_of_pair value lo Hv Hlo) as (Ma & Va & La).
  set (a := Math_max_of [value; lo]) in *.
  assert (Na : PrimFloat.is_nan a = false) by (apply float_le_nan in La; tauto).
  destruct (@Math_min_of_pair a hi Na Hhi) as (Mr & Ra & Rh).
  set (r := Math_min_of [a; hi]) in *.
  assert (Nr : PrimFloat.is_nan r = false) by (apply float_le_nan in Rh; tauto).
  split; [|split; [exact Rh|]].
  - destruct Mr as [[<-|[<-|[]]] | ->]; [exact La|exact Hb|].
    apply float_le_infinity, Hlo.
  - intros H1 H2.
    assert (Av : float_le a value).
    { destruct Ma as [[<-|[<-|[]]] | ->]; [apply float_le_refl, Hv|exact H1|].
      apply float_neg_infinity_le, Hv. }
    assert (Ar : float_le a r).
    { destruct Mr as [[<-|[<-|[]]] | ->]; [apply float_le_refl, Na| |].
      - exact (float_le_trans Av H2).
      - apply float_le_infinity, Na. }
    apply float_le_antisym.
    + exact (float_le_trans Ra Av).
    + exact (float_le_trans Va Ar).
Qed.

Lemma clamp_within_bounds_witness :
  float_le 0%float (clamp 7%float 0%float 1%float)
  /\ float_le (clamp 7%float 0%float 1%float) 1%float
  /\ (float_le 0%float 7%float -> float_le 7%float 1%float ->
      PrimFloat.eqb (clamp 7%float 0%float 1%float) 7%float = true).
Proof.
  apply (@clamp_within_bounds 7%float 0%float 1%float); reflexivity.
Defined.


(** X20.  Whatever the view range in the state and the zoom factor, the range
    [applyZoom] sets never starts below 0 and never ends above 1. *)
Theorem applyZoom_stays_in_view :
  forall (timestamps_length : nat) (viewRange : float * float) (zoomFactor : float),
    let newRange := applyZoom timestamps_length viewRange zoomFactor in
    PrimFloat.ltb (fst newRange) 0%float = false
    /\ PrimFloat.ltb 1%float (snd newRange) = false.
Proof.
  intros n viewRange zoomFactor. unfold applyZoom.
  set (newSpan := clamp _ _ _).
  set (center := ((fst viewRange + snd viewRange) / 2)%float).
  set (newStart := (center - newSpan / 2)%float).
  set (newEnd := (center + newSpan / 2)%float).
  destruct (PrimFloat.ltb newStart 0%float) eqn:S; cbn [fst snd].
  - rewrite Math_min_of_not_above. cbn [fst snd].
    split; [reflexivity|apply Math_min_of_not_above].
  - destruct (PrimFloat.ltb 1%float newEnd) eqn:E; cbn [fst snd].
    + split; [apply Math_max_of_not_below|reflexivity].
    + split; assumption.
Qed.

(** X21.  [normalize] draws the least value of a series at the bottom and the
    greatest at the top: when [min] and [max] are finite and differ and their
    difference does not overflow, [min] is sent to the height [h] itself, and
    [max] to a zero for every finite [h]. *)
Theorem normalize_endpoints :
  forall min max h : float,
    PrimFloat.is_finite min = true -> PrimFloat.is_finite max = true ->
    PrimFloat.eqb max min = false ->
    PrimFloat.is_finite (max - min)%float = true ->
    normalize min min max h = h
    /\ (PrimFloat.is_finite h = true ->
        PrimFloat.eqb (normalize max min max h) PrimFloat.zero = true).
Proof.
  intros lo hi h Flo Fhi Ne Fd. unfold normalize. rewrite Ne.
  pose proof (@float_sub_not_zero hi lo Fhi Flo Ne) as Nd.
  split.
  - rewrite (@float_sub_self lo Flo).
    rewrite (@float_sub_zero_r 1%float (PrimFloat.zero / (hi - lo))%float);
      [apply float_mul_one_l|reflexivity|reflexivity|].
    apply float_zero_div_finite; [reflexivity|exact Fd|exact Nd].
  - intro Fh. rewrite (@float_div_self (hi - lo)%float Fd Nd).
    change (1 - one)%float with PrimFloat.zero.
    apply float_zero_mul_finite; [reflexivity|exact Fh].
Qed.

Lemma normalize_endpoints_witness :
  normalize 2%float 2%float 10%float 300%float = 300%float
  /\ (PrimFloat.is_finite 300%float = true ->
      PrimFloat.eqb (normalize 10%float 2%float 10%float 300%float) PrimFloat.zero = true).
Proof.
  apply (@normalize_endpoints 2%float 10%float 300%float); reflexivity.
Defined.

(** X22.  The path [buildCorrelationPath] returns holds one point for every
    index whose value is a finite number and nothing for the others; the
    point is joined by a line to the one before exactly when the value at the
    previous index is a finite number too, and otherwise starts a new
    sub-path.  A [null] or non-finite value is a gap no line crosses. *)
Theorem correlation_path_segments :
  forall (Number_toString : float -> String.string)
    (values : list (option float)) (chartWidth plotHeight : float),
    buildCorrelationPath Number_toString values chartWidth plotHeight
    = fold_right String.append String.EmptyString
        (map (pathPiece Number_toString values chartWidth plotHeight)
           (seq 0 (length values))).
Proof. exact buildCorrelationPath_pieces. Qed.

(** X23.  The path is the empty string, which the panel does not draw, exactly
    when no value is a finite number. *)
Theorem correlation_path_empty_iff :
  forall (Number_toString : float -> String.string)
    (values : list (option float)) (chartWidth plotHeight : float),
    buildCorrelationPath Number_toString values chartWidth plotHeight = String.EmptyString
    <-> forall v, In (Some v) values -> PrimFloat.is_finite v = false.
Proof.
  intros Number_toString values chartWidth plotHeight.
  rewrite buildCorrelationPath_pieces, fold_append_empty. split.
  - intros H v Hv. destruct (In_nth _ _ None Hv) as (idx & Hi & Hn).
    specialize (H (pathPiece Number_toString values chartWidth plotHeight idx)
                  (in_map _ _ _ (proj2 (in_seq _ _ _) (conj (Nat.le_0_l _) Hi)))).
    unfold pathPiece in H. rewrite Hn in H.
    destruct (PrimFloat.is_finite v); [|reflexivity].
    unfold pathPoint in H. destruct (_ && _); discriminate.
  - intros H p Hp. apply in_map_iff in Hp. destruct Hp as (idx & <- & Hi).
    apply in_seq in Hi. unfold pathPiece.
    destruct (nth idx values None) as [v|] eqn:E; [|reflexivity].
    rewrite (H v); [reflexivity|]. rewrite <- E. apply nth_In. lia.
Qed.

(** X24.  [buildAxisTicks] gives [min(5, values.length)] ticks; every label
    is the text of a value of the array (never of [undefined]), the first
    tick labels the first value, and with two values or more the last tick
    labels the last value and stands at [max(totalWidth, 1)]. *)
Theorem axis_ticks_label_the_values :
  forall (T : Type) (formatTimestamp : option T -> String.string)
         (values : list T) (totalWidth : float),
    arrayLength (length values) ->
    let ticks := buildAxisTicks formatTimestamp values totalWidth in
    length ticks = Nat.min 5 (length values)
    /\ (forall tick, In tick ticks ->
          exists v, In v values /\ tick_label tick = formatTimestamp (Some v))
    /\ (forall v, hd_error values = Some v ->
          option_map tick_label (hd_error ticks) = Some (formatTimestamp (Some v)))
    /\ (forall v, 2 <= length values ->
          nth_error values (length values - 1) = Some v ->
          nth_error ticks (length ticks - 1)
          = Some {| tick_x := Math_max_of [totalWidth; 1%float];
                    tick_label := formatTimestamp (Some v) |}).
Proof.
  intros T formatTimestamp values totalWidth HA ticks. subst ticks.
  split; [apply buildAxisTicks_length|].
  split; [apply buildAxisTicks_labels; exact HA|].
  split; [intros v Hv; apply buildAxisTicks_first; assumption|].
  intros v HL Hv. rewrite buildAxisTicks_length.
  apply buildAxisTicks_last; assumption.
Qed.

Lemma axis_ticks_label_the_values_witness :
  arrayLength (length [10%Z; 20%Z; 30%Z; 40%Z; 50%Z; 60%Z; 70%Z])
  /\ let ticks := buildAxisTicks (fun v : option Z => match v with Some _ => "t" | None => "" end)%string
                    [10%Z; 20%Z; 30%Z; 40%Z; 50%Z; 60%Z; 70%Z] 300%float in
     length ticks = 5
     /\ nth_error ticks (length ticks - 1)
        = Some {| tick_x := Math_max_of [300%float; 1%float]; tick_label := "t"%string |}.
Proof.
  split; [unfold arrayLength; simpl; lia|].
  pose proof (@axis_ticks_label_the_values Z
                (fun v : option Z => match v with Some _ => "t" | None => "" end)%string
                [10%Z; 20%Z; 30%Z; 40%Z; 50%Z; 60%Z; 70%Z] 300%float
                ltac:(unfold arrayLength; simpl; lia)) as (L & _ & _ & H).
  split; [exact L|].
  exact (H 70%Z ltac:(simpl; lia) eq_refl).
Defined.
